(** * fluentxverse-ai: scheduler, fetch chain, TTL cache and token ledger

    A shallow embedding of the scheduling, caching and fetching core of the
    repository, and the properties of its specification proved (or refuted)
    on that embedding.

    Sources embedded:
    - [src/dispatch.daily.services/lesson.scheduler.ts]
      ([getPhilippinesTimeComponents], [getMillisecondsUntilNextRun],
      [scheduleNextRun], [startScheduler], [stopScheduler]);
    - the news tool ([fetchNewsTool.execute]);
    - the Redis-compatible in-memory cache ([createInMemoryCache] and the
      token blacklist helpers built on it).

    Conventions: the clock reading of [Date.now()] is an argument [now] of
    every operation that reads it; numbers are integers; a string is a
    sequence of characters below 256; module-level variables and the
    store are passed and returned explicitly; a call that can throw
    returns a [Completion]. *)

From Stdlib Require Import ZArith Lia List String Ascii Bool.
From Stdlib Require Import DecimalString DecimalZ DecimalPos DecimalFacts.
From stdpp Require Import gmap strings list fin_maps.

Set Default Proof Using "Type".

(* ===================================================================== *)
(** * Part I: the embedding                                               *)
(* ===================================================================== *)

(** ** The ECMAScript time-value arithmetic used by the scheduler

    A time value is a number of milliseconds since the epoch, an integer
    here; [None] stands for [NaN] (an invalid [Date]).  The definitions are
    those of the language standard (Day, TimeWithinDay, DayFromYear,
    YearFromTime, MonthFromTime, DateFromTime, MakeTime, MakeDay, MakeDate,
    TimeClip, [Date.UTC]). *)
Module JsDate.
Local Open Scope Z_scope.

Definition msPerSecond : Z := 1000.
Definition msPerMinute : Z := 60000.
Definition msPerHour : Z := 3600000.
Definition msPerDay : Z := 86400000.
Definition maxTime : Z := 8640000000000000.

Definition Day (t : Z) : Z := t / msPerDay.
Definition TimeWithinDay (t : Z) : Z := t mod msPerDay.

Definition isLeap (y : Z) : bool :=
  if negb (y mod 4 =? 0) then false
  else if negb (y mod 100 =? 0) then true
  else if negb (y mod 400 =? 0) then false
  else true.

Definition DaysInYear (y : Z) : Z := if isLeap y then 366 else 365.

Definition DayFromYear (y : Z) : Z :=
  365 * (y - 1970) + (y - 1969) / 4 - (y - 1901) / 100 + (y - 1601) / 400.

(** [YearFromTime t] is the largest [y] with [TimeFromYear y <= t].  The
    search starts at an upper estimate and walks down; the number of steps
    is the distance to a lower estimate. *)
Fixpoint year_down (fuel : nat) (y day : Z) : Z :=
  match fuel with
  | O => y
  | S f => if DayFromYear y <=? day then y else year_down f (y - 1) day
  end.

Definition year_hi (day : Z) : Z :=
  1970 + (if 0 <=? day then day / 365 else day / 366).
Definition year_lo (day : Z) : Z :=
  1970 + (if 0 <=? day then day / 366 else day / 365).

Definition YearFromDay (day : Z) : Z :=
  year_down (Z.to_nat (year_hi day - year_lo day)) (year_hi day) day.

Definition YearFromTime (t : Z) : Z := YearFromDay (Day t).
Definition InLeapYear (t : Z) : bool := isLeap (YearFromTime t).
Definition DayWithinYear (t : Z) : Z := Day t - DayFromYear (YearFromTime t).

(** First day (within the year) of month [m], [0 <= m <= 11]. *)
Definition monthStart (leap : bool) (m : Z) : Z :=
  let l := if leap then 1 else 0 in
  if m =? 0 then 0
  else if m =? 1 then 31
  else if m =? 2 then 59 + l
  else if m =? 3 then 90 + l
  else if m =? 4 then 120 + l
  else if m =? 5 then 151 + l
  else if m =? 6 then 181 + l
  else if m =? 7 then 212 + l
  else if m =? 8 then 243 + l
  else if m =? 9 then 273 + l
  else if m =? 10 then 304 + l
  else 334 + l.

Definition monthOfDay (leap : bool) (d : Z) : Z :=
  if d <? monthStart leap 1 then 0
  else if d <? monthStart leap 2 then 1
  else if d <? monthStart leap 3 then 2
  else if d <? monthStart leap 4 then 3
  else if d <? monthStart leap 5 then 4
  else if d <? monthStart leap 6 then 5
  else if d <? monthStart leap 7 then 6
  else if d <? monthStart leap 8 then 7
  else if d <? monthStart leap 9 then 8
  else if d <? monthStart leap 10 then 9
  else if d <? monthStart leap 11 then 10
  else 11.

Definition MonthFromTime (t : Z) : Z :=
  monthOfDay (InLeapYear t) (DayWithinYear t).
Definition DateFromTime (t : Z) : Z :=
  DayWithinYear t - monthStart (InLeapYear t) (MonthFromTime t) + 1.
Definition HourFromTime (t : Z) : Z := (t / msPerHour) mod 24.
Definition MinFromTime (t : Z) : Z := (t / msPerMinute) mod 60.

Definition MakeTime (hour min sec ms : Z) : Z :=
  hour * msPerHour + min * msPerMinute + sec * msPerSecond + ms.

(** [MakeDay]: the day number of the first of month [mn] of year [ym],
    plus [date - 1]; months outside [0..11] carry into the year. *)
Definition MakeDay (year month date : Z) : Z :=
  let ym := year + month / 12 in
  let mn := month mod 12 in
  DayFromYear ym + monthStart (isLeap ym) mn + date - 1.

Definition MakeDate (day time : Z) : Z := day * msPerDay + time.

Definition TimeClip (t : Z) : option Z :=
  if Z.abs t <=? maxTime then Some t else None.

(** [Date.UTC(year, month, date, hours, minutes, seconds, ms)]; a year in
    [0..99] means [1900 + year]. *)
Definition Date_UTC (year month date hours minutes seconds ms : Z) : option Z :=
  let yr := if (0 <=? year) && (year <=? 99) then 1900 + year else year in
  TimeClip (MakeDate (MakeDay yr month date) (MakeTime hours minutes seconds ms)).

(** [new Date(value)] for a numeric [value]: the clipped time value. *)
Definition new_Date (value : Z) : option Z := TimeClip value.

End JsDate.

(** ** [lesson.scheduler.ts]: the next-run computation *)
Module Scheduler.
Import JsDate.
Local Open Scope Z_scope.

Definition PHT_OFFSET_HOURS : Z := 8.
Definition SCHEDULED_HOUR : Z := 3.
Definition SCHEDULED_MINUTE : Z := 0.

Record TimeComponents := mkComponents {
  year : Z; month : Z; day : Z; hour : Z; minute : Z
}.

(** [getPhilippinesTimeComponents()], the clock reading [now] made an
    argument. *)
Definition getPhilippinesTimeComponents (now : Z) : option TimeComponents :=
  let phtTimestamp := now + PHT_OFFSET_HOURS * 60 * 60 * 1000 in
  match new_Date phtTimestamp with
  | None => None
  | Some phtDate =>
      Some {| year := YearFromTime phtDate;
              month := MonthFromTime phtDate;
              day := DateFromTime phtDate;
              hour := HourFromTime phtDate;
              minute := MinFromTime phtDate |}
  end.

(** [getMillisecondsUntilNextRun()]; [None] is the [NaN] that an invalid
    date propagates to the result. *)
Definition getMillisecondsUntilNextRun (now : Z) : option Z :=
  match getPhilippinesTimeComponents now with
  | None => None
  | Some pht =>
      let target :=
        if (SCHEDULED_HOUR <=? hour pht)
           || ((hour pht =? SCHEDULED_HOUR) && (SCHEDULED_MINUTE <=? minute pht))
        then
          match Date_UTC (year pht) (month pht) (day pht + 1) 0 0 0 0 with
          | None => None
          | Some tempDate =>
              Some (YearFromTime tempDate, MonthFromTime tempDate,
                    DateFromTime tempDate)
          end
        else Some (year pht, month pht, day pht) in
      match target with
      | None => None
      | Some (targetYear, targetMonth, targetDay) =>
          match Date_UTC targetYear targetMonth targetDay
                         SCHEDULED_HOUR SCHEDULED_MINUTE 0 0 with
          | None => None
          | Some targetPHTasUTC =>
              let targetUTC :=
                targetPHTasUTC - PHT_OFFSET_HOURS * 60 * 60 * 1000 in
              Some (targetUTC - now)
          end
      end
  end.

(** *** The scheduler proper

    The module-level variables [schedulerTimeout] and [isRunning], and the
    part of the runtime the code relies on: the timers armed by
    [setTimeout] that have neither fired nor been cleared, and the timer
    callbacks suspended at [await generateAndSaveLesson()]. *)
Record Timer := mkTimer {
  handle : nat;
  delay : option Z       (* the [msUntilNextRun] handed to [setTimeout] *)
}.

Record State := mkState {
  schedulerTimeout : option nat;
  isRunning : bool;
  timers : list Timer;
  nextHandle : nat;
  jobs : nat;
  failures : nat         (* the "Job failed:" lines written by the callback *)
}.

Definition initial : State :=
  {| schedulerTimeout := None; isRunning := false; timers := [];
     nextHandle := 0; jobs := 0; failures := 0 |}.

Definition armed (h : nat) (s : State) : bool :=
  existsb (fun t => Nat.eqb (handle t) h) (timers s).

Definition dropTimer (h : nat) (ts : list Timer) : list Timer :=
  List.filter (fun t => negb (Nat.eqb (handle t) h)) ts.

(** [scheduleNextRun()]: compute the delay, arm a fresh one-shot timer and
    keep its handle. *)
Definition scheduleNextRun (now : Z) (s : State) : State :=
  let msUntilNextRun := getMillisecondsUntilNextRun now in
  {| schedulerTimeout := Some (nextHandle s);
     isRunning := isRunning s;
     timers := timers s ++ [mkTimer (nextHandle s) msUntilNextRun];
     nextHandle := S (nextHandle s);
     jobs := jobs s;
     failures := failures s |}.

(** [startScheduler()]: whether [initMemgraph] succeeds or throws, the
    first run is scheduled. *)
Definition startScheduler (now : Z) (s : State) : State := scheduleNextRun now s.

(** [stopScheduler()]. *)
Definition stopScheduler (s : State) : State :=
  match schedulerTimeout s with
  | Some h =>
      {| schedulerTimeout := None; isRunning := isRunning s;
         timers := dropTimer h (timers s);
         nextHandle := nextHandle s; jobs := jobs s;
         failures := failures s |}
  | None => s
  end.

(** The timer callback up to its [await]: the timer [h] has fired and is
    gone; when the guard [!isRunning] admits the run, the flag is set and
    the job is started. *)
Definition fire (h : nat) (s : State) : State :=
  let fired :=
    {| schedulerTimeout := schedulerTimeout s; isRunning := isRunning s;
       timers := dropTimer h (timers s);
       nextHandle := nextHandle s; jobs := jobs s;
       failures := failures s |} in
  if negb (isRunning fired) then
    {| schedulerTimeout := schedulerTimeout fired; isRunning := true;
       timers := timers fired;
       nextHandle := nextHandle fired; jobs := S (jobs fired);
       failures := failures fired |}
  else fired.

(** How the awaited job settles. *)
Inductive Outcome := Resolved | Rejected.

(** The rest of the callback: [catch] logs a rejection, [finally] clears
    the flag and calls [scheduleNextRun()]. *)
Definition settle (o : Outcome) (now : Z) (s : State) : State :=
  let logged := match o with Resolved => failures s | Rejected => S (failures s) end in
  scheduleNextRun now
    {| schedulerTimeout := schedulerTimeout s; isRunning := false;
       timers := timers s;
       nextHandle := nextHandle s; jobs := pred (jobs s);
       failures := logged |}.

Inductive Event :=
| EStart (now : Z)
| EStop
| EFire (h : nat)
| ESettle (o : Outcome) (now : Z).

Inductive step : State -> Event -> State -> Prop :=
| step_start s now : step s (EStart now) (startScheduler now s)
| step_stop s : step s EStop (stopScheduler s)
| step_fire s h : armed h s = true -> step s (EFire h) (fire h s)
| step_settle s o now :
    (0 < jobs s)%nat -> step s (ESettle o now) (settle o now s).

Inductive reachable : State -> Prop :=
| reach_initial : reachable initial
| reach_step s e s' : reachable s -> step s e s' -> reachable s'.

(** The three states of the specification. *)
Inductive Phase := Idle | Armed | Running.

Definition phase (s : State) : Phase :=
  if isRunning s then Running
  else match timers s with [] => Idle | _ :: _ => Armed end.

(** Something will still call [scheduleNextRun] or the job: a timer is
    pending, or a callback is waiting for its job. *)
Definition alive (s : State) : Prop := timers s <> [] \/ (0 < jobs s)%nat.

End Scheduler.

(** ** JavaScript values and the [JSON] object

    [json] stands for the values that [JSON.parse] produces; numbers are
    the integers.  An object lists its own properties in order. *)
#[warnings="-register-all"]
Inductive json :=
| JNull
| JBool (b : bool)
| JNum (n : Z)
| JStr (s : string)
| JArr (items : list json)
| JObj (fields : list (string * json)).

Inductive Exn := SyntaxError | TypeError | NetworkError.

(** How a call completes: normally with a value, or by throwing. *)
Inductive Completion (A : Type) :=
| Normal (a : A)
| Throw (e : Exn).
Arguments Normal {A} a.
Arguments Throw {A} e.

(** The interface of the built-in [JSON] object: [JSON_parse] is [None]
    where [JSON.parse] throws a [SyntaxError]. *)
Class JSON := {
  JSON_parse : string -> option json;
  JSON_stringify : json -> string
}.

(** What the code relies on: serializing a value and parsing the text
    again gives the value back. *)
Definition JSON_lawful `{JSON} : Prop :=
  forall j, JSON_parse (JSON_stringify j) = Some j.

(** *** A reference implementation of the interface

    A parser and a serializer for the JSON texts without white space,
    fractions and exponents, in the compact form [JSON.stringify] writes.
    It instantiates the interface wherever a concrete run is evaluated. *)
Module MiniJSON.
Local Open Scope string_scope.

Definition is_digit (c : ascii) : bool :=
  (48 <=? nat_of_ascii c)%nat && (nat_of_ascii c <=? 57)%nat.

Definition is_control (c : ascii) : bool := (nat_of_ascii c <? 32)%nat.

Definition hex_digit (n : nat) : ascii :=
  ascii_of_nat (if (n <? 10)%nat then 48 + n else 87 + n).

Definition hex_value (c : ascii) : option nat :=
  let n := nat_of_ascii c in
  if (48 <=? n)%nat && (n <=? 57)%nat then Some (n - 48)%nat
  else if (97 <=? n)%nat && (n <=? 102)%nat then Some (n - 87)%nat
  else if (65 <=? n)%nat && (n <=? 70)%nat then Some (n - 55)%nat
  else None.

(** One character of a string literal, as [JSON.stringify] quotes it. *)
Definition escape_char (c : ascii) : string :=
  let n := nat_of_ascii c in
  if (n =? 34)%nat then "\" ++ String (ascii_of_nat 34) EmptyString
  else if (n =? 92)%nat then "\\"
  else if (n =? 8)%nat then "\b"
  else if (n =? 9)%nat then "\t"
  else if (n =? 10)%nat then "\n"
  else if (n =? 12)%nat then "\f"
  else if (n =? 13)%nat then "\r"
  else if is_control c then
    "\u00" ++ String (hex_digit (n / 16)) (String (hex_digit (n mod 16)) EmptyString)
  else String c EmptyString.

Fixpoint escape (s : string) : string :=
  match s with
  | EmptyString => EmptyString
  | String c r => escape_char c ++ escape r
  end.

Definition quote (s : string) : string :=
  String (ascii_of_nat 34) (escape s ++ String (ascii_of_nat 34) EmptyString).

Definition Z_to_string (n : Z) : string :=
  DecimalString.NilEmpty.string_of_int (Z.to_int n).

(** The parts of an array or object, a comma between two and the closing
    bracket after the last. *)
Fixpoint join_close (close : string) (parts : list string) : string :=
  match parts with
  | [] => EmptyString
  | [p] => p ++ close
  | p :: ps => p ++ "," ++ join_close close ps
  end.

Fixpoint stringify (j : json) : string :=
  match j with
  | JNull => "null"
  | JBool true => "true"
  | JBool false => "false"
  | JNum n => Z_to_string n
  | JStr s => quote s
  | JArr items =>
      match items with
      | [] => "[]"
      | _ => "[" ++ join_close "]" (map stringify items)
      end
  | JObj fields =>
      match fields with
      | [] => "{}"
      | _ =>
          "{" ++ join_close "}"
                   (map (fun kv => quote (fst kv) ++ ":" ++ stringify (snd kv))
                        fields)
      end
  end.

(** The characters of a string literal up to its closing quote. *)
Definition simple_escape (e : ascii) : option ascii :=
  let n := nat_of_ascii e in
  if (n =? 34)%nat then Some (ascii_of_nat 34)
  else if (n =? 92)%nat then Some (ascii_of_nat 92)
  else if (n =? 47)%nat then Some (ascii_of_nat 47)
  else if (n =? 98)%nat then Some (ascii_of_nat 8)
  else if (n =? 116)%nat then Some (ascii_of_nat 9)
  else if (n =? 110)%nat then Some (ascii_of_nat 10)
  else if (n =? 102)%nat then Some (ascii_of_nat 12)
  else if (n =? 114)%nat then Some (ascii_of_nat 13)
  else None.

Definition unicode_escape (h1 h2 h3 h4 : ascii) : option ascii :=
  match hex_value h1, hex_value h2, hex_value h3, hex_value h4 with
  | Some 0%nat, Some 0%nat, Some a, Some b => Some (ascii_of_nat (16 * a + b))
  | _, _, _, _ => None
  end.

Definition push_char (c : ascii) (r : option (string * string))
  : option (string * string) :=
  match r with
  | Some (s, rest) => Some (String c s, rest)
  | None => None
  end.

Fixpoint parse_chars (s : string) : option (string * string) :=
  match s with
  | EmptyString => None
  | String c r =>
      if (nat_of_ascii c =? 34)%nat then Some (EmptyString, r)
      else if (nat_of_ascii c =? 92)%nat then
        match r with
        | String e r1 =>
            if (nat_of_ascii e =? 117)%nat then
              match r1 with
              | String h1 (String h2 (String h3 (String h4 r2))) =>
                  match unicode_escape h1 h2 h3 h4 with
                  | Some u => push_char u (parse_chars r2)
                  | None => None
                  end
              | _ => None
              end
            else
              match simple_escape e with
              | Some u => push_char u (parse_chars r1)
              | None => None
              end
        | EmptyString => None
        end
      else if is_control c then None
      else push_char c (parse_chars r)
  end.

Fixpoint span_digits (s : string) : string * string :=
  match s with
  | EmptyString => (EmptyString, EmptyString)
  | String c r =>
      if is_digit c then
        let (d, rest) := span_digits r in (String c d, rest)
      else (EmptyString, s)
  end.

Definition parse_digits (s : string) : option (Decimal.uint * string) :=
  let (d, rest) := span_digits s in
  match d with
  | EmptyString => None
  | String c (String _ _ as more) =>
      if (nat_of_ascii c =? 48)%nat then None
      else match DecimalString.NilEmpty.uint_of_string d with
           | Some u => Some (u, rest)
           | None => None
           end
  | _ => match DecimalString.NilEmpty.uint_of_string d with
         | Some u => Some (u, rest)
         | None => None
         end
  end.

Definition parse_number (s : string) : option (json * string) :=
  match s with
  | String c r =>
      if (nat_of_ascii c =? 45)%nat then
        match parse_digits r with
        | Some (u, rest) => Some (JNum (Z.of_int (Decimal.Neg u)), rest)
        | None => None
        end
      else
        match parse_digits s with
        | Some (u, rest) => Some (JNum (Z.of_int (Decimal.Pos u)), rest)
        | None => None
        end
  | EmptyString => None
  end.

Fixpoint strip_prefix (word s : string) : option string :=
  match word with
  | EmptyString => Some s
  | String a word' =>
      match s with
      | String b s' => if Ascii.eqb a b then strip_prefix word' s' else None
      | EmptyString => None
      end
  end.

Definition expect (word : string) (v : json) (s : string)
  : option (json * string) :=
  match strip_prefix word s with
  | Some rest => Some (v, rest)
  | None => None
  end.

Fixpoint parse_value (fuel : nat) (s : string) : option (json * string) :=
  match fuel with
  | O => None
  | S f =>
      match s with
      | EmptyString => None
      | String c r =>
          let n := nat_of_ascii c in
          if (n =? 110)%nat then expect "null" JNull s
          else if (n =? 116)%nat then expect "true" (JBool true) s
          else if (n =? 102)%nat then expect "false" (JBool false) s
          else if (n =? 34)%nat then
            match parse_chars r with
            | Some (str, rest) => Some (JStr str, rest)
            | None => None
            end
          else if (n =? 91)%nat then
            match r with
            | String c' r' =>
                if (nat_of_ascii c' =? 93)%nat then Some (JArr [], r')
                else match parse_elements f r with
                     | Some (l, rest) => Some (JArr l, rest)
                     | None => None
                     end
            | EmptyString => None
            end
          else if (n =? 123)%nat then
            match r with
            | String c' r' =>
                if (nat_of_ascii c' =? 125)%nat then Some (JObj [], r')
                else match parse_members f r with
                     | Some (l, rest) => Some (JObj l, rest)
                     | None => None
                     end
            | EmptyString => None
            end
          else parse_number s
      end
  end
with parse_elements (fuel : nat) (s : string) : option (list json * string) :=
  match fuel with
  | O => None
  | S f =>
      match parse_value f s with
      | Some (x, String c r) =>
          if (nat_of_ascii c =? 44)%nat then
            match parse_elements f r with
            | Some (l, rest) => Some (x :: l, rest)
            | None => None
            end
          else if (nat_of_ascii c =? 93)%nat then Some ([x], r)
          else None
      | _ => None
      end
  end
with parse_members (fuel : nat) (s : string)
  : option (list (string * json) * string) :=
  match fuel with
  | O => None
  | S f =>
      match s with
      | String q r =>
          if (nat_of_ascii q =? 34)%nat then
            match parse_chars r with
            | Some (k, String colon r1) =>
                if (nat_of_ascii colon =? 58)%nat then
                  match parse_value f r1 with
                  | Some (x, String c r2) =>
                      if (nat_of_ascii c =? 44)%nat then
                        match parse_members f r2 with
                        | Some (l, rest) => Some ((k, x) :: l, rest)
                        | None => None
                        end
                      else if (nat_of_ascii c =? 125)%nat then Some ([(k, x)], r2)
                      else None
                  | _ => None
                  end
                else None
            | _ => None
            end
          else None
      | EmptyString => None
      end
  end.

Definition parse (s : string) : option json :=
  match parse_value (String.length s) s with
  | Some (j, EmptyString) => Some j
  | _ => None
  end.

Definition codec : JSON :=
  {| JSON_parse := parse; JSON_stringify := stringify |}.

(** Measures and predicates for reasoning about the parser. *)
Fixpoint size (j : json) : nat :=
  match j with
  | JArr l => S (list_sum (map (fun x => S (size x)) l))
  | JObj fs => S (list_sum (map (fun kv => S (size (snd kv))) fs))
  | _ => 1
  end.

Definition no_digit_head (s : string) : Prop :=
  match s with
  | EmptyString => True
  | String c _ => is_digit c = false
  end.

Definition parses_back (j : json) : Prop :=
  forall fuel rest,
    (size j <= fuel)%nat -> no_digit_head rest ->
    parse_value fuel (stringify j ++ rest) = Some (j, rest).

End MiniJSON.

(** [arr.slice(start, end)]; [None] for an omitted [end]. *)
Definition relativeIndex (len i : Z) : Z :=
  if (i <? 0)%Z then Z.max (len + i) 0 else Z.min i len.

Definition Array_slice {A : Type} (arr : list A) (start : Z) (end_ : option Z)
  : list A :=
  let len := Z.of_nat (length arr) in
  let k := relativeIndex len start in
  let final := match end_ with
               | None => len
               | Some e => relativeIndex len e
               end in
  firstn (Z.to_nat (final - k)) (skipn (Z.to_nat k) arr).

(** ** The in-memory cache client ([createInMemoryCache]) *)
Module Cache.
Local Open Scope Z_scope.

Record Entry := mkEntry { value : string; expires : Z }.

(** [CacheStore = Map<string, { value, expires }>]. *)
Abbreviation CacheStore := (gmap string Entry).

(** Every operation takes the reading [now] of [Date.now()] and the store,
    and returns its result with the store it leaves. *)
Definition get (now : Z) (key : string) (store : CacheStore)
  : option string * CacheStore :=
  match store !! key with
  | None => (None, store)
  | Some entry =>
      if now >? expires entry then (None, delete key store)
      else (Some (value entry), store)
  end.

Definition setEx (now : Z) (key : string) (ttl : Z) (v : string)
  (store : CacheStore) : CacheStore :=
  <[key := {| value := v; expires := now + ttl * 1000 |}]> store.

Definition THIRTY_DAYS : Z := 30 * 24 * 60 * 60 * 1000.

Section Lists.
Context `{JSON}.

(** [lRange]: the list operations read the entry directly and do not
    look at its expiry; a failing [JSON.parse] is caught. *)
Definition lRange (key : string) (start stop : Z) (store : CacheStore)
  : list string :=
  match store !! key with
  | None => []
  | Some entry =>
      match JSON_parse (value entry) with
      | Some (JArr arr) =>
          if stop =? -1 then map JSON_stringify (Array_slice arr start None)
          else map JSON_stringify (Array_slice arr start (Some (stop + 1)))
      | Some _ => []
      | None => []
      end
  end.

(** The array an append starts from: the parsed entry, or the empty array
    when the key is absent or its value does not parse to an array. *)
Definition currentList (key : string) (store : CacheStore) : list json :=
  match store !! key with
  | None => []
  | Some entry =>
      match JSON_parse (value entry) with
      | Some (JArr arr) => arr
      | Some _ => []
      | None => []
      end
  end.

(** [rPush] throws where [JSON.parse(value)] does: that call is outside
    the [try]. *)
Definition rPush (now : Z) (key : string) (v : string) (store : CacheStore)
  : Completion CacheStore :=
  let arr := currentList key store in
  match JSON_parse v with
  | None => Throw SyntaxError
  | Some parsed =>
      Normal (<[key := {| value := JSON_stringify (JArr (arr ++ [parsed]));
                          expires := now + THIRTY_DAYS |}]> store)
  end.

(** [lTrim]: nothing happens on a missing, unparsable or non-array
    entry. *)
Definition lTrim (now : Z) (key : string) (start stop : Z)
  (store : CacheStore) : CacheStore :=
  match store !! key with
  | None => store
  | Some entry =>
      match JSON_parse (value entry) with
      | Some (JArr arr) =>
          let arr' := if stop =? -1 then Array_slice arr start None
                      else Array_slice arr start (Some (stop + 1)) in
          <[key := {| value := JSON_stringify (JArr arr');
                      expires := now + THIRTY_DAYS |}]> store
      | Some _ => store
      | None => store
      end
  end.

(** The history policy of [logRetentionCleanup]: an append followed by
    [lTrim(key, -100, -1)]. *)
Definition appendCapped (now : Z) (key : string) (v : string)
  (store : CacheStore) : Completion CacheStore :=
  match rPush now key v store with
  | Throw e => Throw e
  | Normal store' => Normal (lTrim now key (-100) (-1) store')
  end.

(** [appendCapped] for the values [vs] in turn, the [i]-th at the clock
    reading [clock i]. *)
Fixpoint appendAll (clock : nat -> Z) (i : nat) (key : string) (vs : list string)
  (store : CacheStore) : Completion CacheStore :=
  match vs with
  | [] => Normal store
  | v :: vs' =>
      match appendCapped (clock i) key v store with
      | Throw e => Throw e
      | Normal store' => appendAll clock (S i) key vs' store'
      end
  end.

End Lists.

(** The last [n] elements of a list. *)
Definition lastN {A : Type} (n : nat) (l : list A) : list A :=
  skipn (length l - n) l.

End Cache.

(** ** Number conversions used by the token ledger *)
Module JsNumber.
Local Open Scope string_scope.

(** White space that [parseInt] skips, among the characters below 256. *)
Definition is_space (c : ascii) : bool :=
  let n := nat_of_ascii c in
  ((9 <=? n)%nat && (n <=? 13)%nat) || (n =? 32)%nat || (n =? 160)%nat.

Fixpoint trim_start (s : string) : string :=
  match s with
  | EmptyString => EmptyString
  | String c r => if is_space c then trim_start r else s
  end.

(** [parseInt(s, 10)]: leading white space, an optional sign, then the
    longest run of decimal digits; [None] is [NaN]. *)
Definition parseInt (s : string) : option Z :=
  let s1 := trim_start s in
  let signed :=
    match s1 with
    | String c r =>
        if (nat_of_ascii c =? 45)%nat then (true, r)
        else if (nat_of_ascii c =? 43)%nat then (false, r)
        else (false, s1)
    | EmptyString => (false, s1)
    end in
  let digits := fst (MiniJSON.span_digits (snd signed)) in
  match digits with
  | EmptyString => None
  | _ =>
      match DecimalString.NilEmpty.uint_of_string digits with
      | Some u => Some (if fst signed then (- Z.of_uint u)%Z else Z.of_uint u)
      | None => None
      end
  end.

(** [n.toString()] for an integer [n] below [10^21] in magnitude. *)
Definition Number_toString (n : Z) : string := MiniJSON.Z_to_string n.

End JsNumber.

(** ** The cache module: the client interface, the module variables
    [redisClient] and [isConnected], and the helpers built on them *)
Module Redis.
Import Cache.
Local Open Scope string_scope.

(** [type RedisClient]: each method takes the clock reading and the client
    and returns how the call completed with the client it leaves. *)
Class RedisClient (C : Type) := {
  client_get : Z -> string -> C -> Completion (option string) * C;
  client_setEx : Z -> string -> Z -> string -> C -> Completion unit * C;
  client_rPush : Z -> string -> string -> C -> Completion unit * C;
  client_lTrim : Z -> string -> Z -> Z -> C -> Completion unit * C
}.

(** [createInMemoryCache()]: the client whose methods are those of
    [Cache]. *)
Definition inMemory `{JSON} : RedisClient CacheStore :=
  {| client_get now key store :=
       let r := Cache.get now key store in (Normal (fst r), snd r);
     client_setEx now key ttl v store :=
       (Normal tt, Cache.setEx now key ttl v store);
     client_rPush now key v store :=
       match Cache.rPush now key v store with
       | Normal store' => (Normal tt, store')
       | Throw e => (Throw e, store)
       end;
     client_lTrim now key start stop store :=
       (Normal tt, Cache.lTrim now key start stop store) |}.

Record Vars (C : Type) := mkVars {
  redisClient : option C;
  isConnected : bool
}.
Arguments mkVars {C} _ _.
Arguments redisClient {C} _.
Arguments isConnected {C} _.

Section Helpers.
Context {C : Type} `{RedisClient C}.

Definition isRedisConnected (m : Vars C) : bool :=
  isConnected m && match redisClient m with Some _ => true | None => false end.

Definition withClient (c : C) (m : Vars C) : Vars C :=
  {| redisClient := Some c; isConnected := isConnected m |}.

(** [blacklistToken(tokenId, expiresInSeconds)]. *)
Definition blacklistToken (now : Z) (tokenId : string) (expiresInSeconds : Z)
  (m : Vars C) : Vars C :=
  if negb (isRedisConnected m) then m
  else match redisClient m with
       | None => m
       | Some c =>
           let key := "token:blacklist:" ++ tokenId in
           withClient (snd (client_setEx now key expiresInSeconds "revoked" c)) m
       end.

(** [isTokenBlacklisted(tokenId)]. *)
Definition isTokenBlacklisted (now : Z) (tokenId : string) (m : Vars C)
  : bool * Vars C :=
  if negb (isRedisConnected m) then (false, m)
  else match redisClient m with
       | None => (false, m)
       | Some c =>
           let key := "token:blacklist:" ++ tokenId in
           match client_get now key c with
           | (Normal result, c') =>
               (match result with Some _ => true | None => false end,
                withClient c' m)
           | (Throw _, c') => (false, withClient c' m)
           end
       end.

(** [invalidateUserTokens(userId, signUpdate)]. *)
Definition invalidateUserTokens (now : Z) (userId : string) (signUpdate : Z)
  (m : Vars C) : Vars C :=
  if negb (isRedisConnected m) then m
  else match redisClient m with
       | None => m
       | Some c =>
           let key := "user:signUpdate:" ++ userId in
           withClient
             (snd (client_setEx now key 86400
                     (JsNumber.Number_toString signUpdate) c)) m
       end.

(** [isTokenInvalidatedBySignUpdate(userId, tokenIat)]; a comparison with
    [NaN] is false. *)
Definition isTokenInvalidatedBySignUpdate (now : Z) (userId : string)
  (tokenIat : Z) (m : Vars C) : bool * Vars C :=
  if negb (isRedisConnected m) then (false, m)
  else match redisClient m with
       | None => (false, m)
       | Some c =>
           let key := "user:signUpdate:" ++ userId in
           match client_get now key c with
           | (Normal signUpdate, c') =>
               match signUpdate with
               | None => (false, withClient c' m)
               | Some EmptyString => (false, withClient c' m)
               | Some text =>
                   let signUpdateMs := JsNumber.parseInt text in
                   let tokenIatMs := (tokenIat * 1000)%Z in
                   (match signUpdateMs with
                    | Some ms => (tokenIatMs <? ms)%Z
                    | None => false
                    end, withClient c' m)
               end
           | (Throw _, c') => (false, withClient c' m)
           end
       end.

(** [logRetentionCleanup(deletedCount)], with [timestamp] the text of
    [new Date().toISOString()]; any exception is caught and logged. *)
Definition logRetentionCleanup `{JSON} (now : Z) (timestamp : string)
  (deletedCount : Z) (m : Vars C) : Vars C :=
  if negb (isRedisConnected m) then m
  else match redisClient m with
       | None => m
       | Some c =>
           let key := "notifications:cleanup:history" in
           let entry := JObj [("timestamp", JStr timestamp);
                              ("deletedCount", JNum deletedCount)] in
           match client_rPush now key (JSON_stringify entry) c with
           | (Normal _, c1) =>
               withClient (snd (client_lTrim now key (-100) (-1) c1)) m
           | (Throw _, c1) => withClient c1 m
           end
       end.

End Helpers.
End Redis.

(** ** Regular expressions, as far as the news tool uses them

    Literal text, a starred character class (greedy [c*] or lazy [c*?]),
    capture groups, sequence and alternation, matched by backtracking in
    the order the language standard prescribes.  The matcher is written in
    continuation-passing style: [run r s caps k] matches [r] at the front
    of [s] and hands the rest of the input and the captures to [k]; a
    failure of [k] makes it try the next way to match. *)
Module Regex.
Local Open Scope string_scope.

Inductive regex :=
| Lit (text : string)
| Star (greedy : bool) (class : ascii -> bool)
| Group (n : nat) (r : regex)
| Seq (r1 r2 : regex)
| Alt (r1 r2 : regex).

(** [.]: anything but a line terminator. *)
Definition dot (c : ascii) : bool :=
  negb ((nat_of_ascii c =? 10)%nat || (nat_of_ascii c =? 13)%nat).
(** [[\s\S]]: anything. *)
Definition any (c : ascii) : bool := true.
(** [[^>]]. *)
Definition not_gt (c : ascii) : bool := negb (nat_of_ascii c =? 62)%nat.

(** The captures: group number to captured text. *)
Definition Captures := list (nat * string).

Fixpoint capture (n : nat) (caps : Captures) : option string :=
  match caps with
  | [] => None
  | (m, text) :: rest => if (m =? n)%nat then Some text else capture n rest
  end.

Fixpoint take_chars (n : nat) (s : string) : string :=
  match n, s with
  | S n', String c r => String c (take_chars n' r)
  | _, _ => EmptyString
  end.

(** The text between the position [s] and the later position [s']. *)
Definition consumed (s s' : string) : string :=
  take_chars (String.length s - String.length s') s.

Section Matcher.
Context {R : Type}.

Fixpoint star_lazy (class : ascii -> bool) (s : string)
  (k : string -> option R) : option R :=
  match k s with
  | Some x => Some x
  | None =>
      match s with
      | String c r => if class c then star_lazy class r k else None
      | EmptyString => None
      end
  end.

Fixpoint star_greedy (class : ascii -> bool) (s : string)
  (k : string -> option R) : option R :=
  match s with
  | String c r =>
      if class c then
        match star_greedy class r k with
        | Some x => Some x
        | None => k s
        end
      else k s
  | EmptyString => k s
  end.

Fixpoint run (r : regex) (s : string) (caps : Captures)
  (k : string -> Captures -> option R) : option R :=
  match r with
  | Lit text =>
      match MiniJSON.strip_prefix text s with
      | Some s' => k s' caps
      | None => None
      end
  | Star true class => star_greedy class s (fun s' => k s' caps)
  | Star false class => star_lazy class s (fun s' => k s' caps)
  | Group n r1 =>
      run r1 s caps (fun s' caps' => k s' ((n, consumed s s') :: caps'))
  | Seq r1 r2 => run r1 s caps (fun s' caps' => run r2 s' caps' k)
  | Alt r1 r2 =>
      match run r1 s caps k with
      | Some x => Some x
      | None => run r2 s caps k
      end
  end.

End Matcher.

(** A match at the front of [s]: the input after it and the captures. *)
Definition match_here (r : regex) (s : string) : option (string * Captures) :=
  run r s [] (fun s' caps => Some (s', caps)).

(** The leftmost match at or after the position [s]: what
    [RegExp.prototype.exec] finds from [lastIndex], and [String.prototype.match]
    from the start. *)
Fixpoint search (r : regex) (s : string) : option (string * Captures) :=
  match match_here r s with
  | Some found => Some found
  | None =>
      match s with
      | String _ rest => search r rest
      | EmptyString => None
      end
  end.

(** Some occurrence of the literal [word] in [pre ++ rest] starts inside
    [pre]. *)
Fixpoint starts_before (word pre rest : string) : bool :=
  match pre with
  | EmptyString => false
  | String _ pre' =>
      match MiniJSON.strip_prefix word (pre ++ rest) with
      | Some _ => true
      | None => starts_before word pre' rest
      end
  end.

(** Every character of [s] is in [class]. *)
Fixpoint all_chars (class : ascii -> bool) (s : string) : bool :=
  match s with
  | EmptyString => true
  | String c r => class c && all_chars class r
  end.

End Regex.

(** ** The news tool ([fetchNewsTool.execute]) *)
Module News.
Import Regex.
Local Open Scope string_scope.

(** A JavaScript value read off a parsed response: a JSON value or
    [undefined]. *)
Inductive jsval :=
| Undefined
| Val (j : json).

Definition truthy (v : jsval) : bool :=
  match v with
  | Undefined => false
  | Val JNull => false
  | Val (JBool b) => b
  | Val (JNum n) => negb (n =? 0)%Z
  | Val (JStr s) => negb (String.eqb s EmptyString)
  | Val (JArr _) => true
  | Val (JObj _) => true
  end.

(** [a || b]. *)
Definition or_else (a b : jsval) : jsval := if truthy a then a else b.

(** The own property [name] of an object; a later duplicate in the text
    has overwritten an earlier one. *)
Fixpoint own_property (name : string) (fields : list (string * json))
  : option json :=
  match fields with
  | [] => None
  | (k, x) :: rest =>
      match own_property name rest with
      | Some y => Some y
      | None => if String.eqb k name then Some x else None
      end
  end.

(** [v.name] for the property names the tool reads: a [TypeError] on
    [null]; [undefined] on a number, boolean, string or array, none of
    which has a property of these names. *)
Definition get_property (name : string) (v : json) : Completion jsval :=
  match v with
  | JNull => Throw TypeError
  | JObj fields =>
      match own_property name fields with
      | Some x => Normal (Val x)
      | None => Normal Undefined
      end
  | _ => Normal Undefined
  end.

(** [v === text] for a string literal [text]. *)
Definition is_string (text : string) (v : jsval) : bool :=
  match v with
  | Val (JStr s) => String.eqb s text
  | _ => false
  end.

(** [v?.name] on a value that may be [undefined]. *)
Definition get_optional (name : string) (v : jsval) : jsval :=
  match v with
  | Undefined => Undefined
  | Val JNull => Undefined
  | Val j =>
      match get_property name j with
      | Normal x => x
      | Throw _ => Undefined
      end
  end.

Record NewsArticle := mkArticle {
  title : jsval;
  description : jsval;
  content : jsval;
  url : jsval;
  source : jsval;
  publishedAt : jsval;
  author : jsval
}.

Record FetchResult := mkResult {
  articles : list NewsArticle;
  totalResults : jsval;
  query : string
}.

Definition bind {A B : Type} (c : Completion A) (f : A -> Completion B)
  : Completion B :=
  match c with
  | Normal a => f a
  | Throw e => Throw e
  end.

Notation "x <- c ;; k" := (bind c (fun x => k))
  (at level 100, c at next level, right associativity).

(** [arr.map(f)] where [f] may throw. *)
Fixpoint map_completion {A B : Type} (f : A -> Completion B) (l : list A)
  : Completion (list B) :=
  match l with
  | [] => Normal []
  | x :: rest =>
      y <- f x ;;
      ys <- map_completion f rest ;;
      Normal (y :: ys)
  end.

(** [v.map(f)]: a [TypeError] unless [v] is an array. *)
Definition map_articles (f : json -> Completion NewsArticle) (v : jsval)
  : Completion (list NewsArticle) :=
  match v with
  | Val (JArr items) => map_completion f items
  | _ => Throw TypeError
  end.

Section Tool.
Context `{JSON}.

(** The environment of one call: the two keys of [process.env], the
    answer of [fetch] to each URL (the body text, or a failure of the
    request or of reading the body), and the text of
    [new Date().toISOString()]. *)
Record World := mkWorld {
  NEWSAPI_KEY : option string;
  GNEWS_KEY : option string;
  fetch : string -> Completion string;
  nowISO : string
}.

(** [if (key)]: set and not empty. *)
Definition configured (key : option string) : option string :=
  match key with
  | Some EmptyString => None
  | Some k => Some k
  | None => None
  end.

(** [encodeURIComponent] on characters below 256: the unreserved ones
    stay, the others become the [%XX] of their UTF-8 bytes. *)
Definition hex_upper (n : nat) : ascii :=
  ascii_of_nat (if (n <? 10)%nat then 48 + n else 55 + n).

Definition percent (n : nat) : string :=
  String "%" (String (hex_upper (n / 16)) (String (hex_upper (n mod 16)) EmptyString)).

Definition unreserved (c : ascii) : bool :=
  let n := nat_of_ascii c in
  ((65 <=? n) && (n <=? 90))%nat || ((97 <=? n) && (n <=? 122))%nat
  || ((48 <=? n) && (n <=? 57))%nat
  || (n =? 45)%nat || (n =? 95)%nat || (n =? 46)%nat || (n =? 33)%nat
  || (n =? 126)%nat || (n =? 42)%nat || (n =? 39)%nat || (n =? 40)%nat
  || (n =? 41)%nat.

Fixpoint encodeURIComponent (s : string) : string :=
  match s with
  | EmptyString => EmptyString
  | String c r =>
      let n := nat_of_ascii c in
      (if unreserved c then String c EmptyString
       else if (n <? 128)%nat then percent n
       else percent (192 + n / 64) ++ percent (128 + n mod 64))
      ++ encodeURIComponent r
  end.

Definition newsapiUrl (topic : string) (maxArticles : Z) (key : string) : string :=
  "https://newsapi.org/v2/everything?q=" ++ encodeURIComponent topic
  ++ "&sortBy=publishedAt&pageSize=" ++ JsNumber.Number_toString maxArticles
  ++ "&apiKey=" ++ key.

Definition gnewsUrl (topic : string) (maxArticles : Z) (key : string) : string :=
  "https://gnews.io/api/v4/search?q=" ++ encodeURIComponent topic
  ++ "&max=" ++ JsNumber.Number_toString maxArticles
  ++ "&apikey=" ++ key.

Definition rssUrl (topic : string) : string :=
  "https://news.google.com/rss/search?q=" ++ encodeURIComponent topic
  ++ "&hl=en-US&gl=US&ceid=US:en".

(** [await response.json()]. *)
Definition response_json (body : string) : Completion json :=
  match JSON_parse body with
  | Some data => Normal data
  | None => Throw SyntaxError
  end.

(** The callback of [data.articles.map] in the NewsAPI branch. *)
Definition newsapiArticle (w : World) (article : json) : Completion NewsArticle :=
  t <- get_property "title" article ;;
  d <- get_property "description" article ;;
  c <- get_property "content" article ;;
  u <- get_property "url" article ;;
  s <- get_property "source" article ;;
  p <- get_property "publishedAt" article ;;
  a <- get_property "author" article ;;
  Normal {| title := or_else t (Val (JStr EmptyString));
            description := or_else d (Val JNull);
            content := or_else c (Val JNull);
            url := or_else u (Val (JStr EmptyString));
            source := or_else (get_optional "name" s) (Val (JStr "Unknown"));
            publishedAt := or_else p (Val (JStr (nowISO w)));
            author := or_else a (Val JNull) |}.

(** The callback of [data.articles.map] in the GNews branch. *)
Definition gnewsArticle (w : World) (article : json) : Completion NewsArticle :=
  t <- get_property "title" article ;;
  d <- get_property "description" article ;;
  c <- get_property "content" article ;;
  u <- get_property "url" article ;;
  s <- get_property "source" article ;;
  p <- get_property "publishedAt" article ;;
  Normal {| title := or_else t (Val (JStr EmptyString));
            description := or_else d (Val JNull);
            content := or_else c (Val JNull);
            url := or_else u (Val (JStr EmptyString));
            source := or_else (get_optional "name" s) (Val (JStr "Unknown"));
            publishedAt := or_else p (Val (JStr (nowISO w)));
            author := Val JNull |}.

(** The body of the first [try]: [None] when it runs to its end without
    returning. *)
Definition tryNewsApi (w : World) (topic : string) (maxArticles : Z)
  (key : string) : Completion (option FetchResult) :=
  body <- fetch w (newsapiUrl topic maxArticles key) ;;
  data <- response_json body ;;
  status <- get_property "status" data ;;
  if is_string "ok" status then
    arr <- get_property "articles" data ;;
    arts <- map_articles (newsapiArticle w) arr ;;
    total <- get_property "totalResults" data ;;
    Normal (Some {| articles := arts; totalResults := total; query := topic |})
  else Normal None.

(** The body of the second [try]. *)
Definition tryGNews (w : World) (topic : string) (maxArticles : Z)
  (key : string) : Completion (option FetchResult) :=
  body <- fetch w (gnewsUrl topic maxArticles key) ;;
  data <- response_json body ;;
  arr <- get_property "articles" data ;;
  if truthy arr then
    arts <- map_articles (gnewsArticle w) arr ;;
    total <- get_property "totalArticles" data ;;
    Normal (Some {| articles := arts;
                    totalResults :=
                      or_else total (Val (JNum (Z.of_nat (length arts))));
                    query := topic |})
  else Normal None.

(** The regular expressions of the feed parser. *)
Definition itemRegex : regex :=
  Seq (Lit "<item>") (Seq (Group 1 (Star false any)) (Lit "</item>")).
Definition titleRegex : regex :=
  Alt (Seq (Lit "<title><![CDATA[")
           (Seq (Group 1 (Star false dot)) (Lit "]]></title>")))
      (Seq (Lit "<title>") (Seq (Group 2 (Star false dot)) (Lit "</title>"))).
Definition linkRegex : regex :=
  Seq (Lit "<link>") (Seq (Group 1 (Star false dot)) (Lit "</link>")).
Definition pubDateRegex : regex :=
  Seq (Lit "<pubDate>") (Seq (Group 1 (Star false dot)) (Lit "</pubDate>")).
Definition sourceRegex : regex :=
  Seq (Lit "<source")
      (Seq (Star true not_gt)
           (Seq (Lit ">") (Seq (Group 1 (Star false dot)) (Lit "</source>")))).

(** [m?.[n] || fallback], on the result of [str.match(re)]. *)
Definition group_or (m : option (string * Captures)) (n : nat)
  (fallback : string) : string :=
  match m with
  | Some (_, caps) =>
      match capture n caps with
      | Some EmptyString => fallback
      | Some text => text
      | None => fallback
      end
  | None => fallback
  end.

(** One pass of the [while] body over an item: the article it pushes, or
    [None] when [title && url] fails. *)
Definition itemArticle (w : World) (itemContent : string) : option NewsArticle :=
  let titleMatch := search titleRegex itemContent in
  let linkMatch := search linkRegex itemContent in
  let pubDateMatch := search pubDateRegex itemContent in
  let sourceMatch := search sourceRegex itemContent in
  let title := group_or titleMatch 1 (group_or titleMatch 2 EmptyString) in
  let url := group_or linkMatch 1 EmptyString in
  let publishedAt := group_or pubDateMatch 1 (nowISO w) in
  let source := group_or sourceMatch 1 "Google News" in
  if negb (String.eqb title EmptyString) && negb (String.eqb url EmptyString)
  then Some {| title := Val (JStr title);
               description := Val JNull;
               content := Val JNull;
               url := Val (JStr url);
               source := Val (JStr source);
               publishedAt := Val (JStr publishedAt);
               author := Val JNull |}
  else None.

(** The [while] loop: [rest] is the input from [itemRegex.lastIndex] on;
    [fuel] bounds the number of passes. *)
Fixpoint rssLoop (fuel : nat) (w : World) (rest : string) (count maxArticles : Z)
  (articles : list NewsArticle) : list NewsArticle :=
  match fuel with
  | O => articles
  | S fuel' =>
      match search itemRegex rest with
      | None => articles
      | Some (rest', caps) =>
          if (count <? maxArticles)%Z then
            let itemContent :=
              match capture 1 caps with Some text => text | None => EmptyString end in
            match itemArticle w itemContent with
            | Some article =>
                rssLoop fuel' w rest' (count + 1)%Z maxArticles
                        (articles ++ [article])%list
            | None => rssLoop fuel' w rest' count maxArticles articles
            end
          else articles
      end
  end.

(** The item blocks of the feed in document order: the first capture of
    each successive match of [itemRegex]. *)
Fixpoint feedItems (fuel : nat) (rest : string) : list string :=
  match fuel with
  | O => []
  | S fuel' =>
      match search itemRegex rest with
      | None => []
      | Some (rest', caps) =>
          match capture 1 caps with Some text => text | None => EmptyString end
          :: feedItems fuel' rest'
      end
  end.

(** Every pass consumes input, so the length of the text bounds their
    number. *)
Definition parseRss (w : World) (xmlText : string) (maxArticles : Z)
  : list NewsArticle :=
  rssLoop (String.length xmlText) w xmlText 0 maxArticles [].

(** The body of the third [try]. *)
Definition tryRss (w : World) (topic : string) (maxArticles : Z)
  : Completion FetchResult :=
  xmlText <- fetch w (rssUrl topic) ;;
  let arts := parseRss w xmlText maxArticles in
  Normal {| articles := arts;
            totalResults := Val (JNum (Z.of_nat (length arts)));
            query := topic |}.

Definition emptyResult (topic : string) : FetchResult :=
  {| articles := []; totalResults := Val (JNum 0); query := topic |}.

(** [execute({ context: { topic, maxArticles } })]: the result, and the
    URLs requested, in order. *)
Definition execute (w : World) (topic : string) (maxArticles : Z)
  : list string * FetchResult :=
  let afterNewsApi :=
    match configured (NEWSAPI_KEY w) with
    | Some newsApiKey =>
        ([newsapiUrl topic maxArticles newsApiKey],
         match tryNewsApi w topic maxArticles newsApiKey with
         | Normal (Some result) => Some result
         | Normal None => None
         | Throw _ => None
         end)
    | None => ([], None)
    end in
  match afterNewsApi with
  | (requested, Some result) => (requested, result)
  | (requested, None) =>
      let afterGNews :=
        match configured (GNEWS_KEY w) with
        | Some gnewsKey =>
            ((requested ++ [gnewsUrl topic maxArticles gnewsKey])%list,
             match tryGNews w topic maxArticles gnewsKey with
             | Normal (Some result) => Some result
             | Normal None => None
             | Throw _ => None
             end)
        | None => (requested, None)
        end in
      match afterGNews with
      | (requested', Some result) => (requested', result)
      | (requested', None) =>
          ((requested' ++ [rssUrl topic])%list,
           match tryRss w topic maxArticles with
           | Normal result => result
           | Throw _ => emptyResult topic
           end)
      end
  end.

(** Text of a feed field: not empty, on one line, without markup. *)
Definition plain_char (c : ascii) : bool :=
  dot c && negb (nat_of_ascii c =? 60)%nat.

Definition plain (s : string) : bool :=
  all_chars plain_char s && negb (String.eqb s EmptyString).

(** A well-formed item block with the title [t] and the link [l]. *)
Definition itemBody (t l : string) : string :=
  "<title>" ++ t ++ "</title><link>" ++ l ++ "</link>".

Definition rssItem (t l : string) : string :=
  "<item>" ++ itemBody t l ++ "</item>".

(** The article the feed parser makes of such an item. *)
Definition plainArticle (w : World) (t l : string) : NewsArticle :=
  {| title := Val (JStr t); description := Val JNull; content := Val JNull;
     url := Val (JStr l); source := Val (JStr "Google News");
     publishedAt := Val (JStr (nowISO w)); author := Val JNull |}.

(** The requests the tool can make, in the order of its three branches:
    one per configured key, then the feed. *)
Definition providerUrls (w : World) (topic : string) (maxArticles : Z)
  : list string :=
  (match configured (NEWSAPI_KEY w) with
   | Some key => [newsapiUrl topic maxArticles key]
   | None => []
   end
   ++ match configured (GNEWS_KEY w) with
      | Some key => [gnewsUrl topic maxArticles key]
      | None => []
      end
   ++ [rssUrl topic])%list.

(** A NewsAPI answer whose [status] is ["ok"] and whose [articles] is an
    array [items] without a [null] entry. *)
Definition newsapiAnswer (w : World) (url : string) (data : json)
  (items : list json) : Prop :=
  (exists body, fetch w url = Normal body /\ JSON_parse body = Some data) /\
  get_property "status" data = Normal (Val (JStr "ok")) /\
  get_property "articles" data = Normal (Val (JArr items)) /\
  List.Forall (fun a => a <> JNull) items.

(** A GNews answer whose [articles] is an array [items] without a [null]
    entry. *)
Definition gnewsAnswer (w : World) (url : string) (data : json)
  (items : list json) : Prop :=
  (exists body, fetch w url = Normal body /\ JSON_parse body = Some data) /\
  get_property "articles" data = Normal (Val (JArr items)) /\
  List.Forall (fun a => a <> JNull) items.

End Tool.
End News.

(** ** Sample worlds for the news tool, with the reference [JSON] *)
Module NewsSamples.
Import Regex News.
Local Open Scope string_scope.
Local Existing Instance MiniJSON.codec.

(** A world with both keys set, whose NewsAPI and GNews answer with the
    given bodies and whose feed is unreachable. *)
Definition twoKeys (bodyA bodyB : string) : World :=
  {| NEWSAPI_KEY := Some "ka";
     GNEWS_KEY := Some "kb";
     fetch := fun url =>
       if String.eqb url (newsapiUrl "ai" 5 "ka") then Normal bodyA
       else if String.eqb url (gnewsUrl "ai" 5 "kb") then Normal bodyB
       else Throw NetworkError;
     nowISO := "2026-11-02T00:00:00.000Z" |}.

Definition errorBody : string :=
  JSON_stringify (JObj [("status", JStr "error"); ("code", JStr "apiKeyInvalid")]).

Definition okWithoutArticles : string :=
  JSON_stringify (JObj [("status", JStr "ok")]).

Definition oneArticle : json :=
  JObj [("title", JStr "T"); ("url", JStr "https://e.example/1");
        ("source", JObj [("name", JStr "S")])].

Definition gnewsBody : string :=
  JSON_stringify (JObj [("totalArticles", JNum 1); ("articles", JArr [oneArticle])]).

Definition noArticles : string :=
  JSON_stringify (JObj [("articles", JArr [])]).

Definition newline : string := String (ascii_of_nat 10) EmptyString.

(** A feed of three items, the second with a CDATA title, the third
    spread over several lines. *)
Definition threeItems : string :=
  "<?xml version='1.0'?><rss><channel><title>ai - Google News</title>"
  ++ "<link>https://news.google.com</link>" ++ newline
  ++ "<item><title>First</title><link>https://e.example/1</link>"
  ++ "<pubDate>Mon, 02 Nov 2026 01:00:00 GMT</pubDate>"
  ++ "<source url='https://a.example'>Agency A</source></item>" ++ newline
  ++ "<item><title><![CDATA[Second]]></title><link>https://e.example/2</link></item>"
  ++ "<item>" ++ newline ++ "<title>Third</title>" ++ newline
  ++ "<link>https://e.example/3</link></item></channel></rss>".

Definition feedWorld : World :=
  mkWorld None None (fun _ => Normal threeItems) "2026-11-02T00:00:00.000Z".

Definition rssArticle (title url source publishedAt : string) : NewsArticle :=
  {| title := Val (JStr title); description := Val JNull; content := Val JNull;
     url := Val (JStr url); source := Val (JStr source);
     publishedAt := Val (JStr publishedAt); author := Val JNull |}.

End NewsSamples.

(** ** The rest of the cache module: [del], [initRedis], [closeRedis],
    [cacheGetOrSet] and [getRetentionHistory] *)
Module CacheOps.
Import Cache Redis.
Local Open Scope string_scope.

(** [del(keys)]: [keys.forEach((k) => store.delete(k))]. *)
Definition del (keys : list string) (store : CacheStore) : CacheStore :=
  foldl (fun m k => delete k m) store keys.

(** [initRedis()]: a fresh in-memory client; [createInMemoryCache] does
    not throw. *)
Definition initRedis (m : Vars CacheStore) : Vars CacheStore :=
  {| redisClient := Some ∅; isConnected := true |}.

(** [closeRedis()]. *)
Definition closeRedis (m : Vars CacheStore) : Vars CacheStore :=
  match redisClient m with
  | Some _ => {| redisClient := None; isConnected := false |}
  | None => m
  end.

Section ReadThrough.
Context {C : Type} `{RedisClient C} `{JSON}.

(** [cacheGetOrSet(key, ttlSeconds, fetchFn)].  [fetchFn i] is how the
    [i]-th call of [fetchFn] completes; the result comes with the number of
    calls made.  [now] is the clock at the [get], [later] at the [setEx].
    Everything after the connection test runs in a [try] whose [catch]
    calls [fetchFn] and returns what it gives. *)
Definition cacheGetOrSet (now later : Z) (key : string) (ttlSeconds : Z)
  (fetchFn : nat -> Completion json) (m : Vars C)
  : Completion json * nat * Vars C :=
  if negb (isRedisConnected m) then (fetchFn 0%nat, 1%nat, m)
  else
    match redisClient m with
    | None => (fetchFn 0%nat, 1%nat, m)
    | Some c =>
        match client_get now key c with
        | (Throw _, c1) => (fetchFn 0%nat, 1%nat, withClient c1 m)
        | (Normal cached, c1) =>
            let miss :=
              match fetchFn 0%nat with
              | Throw _ => (fetchFn 1%nat, 2%nat, withClient c1 m)
              | Normal v =>
                  match client_setEx later key ttlSeconds (JSON_stringify v) c1 with
                  | (Normal _, c2) => (Normal v, 1%nat, withClient c2 m)
                  | (Throw _, c2) => (fetchFn 1%nat, 2%nat, withClient c2 m)
                  end
              end in
            match cached with
            | None => miss
            | Some EmptyString => miss
            | Some text =>
                match JSON_parse text with
                | Some v => (Normal v, 0%nat, withClient c1 m)
                | None => (fetchFn 0%nat, 1%nat, withClient c1 m)
                end
            end
        end
    end.

End ReadThrough.

(** [entries.map((e) => JSON.parse(e))]: throws where one entry does. *)
Fixpoint parse_all `{JSON} (entries : list string) : option (list json) :=
  match entries with
  | [] => Some []
  | e :: rest =>
      match JSON_parse e, parse_all rest with
      | Some j, Some js => Some (j :: js)
      | _, _ => None
      end
  end.

(** [getRetentionHistory()], on the in-memory client that [initRedis]
    installs. *)
Definition getRetentionHistory `{JSON} (m : Vars CacheStore) : list json :=
  if negb (isRedisConnected m) then []
  else
    match redisClient m with
    | None => []
    | Some store =>
        match parse_all (lRange "notifications:cleanup:history" 0 (-1) store) with
        | Some entries => entries
        | None => []
        end
    end.

(** The entry [logRetentionCleanup] appends. *)
Definition cleanupEntry (timestamp : string) (deletedCount : Z) : json :=
  JObj [("timestamp", JStr timestamp); ("deletedCount", JNum deletedCount)].

(** [logRetentionCleanup] for each (timestamp, count) in turn, the [i]-th
    at the clock reading [clock i]. *)
Fixpoint logAll `{JSON} (clock : nat -> Z) (i : nat)
  (runs : list (string * Z)) (m : Vars CacheStore) : Vars CacheStore :=
  match runs with
  | [] => m
  | (timestamp, deletedCount) :: rest =>
      logAll clock (S i) rest
        (logRetentionCleanup (H := inMemory) (clock i) timestamp deletedCount m)
  end.

End CacheOps.

(** ** Further texts and worlds for the news tool *)
Module NewsItems.
Import Regex News.
Local Open Scope string_scope.

(** An item block that carries all four fields the parser reads; [attrs]
    is the text between [<source] and its [>]. *)
Definition fullItemBody (t l p attrs s : string) : string :=
  "<title>" ++ t ++ "</title><link>" ++ l ++ "</link><pubDate>" ++ p
  ++ "</pubDate><source" ++ attrs ++ ">" ++ s ++ "</source>".

(** The characters [encodeURIComponent] writes. *)
Definition uri_safe (c : ascii) : bool := unreserved c || Ascii.eqb c "%".

(** The world [w] without its NewsAPI key. *)
Definition withoutNewsApi `{JSON} (w : World) : World :=
  {| NEWSAPI_KEY := None; GNEWS_KEY := GNEWS_KEY w;
     fetch := fetch w; nowISO := nowISO w |}.

End NewsItems.

(** ** The Memgraph driver ([src/db/memgraph.ts]) *)
Module Memgraph.
Local Open Scope Z_scope.

(** What [initDriver] throws: "Failed to connect to Memgraph after
    [retries] attempts." and "Unable to initialize Memgraph driver." *)
Inductive DriverError :=
| FailedAfter (retries : Z)
| UnableToInitialize.

Section Driver.
Context {Driver : Type}.

(** One pass of the [try] block: [neo4j.driver] throws, or it returns a
    driver whose [getServerInfo] rejects, or one whose [getServerInfo]
    resolves. *)
Inductive Attempt :=
| NoDriver
| NoServer (d : Driver)
| Connected (d : Driver).

Record Connection := mkConnection {
  uri : string;
  username : string;
  password : string
}.

(** The module variables [driver] and [isInitialized], and the drivers
    that have been closed. *)
Record State := mkState {
  driver : option Driver;
  isInitialized : bool;
  closed : list Driver
}.

(** What a call leaves behind besides the state: the number of passes of
    the [try] block and the delays slept, in order. *)
Record Trace := mkTrace {
  attempts : nat;
  slept : list Z
}.

Inductive Result :=
| Returned (d : Driver)
| Thrown (e : DriverError).

(** The [while] loop of [initDriver]; [neo4j c i] is how the pass number
    [i] goes.  [None]: out of fuel. *)
Fixpoint initLoop (fuel : nat) (neo4j : Connection -> nat -> Attempt)
  (c : Connection) (retries delay : Z) (attempt : Z) (st : State) (tr : Trace)
  : option (Result * State * Trace) :=
  if attempt <? retries then
    match fuel with
    | O => None
    | S fuel' =>
        let tr1 := {| attempts := S (attempts tr); slept := slept tr |} in
        let failed (st1 : State) :=
          let attempt1 := attempt + 1 in
          if attempt1 <? retries then
            initLoop fuel' neo4j c retries delay attempt1 st1
              {| attempts := attempts tr1; slept := slept tr1 ++ [delay] |}
          else Some (Thrown (FailedAfter retries), st1, tr1) in
        match neo4j c (Z.to_nat attempt) with
        | Connected d =>
            Some (Returned d,
                  {| driver := Some d; isInitialized := true; closed := closed st |},
                  tr1)
        | NoServer d =>
            failed {| driver := Some d; isInitialized := isInitialized st;
                      closed := closed st |}
        | NoDriver => failed st
        end
    end
  else Some (Thrown UnableToInitialize, st, tr).

(** [initDriver(uri, username, password, retries, delay)]; the loop makes
    at most [retries] passes. *)
Definition initDriver (neo4j : Connection -> nat -> Attempt) (c : Connection)
  (retries delay : Z) (st : State) : option (Result * State * Trace) :=
  initLoop (Z.to_nat retries) neo4j c retries delay 0 st
           {| attempts := 0; slept := [] |}.

(** [process.env]: the four variables read. *)
Record Env := mkEnv {
  MEMGRAPH_URI : option string;
  MEMGRAPH_USER : option string;
  MEMGRAPH_USERNAME : option string;
  MEMGRAPH_PASSWORD : option string
}.

(** [a || b] on an environment variable: unset and empty both give [b]. *)
Definition or_default (a : option string) (b : string) : string :=
  match a with
  | Some EmptyString => b
  | Some text => text
  | None => b
  end.

(** The three constants of [initMemgraph]. *)
Definition envConnection (env : Env) : Connection :=
  {| uri := or_default (MEMGRAPH_URI env) "bolt://localhost:7687";
     username := or_default (MEMGRAPH_USER env)
                   (or_default (MEMGRAPH_USERNAME env) EmptyString);
     password := or_default (MEMGRAPH_PASSWORD env) EmptyString |}.

(** [initMemgraph()]: [initDriver] with its default [retries] and
    [delay]. *)
Definition initMemgraph (neo4j : Connection -> nat -> Attempt) (env : Env)
  (st : State) : option (Result * State * Trace) :=
  initDriver neo4j (envConnection env) 5 2000 st.

Definition isDriverInitialized (st : State) : bool := isInitialized st.

(** What [ensureInitialized] and [getDriver] hand out: the variable
    [driver], which is [undefined] until a driver has been created. *)
Definition getDriver (st : State) : option Driver := driver st.

(** [ensureInitialized()]: the value handed out, or what [initMemgraph]
    threw. *)
Definition ensureInitialized (neo4j : Connection -> nat -> Attempt) (env : Env)
  (st : State) : option ((DriverError + option Driver) * State * Trace) :=
  if negb (isInitialized st) then
    match initMemgraph neo4j env st with
    | Some (Returned _, st1, tr) => Some (inr (driver st1), st1, tr)
    | Some (Thrown e, st1, tr) => Some (inl e, st1, tr)
    | None => None
    end
  else Some (inr (driver st), st, {| attempts := 0; slept := [] |}).

(** [closeDriver()]. *)
Definition closeDriver (st : State) : State :=
  match driver st with
  | Some d => {| driver := driver st; isInitialized := isInitialized st;
                 closed := closed st ++ [d] |}
  | None => st
  end.

(** A pass that does not connect. *)
Definition fails (a : Attempt) : Prop :=
  match a with Connected _ => False | _ => True end.

(** The variables after a failed pass: a driver whose [getServerInfo]
    rejected stays in [driver]. *)
Definition afterFailure (a : Attempt) (st : State) : State :=
  match a with
  | NoServer d => {| driver := Some d; isInitialized := isInitialized st;
                     closed := closed st |}
  | _ => st
  end.

(** The variables after the passes [from], ..., [from + n - 1] have
    failed. *)
Fixpoint afterFailures (neo4j : Connection -> nat -> Attempt) (c : Connection)
  (from n : nat) (st : State) : State :=
  match n with
  | O => st
  | S n' => afterFailures neo4j c (S from) n' (afterFailure (neo4j c from) st)
  end.

End Driver.
Arguments Attempt : clear implicits.
Arguments State : clear implicits.
Arguments Result : clear implicits.
End Memgraph.

(** ** Sample servers for the Memgraph driver *)
Module MemgraphSamples.
Import Memgraph.

(** A server that comes up at the third pass; the driver of pass [i] is
    [i]. *)
Definition upAtThird (c : Connection) (i : nat) : Attempt nat :=
  if (i <? 2)%nat then NoServer i else Connected i.

(** A server that is down. *)
Definition down (c : Connection) (i : nat) : Attempt nat := NoServer i.

Definition noEnv : Env := mkEnv None None None None.

Definition fresh : State nat :=
  {| driver := None; isInitialized := false; closed := [] |}.

End MemgraphSamples.

(** ** The dispatch service ([generateDailyDispatch]) *)
Module Dispatch.
Local Open Scope string_scope.

Inductive OutputFormat := summary | article | structured.

Inductive Agent := newsSummarizerAgent | newsArticleWriterAgent.

(** What a [try] block catches: an [Error] with its message, or another
    value. *)
Inductive Caught :=
| ErrorObject (message : string)
| OtherValue.

Record DispatchConfig := mkConfig {
  topics : list string;
  outputFormat : OutputFormat
}.

Record DispatchResult := mkDispatchResult {
  topic : string;
  content : string;
  generatedAt : Z;
  success : bool;
  error : option string
}.

(** The prompt and the agent of one topic. *)
Definition request (format : OutputFormat) (topic : string) : Agent * string :=
  match format with
  | summary =>
      (newsSummarizerAgent,
       "Give me a summary of the latest news about: " ++ topic)
  | _ =>
      (newsArticleWriterAgent,
       "Write a comprehensive article about the latest developments in: " ++ topic)
  end.

(** One pass of the [for] loop: [generate i agent prompt] is what
    [mastra.getAgent(agent).generate(prompt)] gives in the pass number [i],
    the text or the value thrown; [clock i] is the [new Date()] of that
    pass. *)
Definition dispatchOne (generate : nat -> Agent -> string -> Caught + string)
  (clock : nat -> Z) (format : OutputFormat) (i : nat) (topic : string)
  : DispatchResult :=
  let '(agent, prompt) := request format topic in
  match generate i agent prompt with
  | inr text =>
      {| topic := topic; content := text; generatedAt := clock i;
         success := true; error := None |}
  | inl caught =>
      {| topic := topic; content := EmptyString; generatedAt := clock i;
         success := false;
         error := Some (match caught with
                        | ErrorObject message => message
                        | OtherValue => "Unknown error"
                        end) |}
  end.

Fixpoint dispatchLoop (generate : nat -> Agent -> string -> Caught + string)
  (clock : nat -> Z) (format : OutputFormat) (i : nat) (rest : list string)
  (results : list DispatchResult) : list DispatchResult :=
  match rest with
  | [] => results
  | topic :: rest' =>
      dispatchLoop generate clock format (S i) rest'
        (results ++ [dispatchOne generate clock format i topic])
  end.

Definition generateDailyDispatch
  (generate : nat -> Agent -> string -> Caught + string) (clock : nat -> Z)
  (config : DispatchConfig) : list DispatchResult :=
  dispatchLoop generate clock (outputFormat config) 0 (topics config) [].

End Dispatch.

(** ** The query of [getLessons] ([lesson.repository.ts]) *)
Module LessonQuery.
Local Open Scope string_scope.

Record LessonSearchParams := mkParams {
  category : option string;
  topic : option string;
  startDate : option string;
  endDate : option string;
  limit : option Z;
  offset : option Z
}.

(** A value bound to a query parameter. *)
Inductive ParamValue :=
| PStr (s : string)
| PNum (n : Z).

(** [if (v)] on an optional string: set and not empty. *)
Definition present (v : option string) : option string :=
  match v with
  | Some EmptyString => None
  | Some s => Some s
  | None => None
  end.

(** [conditions.join(sep)]. *)
Fixpoint join (sep : string) (parts : list string) : string :=
  match parts with
  | [] => EmptyString
  | [p] => p
  | p :: rest => p ++ sep ++ join sep rest
  end.

(** One [if (v) { conditions.push(condition); queryParams[name] = v; }]. *)
Definition addFilter (v : option string) (condition name : string)
  (acc : list string * gmap string ParamValue)
  : list string * gmap string ParamValue :=
  match present v with
  | Some s => ((acc.1 ++ [condition])%list, <[name := PStr s]> acc.2)
  | None => acc
  end.

Definition lf : string := String (ascii_of_nat 10) EmptyString.

(** The text and the parameters that [getLessons] hands to
    [session.run]. *)
Definition getLessonsQuery (params : LessonSearchParams)
  : string * gmap string ParamValue :=
  let limit := match limit params with Some n => n | None => 20%Z end in
  let offset := match offset params with Some n => n | None => 0%Z end in
  let queryParams : gmap string ParamValue :=
    <["offset" := PNum offset]> (<["limit" := PNum limit]> ∅) in
  let built :=
    addFilter (endDate params) "a.createdAt <= $endDate" "endDate"
      (addFilter (startDate params) "a.createdAt >= $startDate" "startDate"
         (addFilter (topic params) "a.topic CONTAINS $topic" "topic"
            (addFilter (category params) "a.category = $category" "category"
               ([], queryParams)))) in
  let conditions := built.1 in
  let whereClause :=
    match conditions with
    | [] => EmptyString
    | _ :: _ => "WHERE " ++ join " AND " conditions
    end in
  (lf ++ "      MATCH (a:DispatchArticle)" ++ lf
   ++ "      " ++ whereClause ++ lf
   ++ "      RETURN a" ++ lf
   ++ "      ORDER BY a.createdAt DESC" ++ lf
   ++ "      SKIP $offset" ++ lf
   ++ "      LIMIT $limit" ++ lf
   ++ "      ",
   built.2).

Definition isSome {A : Type} (o : option A) : bool :=
  match o with Some _ => true | None => false end.

(** The text [word] occurs in [text]. *)
Definition occurs (word text : string) : bool :=
  match Regex.search (Regex.Lit word) text with
  | Some _ => true
  | None => false
  end.

End LessonQuery.

(** ** The article tool ([fetchArticleContentTool.execute]) *)
Module Article.
Import Regex JsNumber Dispatch.
Local Open Scope string_scope.

(** The canonical form of a character under the [i] flag, for the
    comparison with a character of a pattern; the patterns below hold
    ASCII characters only, and a character from 128 on is never canonically
    equal to one of those. *)
Definition upper (c : ascii) : ascii :=
  let n := nat_of_ascii c in
  if ((97 <=? n) && (n <=? 122))%nat then ascii_of_nat (n - 32) else c.

Fixpoint strip_prefix_i (word s : string) : option string :=
  match word, s with
  | EmptyString, _ => Some s
  | String a word', String b s' =>
      if Ascii.eqb (upper a) (upper b) then strip_prefix_i word' s' else None
  | String _ _, EmptyString => None
  end.

(** The shapes of the regular expressions of the tool; they have at most
    one capturing group. *)
Inductive pattern :=
| ILit (text : string)
| Many (greedy : bool) (class : ascii -> bool)
| Some1 (class : ascii -> bool)
| Cap (r : pattern)
| Cat (r1 r2 : pattern).

Section Matcher.
Context {R : Type}.

Fixpoint exec (r : pattern) (s : string) (cap : option string)
  (k : string -> option string -> option R) : option R :=
  match r with
  | ILit text =>
      match strip_prefix_i text s with
      | Some s' => k s' cap
      | None => None
      end
  | Many true class => star_greedy class s (fun s' => k s' cap)
  | Many false class => star_lazy class s (fun s' => k s' cap)
  | Some1 class =>
      match s with
      | String c rest =>
          if class c then star_greedy class rest (fun s' => k s' cap) else None
      | EmptyString => None
      end
  | Cap r1 => exec r1 s cap (fun s' _ => k s' (Some (consumed s s')))
  | Cat r1 r2 => exec r1 s cap (fun s' cap' => exec r2 s' cap' k)
  end.

End Matcher.

(** The leftmost match in [s]: the text before it, the text after it and
    the capture. *)
Fixpoint find (r : pattern) (s : string)
  : option (string * string * option string) :=
  match exec r s None (fun s' cap => Some (s', cap)) with
  | Some (s', cap) => Some (EmptyString, s', cap)
  | None =>
      match s with
      | String c rest =>
          match find r rest with
          | Some (pre, s', cap) => Some (String c pre, s', cap)
          | None => None
          end
      | EmptyString => None
      end
  end.

(** [s.replace(r, repl)] for a global [r] that matches no empty text:
    each search starts where the match before it ended.  [fuel] bounds the
    number of matches. *)
Fixpoint replace_all (fuel : nat) (r : pattern) (repl s : string) : string :=
  match fuel with
  | O => s
  | S fuel' =>
      match find r s with
      | None => s
      | Some (pre, rest, _) => pre ++ repl ++ replace_all fuel' r repl rest
      end
  end.

Definition replace (r : pattern) (repl s : string) : string :=
  replace_all (String.length s) r repl s.

(** [<tag[^>]*>[\s\S]*?</tag>]. *)
Definition blockRegex (tag : string) : pattern :=
  Cat (ILit ("<" ++ tag))
      (Cat (Many true not_gt)
           (Cat (ILit ">") (Cat (Many false any) (ILit ("</" ++ tag ++ ">"))))).

Definition titleRegex : pattern :=
  Cat (ILit "<title")
      (Cat (Many true not_gt)
           (Cat (ILit ">") (Cat (Cap (Many false dot)) (ILit "</title>")))).

Definition articleRegex : pattern :=
  Cat (ILit "<article")
      (Cat (Many true not_gt)
           (Cat (ILit ">") (Cat (Cap (Many false any)) (ILit "</article>")))).

(** [<[^>]+>]. *)
Definition tagRegex : pattern :=
  Cat (ILit "<") (Cat (Some1 not_gt) (ILit ">")).

(** [\s+]. *)
Definition spaceRegex : pattern := Some1 is_space.

Fixpoint trim_end (s : string) : string :=
  match s with
  | EmptyString => EmptyString
  | String c rest =>
      match trim_end rest with
      | EmptyString => if is_space c then EmptyString else String c EmptyString
      | rest' => String c rest'
      end
  end.

(** [s.trim()]. *)
Definition trim (s : string) : string := trim_end (trim_start s).

(** [m?.[1]] of a match. *)
Definition group1 (m : option (string * string * option string)) : option string :=
  match m with
  | Some (_, _, cap) => cap
  | None => None
  end.

Record ArticleContent := mkContent {
  title : string;
  content : string;
  url : string;
  success : bool;
  error : option string
}.

(** [execute({ context: { url } })]; [fetch url] is the text of the
    response, or what the request or the reading of the body threw. *)
Definition execute (fetch : string -> Caught + string) (url : string)
  : ArticleContent :=
  match fetch url with
  | inr html =>
      let title :=
        match group1 (find titleRegex html) with
        | Some (String c t) => String c t
        | _ => EmptyString
        end in
      let content :=
        replace (blockRegex "aside") EmptyString
          (replace (blockRegex "footer") EmptyString
             (replace (blockRegex "header") EmptyString
                (replace (blockRegex "nav") EmptyString
                   (replace (blockRegex "style") EmptyString
                      (replace (blockRegex "script") EmptyString html))))) in
      let content :=
        match group1 (find articleRegex content) with
        | Some (String c t) => String c t
        | _ => content
        end in
      let content :=
        take_chars 5000
          (trim (replace spaceRegex " " (replace tagRegex " " content))) in
      {| title := title; content := content; url := url; success := true;
         error := None |}
  | inl caught =>
      {| title := EmptyString; content := EmptyString; url := url;
         success := false;
         error := Some (match caught with
                        | ErrorObject message => message
                        | OtherValue => "Failed to fetch article"
                        end) |}
  end.

(** No white space but single spaces, and no two of them in a row. *)
Fixpoint single_spaced (s : string) : bool :=
  match s with
  | EmptyString => true
  | String c rest =>
      (negb (is_space c) || Ascii.eqb c " ")
      && match rest with
         | String c' _ => negb (is_space c && is_space c')
         | EmptyString => true
         end
      && single_spaced rest
  end.

Definition no_space (c : ascii) : bool := negb (is_space c).

(** The text is empty or starts with a character that is not white
    space. *)
Definition solid_start (s : string) : bool :=
  match s with
  | EmptyString => true
  | String c _ => negb (is_space c)
  end.

End Article.

(* ===================================================================== *)
(** * Part II: the properties                                             *)
(* ===================================================================== *)

Section DateFacts.
Import JsDate.
Local Open Scope Z_scope.

Lemma leap_days_nonneg (m : Z) :
  0 <= m -> 0 <= (m + 1) / 4 - (m + 69) / 100 + (m + 369) / 400 <= m.
Proof. intros. Z.div_mod_to_equations. lia. Qed.

Lemma leap_days_nonpos (m : Z) :
  m <= 0 -> m <= (m + 1) / 4 - (m + 69) / 100 + (m + 369) / 400 <= 0.
Proof. intros. Z.div_mod_to_equations. lia. Qed.

Lemma DayFromYear_shape (y : Z) :
  DayFromYear y =
  365 * (y - 1970)
  + ((y - 1970 + 1) / 4 - (y - 1970 + 69) / 100 + (y - 1970 + 369) / 400).
Proof.
  unfold DayFromYear.
  replace (y - 1969) with (y - 1970 + 1) by lia.
  replace (y - 1901) with (y - 1970 + 69) by lia.
  replace (y - 1601) with (y - 1970 + 369) by lia.
  lia.
Qed.

Lemma DayFromYear_step (y : Z) :
  DayFromYear (y + 1) = DayFromYear y + DaysInYear y.
Proof.
  unfold DayFromYear, DaysInYear, isLeap.
  repeat match goal with
         | |- context [?a =? ?b] => destruct (Z.eqb_spec a b); simpl
         end; Z.div_mod_to_equations; lia.
Qed.

Lemma DaysInYear_range (y : Z) : 365 <= DaysInYear y <= 366.
Proof. unfold DaysInYear. destruct (isLeap y); lia. Qed.

Lemma DayFromYear_mono (y1 y2 : Z) :
  y1 <= y2 -> DayFromYear y1 <= DayFromYear y2.
Proof.
  intros H. replace y2 with (y1 + Z.of_nat (Z.to_nat (y2 - y1))) by lia.
  induction (Z.to_nat (y2 - y1)) as [|n IH].
  - replace (y1 + Z.of_nat 0) with y1 by lia. lia.
  - replace (y1 + Z.of_nat (S n)) with (y1 + Z.of_nat n + 1) by lia.
    rewrite DayFromYear_step.
    pose proof (DaysInYear_range (y1 + Z.of_nat n)). lia.
Qed.

Lemma year_down_spec (fuel : nat) :
  forall y day,
    DayFromYear (y - Z.of_nat fuel) <= day ->
    day < DayFromYear (y + 1) ->
    DayFromYear (year_down fuel y day) <= day
    < DayFromYear (year_down fuel y day + 1).
Proof.
  induction fuel as [|f IH]; intros y day Hlo Hhi; simpl year_down.
  - replace (y - Z.of_nat 0) with y in Hlo by lia. lia.
  - destruct (Z.leb_spec (DayFromYear y) day) as [Hle|Hgt]; [lia|].
    apply IH.
    + replace (y - 1 - Z.of_nat f) with (y - Z.of_nat (S f)) by lia. exact Hlo.
    + replace (y - 1 + 1) with y by lia. exact Hgt.
Qed.

Lemma year_lo_below (day : Z) : DayFromYear (year_lo day) <= day.
Proof.
  unfold year_lo. rewrite DayFromYear_shape.
  destruct (Z.leb_spec 0 day) as [Hd|Hd].
  - pose proof (leap_days_nonneg (1970 + day / 366 - 1970)) as L.
    assert (0 <= day / 366) by (apply Z.div_pos; lia).
    assert (366 * (day / 366) <= day) by (apply Z.mul_div_le; lia).
    lia.
  - pose proof (leap_days_nonpos (1970 + day / 365 - 1970)) as L.
    assert (day / 365 < 0) by (apply Z.div_lt_upper_bound; lia).
    assert (365 * (day / 365) <= day) by (apply Z.mul_div_le; lia).
    lia.
Qed.

Lemma year_hi_above (day : Z) : day < DayFromYear (year_hi day + 1).
Proof.
  unfold year_hi. rewrite DayFromYear_shape.
  destruct (Z.leb_spec 0 day) as [Hd|Hd].
  - pose proof (leap_days_nonneg (1970 + day / 365 + 1 - 1970)) as L.
    assert (0 <= day / 365) by (apply Z.div_pos; lia).
    assert (day < 365 * (day / 365 + 1)) by (Z.div_mod_to_equations; lia).
    lia.
  - pose proof (leap_days_nonpos (1970 + day / 366 + 1 - 1970)) as L.
    assert (day / 366 < 0) by (apply Z.div_lt_upper_bound; lia).
    assert (day < 366 * (day / 366 + 1)) by (Z.div_mod_to_equations; lia).
    lia.
Qed.

Lemma year_lo_le_hi (day : Z) : year_lo day <= year_hi day.
Proof.
  unfold year_lo, year_hi.
  destruct (Z.leb_spec 0 day); Z.div_mod_to_equations; lia.
Qed.

(** [YearFromTime] meets its defining property: it is the year whose
    first day is at or before the day of [t], the next year's after it. *)
Lemma YearFromDay_spec (day : Z) :
  DayFromYear (YearFromDay day) <= day < DayFromYear (YearFromDay day + 1).
Proof.
  unfold YearFromDay. apply year_down_spec.
  - pose proof (year_lo_le_hi day). pose proof (year_lo_below day).
    replace (year_hi day - Z.of_nat (Z.to_nat (year_hi day - year_lo day)))
      with (year_lo day) by lia.
    assumption.
  - apply year_hi_above.
Qed.

Lemma YearFromDay_largest (day y : Z) :
  DayFromYear y <= day -> y <= YearFromDay day.
Proof.
  intros H. destruct (Z.le_gt_cases y (YearFromDay day)) as [|Hgt]; [assumption|].
  pose proof (YearFromDay_spec day) as [_ Hup].
  pose proof (DayFromYear_mono (YearFromDay day + 1) y ltac:(lia)). lia.
Qed.

Lemma YearFromTime_epoch (t : Z) : 0 <= t -> 1970 <= YearFromTime t.
Proof.
  intros Ht. unfold YearFromTime. apply YearFromDay_largest.
  assert (0 <= Day t) by (unfold Day, msPerDay; apply Z.div_pos; lia).
  change (DayFromYear 1970) with 0. assumption.
Qed.

Lemma monthOfDay_range (leap : bool) (d : Z) : 0 <= monthOfDay leap d <= 11.
Proof.
  unfold monthOfDay.
  repeat match goal with
         | |- context [?a <? ?b] => destruct (a <? b)
         end; lia.
Qed.

(** The calendar components of a time value name its day: [MakeDay] of
    the year, month and date of [t], the date moved by [k], is the day of
    [t] moved by [k]. *)
Lemma MakeDay_components (t k : Z) :
  MakeDay (YearFromTime t) (MonthFromTime t) (DateFromTime t + k) = Day t + k.
Proof.
  unfold MakeDay, DateFromTime, DayWithinYear, InLeapYear.
  pose proof (monthOfDay_range (isLeap (YearFromTime t))
                (Day t - DayFromYear (YearFromTime t))) as Hm.
  fold (DayWithinYear t) in *. fold (InLeapYear t) in *.
  fold (MonthFromTime t) in *.
  rewrite (Z.div_small (MonthFromTime t) 12) by lia.
  rewrite (Z.mod_small (MonthFromTime t) 12) by lia.
  rewrite Z.add_0_r. unfold InLeapYear, DayWithinYear. lia.
Qed.

Lemma Date_UTC_components (t k h m : Z) :
  0 <= t ->
  Date_UTC (YearFromTime t) (MonthFromTime t) (DateFromTime t + k) h m 0 0
  = TimeClip ((Day t + k) * msPerDay + MakeTime h m 0 0).
Proof.
  intros Ht. unfold Date_UTC.
  pose proof (YearFromTime_epoch t Ht) as Hy.
  replace ((0 <=? YearFromTime t) && (YearFromTime t <=? 99)) with false
    by (symmetry; apply andb_false_iff; right; apply Z.leb_gt; lia).
  rewrite MakeDay_components. reflexivity.
Qed.

Lemma TimeClip_in_range (t : Z) :
  - maxTime <= t <= maxTime -> TimeClip t = Some t.
Proof.
  intros H. unfold TimeClip.
  destruct (Z.leb_spec (Z.abs t) maxTime); [reflexivity | lia].
Qed.

Lemma Day_of_day_start (d r : Z) :
  0 <= r < msPerDay -> Day (d * msPerDay + r) = d.
Proof.
  intros H. unfold Day, msPerDay in *. Z.div_mod_to_equations. lia.
Qed.

Lemma TimeWithinDay_of_day_start (d r : Z) :
  0 <= r < msPerDay -> TimeWithinDay (d * msPerDay + r) = r.
Proof.
  intros H. unfold TimeWithinDay, msPerDay in *. Z.div_mod_to_equations. lia.
Qed.

Lemma time_split (t : Z) :
  t = Day t * msPerDay + TimeWithinDay t /\ 0 <= TimeWithinDay t < msPerDay.
Proof.
  unfold Day, TimeWithinDay, msPerDay. Z.div_mod_to_equations. lia.
Qed.

Lemma HourFromTime_TimeWithinDay (t : Z) :
  HourFromTime t = TimeWithinDay t / msPerHour.
Proof.
  unfold HourFromTime, TimeWithinDay, msPerHour, msPerDay.
  Z.div_mod_to_equations. lia.
Qed.

Lemma hour_at_or_past (t h : Z) :
  0 <= h -> (h <= HourFromTime t <-> h * msPerHour <= TimeWithinDay t).
Proof.
  intros Hh. rewrite HourFromTime_TimeWithinDay.
  unfold msPerHour. Z.div_mod_to_equations. lia.
Qed.

End DateFacts.

Section NextRun.
Import JsDate Scheduler.
Local Open Scope Z_scope.

(** The guard of [getMillisecondsUntilNextRun] is the test "the local time
    of day is at or past 03:00". *)
Lemma past_trigger_guard (t : Z) :
  (SCHEDULED_HOUR <=? HourFromTime t)
  || ((HourFromTime t =? SCHEDULED_HOUR) && (SCHEDULED_MINUTE <=? MinFromTime t))
  = (SCHEDULED_HOUR * msPerHour <=? TimeWithinDay t).
Proof.
  pose proof (hour_at_or_past t SCHEDULED_HOUR ltac:(unfold SCHEDULED_HOUR; lia)) as H.
  destruct (Z.leb_spec SCHEDULED_HOUR (HourFromTime t)) as [Hge|Hlt];
    destruct (Z.leb_spec (SCHEDULED_HOUR * msPerHour) (TimeWithinDay t)) as [Hw|Hw];
    simpl; try reflexivity; try (exfalso; lia).
  destruct (Z.eqb_spec (HourFromTime t) SCHEDULED_HOUR); [lia | reflexivity].
Qed.



End NextRun.

Section SchedulerFacts.
Import JsDate Scheduler.

Lemma scheduleNextRun_arms (now : Z) (s : State) :
  schedulerTimeout (scheduleNextRun now s) = Some (nextHandle s) /\
  armed (nextHandle s) (scheduleNextRun now s) = true /\
  In (mkTimer (nextHandle s) (getMillisecondsUntilNextRun now))
     (timers (scheduleNextRun now s)).
Proof.
  unfold armed, scheduleNextRun; cbn [schedulerTimeout timers].
  split; [reflexivity|]. split.
  - rewrite existsb_app. cbn. rewrite Nat.eqb_refl. apply orb_true_r.
  - apply in_or_app. right. left. reflexivity.
Qed.

Lemma scheduleNextRun_alive (now : Z) (s : State) :
  timers (scheduleNextRun now s) <> [].
Proof.
  unfold scheduleNextRun; cbn [timers].
  destruct (timers s); discriminate.
Qed.

(** On every reachable state the flag [isRunning] is set exactly while one
    callback waits for its job. *)
Lemma running_iff_job (s : State) :
  reachable s -> jobs s = if isRunning s then 1%nat else 0%nat.
Proof.
  induction 1 as [|s e s' Hr IH Hstep]; [reflexivity|].
  inversion Hstep; subst; clear Hstep.
  - exact IH.
  - unfold stopScheduler. destruct (schedulerTimeout s); exact IH.
  - unfold fire; cbn. destruct (isRunning s); cbn; [exact IH | now rewrite IH].
  - cbn. destruct (isRunning s); rewrite IH in *; [reflexivity | lia].
Qed.

Lemma fire_running (h : nat) (s : State) : isRunning (fire h s) = true.
Proof. unfold fire; cbn. destruct (isRunning s) eqn:E; cbn; auto. Qed.

Lemma step_to_Idle (s s' : State) (e : Event) :
  step s e s' -> phase s' = Idle -> e = EStop.
Proof.
  intros Hstep Hidle. inversion Hstep; subst; clear Hstep; try reflexivity;
    exfalso; revert Hidle; unfold phase.
  - cbn. destruct (isRunning s); [discriminate|].
    destruct (timers s); discriminate.
  - rewrite fire_running. discriminate.
  - cbn. destruct (timers s); discriminate.
Qed.

Lemma step_keeps_alive (s s' : State) (e : Event) :
  reachable s -> step s e s' -> e <> EStop -> alive s -> alive s'.
Proof.
  intros Hr Hstep Hne Halive.
  inversion Hstep; subst; clear Hstep.
  - left. apply scheduleNextRun_alive.
  - congruence.
  - right. pose proof (running_iff_job s Hr) as Hj.
    unfold fire; cbn. destruct (isRunning s); cbn; lia.
  - left. apply scheduleNextRun_alive.
Qed.

(** C5: on every reachable state of the scheduler, (1) a timer that fires
    while the guard admits the run sets [isRunning] and starts the job;
    (2) when the job settles, resolved or rejected alike, [isRunning] is
    cleared and a fresh timer is armed with the recomputed delay, so the
    scheduler is then Armed; (3) no step other than [stopScheduler] takes a
    scheduler that has a pending timer or a job in flight to one that has
    neither; (4) the only step into Idle is [stopScheduler]. *)
Theorem scheduler_rearms_after_every_run (s : State) :
  reachable s ->
  (forall h, armed h s = true -> isRunning s = false ->
     isRunning (fire h s) = true /\ jobs (fire h s) = 1%nat /\
     phase (fire h s) = Running) /\
  (forall o now, (0 < jobs s)%nat ->
     isRunning (settle o now s) = false /\
     schedulerTimeout (settle o now s) = Some (nextHandle s) /\
     In (mkTimer (nextHandle s) (getMillisecondsUntilNextRun now))
        (timers (settle o now s)) /\
     phase (settle o now s) = Armed) /\
  (forall e s', step s e s' -> e <> EStop -> alive s -> alive s') /\
  (forall e s', step s e s' -> phase s' = Idle -> e = EStop).
Proof.
  intros Hr. pose proof (running_iff_job s Hr) as Hj.
  split; [|split; [|split]].
  - intros h Harmed Hoff. unfold phase, fire; cbn.
    rewrite Hoff in *. cbn. rewrite Hj. auto.
  - intros o now Hjobs. unfold phase, settle. cbn.
    repeat split.
    + apply in_or_app. right. left. reflexivity.
    + destruct (timers s); reflexivity.
  - intros e s'. apply step_keeps_alive. exact Hr.
  - intros e s'. apply step_to_Idle.
Qed.

(** A run of the scheduler: started, its timer fires, the job fails. *)
Lemma scheduler_rearms_after_every_run_witness :
  phase (settle Rejected 1793646000000
           (fire 0 (startScheduler 1793577600000 initial))) = Armed /\
  In (mkTimer 1 (Some 86400000%Z))
     (timers (settle Rejected 1793646000000
                (fire 0 (startScheduler 1793577600000 initial)))).
Proof.
  assert (Hr : reachable (fire 0 (startScheduler 1793577600000 initial))).
  { eapply reach_step; [eapply reach_step; [apply reach_initial|]|].
    - apply (step_start initial 1793577600000).
    - apply step_fire. reflexivity. }
  destruct (scheduler_rearms_after_every_run _ Hr) as (_ & Hsettle & _).
  destruct (Hsettle Rejected 1793646000000%Z) as (_ & _ & Hin & Hph).
  - cbn. lia.
  - split; [exact Hph | exact Hin].
Defined.

End SchedulerFacts.

Section MiniJSONFacts.
Import MiniJSON.
Local Open Scope string_scope.
Local Arguments String.append !_ _ / : simpl nomatch.

Lemma string_app_assoc (a b c : string) : (a ++ b) ++ c = a ++ (b ++ c).
Proof. induction a as [|x a IH]; [reflexivity | cbn; now rewrite IH]. Qed.

Lemma string_app_length (a b : string) :
  String.length (a ++ b) = (String.length a + String.length b)%nat.
Proof. induction a as [|x a IH]; [reflexivity | cbn; now rewrite IH]. Qed.

Lemma parse_escape_char (c : ascii) (rest : string) :
  parse_chars (escape_char c ++ rest) = push_char c (parse_chars rest).
Proof.
  destruct c as [[|] [|] [|] [|] [|] [|] [|] [|]]; reflexivity.
Qed.

Lemma parse_escape (s rest : string) :
  parse_chars (escape s ++ String (ascii_of_nat 34) rest) = Some (s, rest).
Proof.
  induction s as [|c s IH]; [reflexivity|].
  cbn [escape]. rewrite string_app_assoc, parse_escape_char, IH. reflexivity.
Qed.

Lemma parse_quote (s rest : string) :
  exists body, quote s ++ rest = String (ascii_of_nat 34) body /\
               parse_chars body = Some (s, rest).
Proof.
  exists (escape s ++ String (ascii_of_nat 34) rest). split.
  - unfold quote. cbn. now rewrite string_app_assoc.
  - apply parse_escape.
Qed.

Lemma span_digits_uint (u : Decimal.uint) (rest : string) :
  no_digit_head rest ->
  span_digits (NilEmpty.string_of_uint u ++ rest)
  = (NilEmpty.string_of_uint u, rest).
Proof.
  intros Hrest.
  induction u as [|u IH|u IH|u IH|u IH|u IH|u IH|u IH|u IH|u IH|u IH];
    cbn; try (rewrite IH; reflexivity).
  destruct rest as [|c r]; [reflexivity|]. cbn in *. now rewrite Hrest.
Qed.

Lemma nzhead_no_zero (d u : Decimal.uint) : Decimal.nzhead d <> Decimal.D0 u.
Proof. induction d; cbn; try discriminate; assumption. Qed.

Lemma to_uint_no_leading_zero (p : positive) (u : Decimal.uint) :
  Pos.to_uint p <> Decimal.D0 u.
Proof.
  intros H.
  pose proof (DecimalPos.Unsigned.to_of (Pos.to_uint p)) as Hn.
  rewrite DecimalPos.Unsigned.of_to in Hn. cbn in Hn.
  rewrite H in Hn at 1.
  unfold Decimal.unorm in Hn.
  destruct (Decimal.nzhead (Pos.to_uint p)) eqn:E; try discriminate.
  - injection Hn as ->. exact (Unsigned.to_uint_nonzero p H).
  - exact (nzhead_no_zero _ _ E).
Qed.

Lemma parse_digits_uint (u : Decimal.uint) (rest : string) :
  u <> Decimal.Nil ->
  (forall u', u = Decimal.D0 u' -> u' = Decimal.Nil) ->
  no_digit_head rest ->
  parse_digits (NilEmpty.string_of_uint u ++ rest) = Some (u, rest).
Proof.
  intros Hnil Hzero Hrest. unfold parse_digits.
  rewrite span_digits_uint by assumption.
  rewrite NilEmpty.usu.
  destruct u as [|u|u|u|u|u|u|u|u|u|u]; try congruence;
    try (destruct u; reflexivity).
  rewrite (Hzero u eq_refl). reflexivity.
Qed.

Lemma uint_head_digit (u : Decimal.uint) :
  u <> Decimal.Nil ->
  exists c r, NilEmpty.string_of_uint u = String c r /\ is_digit c = true.
Proof.
  destruct u; try congruence; intros _; cbn; eauto.
Qed.

Lemma parse_value_digit (f : nat) (c : ascii) (r : string) :
  is_digit c = true \/ c = ascii_of_nat 45 ->
  parse_value (S f) (String c r) = parse_number (String c r).
Proof.
  intros [Hd| ->]; [|reflexivity].
  destruct c as [[|] [|] [|] [|] [|] [|] [|] [|]]; try discriminate Hd;
    reflexivity.
Qed.

Lemma parse_number_Z (n : Z) (rest : string) :
  no_digit_head rest ->
  exists c r, Z_to_string n ++ rest = String c r /\
    (is_digit c = true \/ c = ascii_of_nat 45) /\
    parse_number (String c r) = Some (JNum n, rest).
Proof.
  intros Hrest. unfold Z_to_string.
  pose proof (DecimalZ.of_to n) as Hn.
  destruct n as [|p|p]; cbn [Z.to_int NilEmpty.string_of_int] in *.
  - exists "0"%char, rest. repeat split; auto.
    destruct rest as [|c r]; [reflexivity|].
    cbn in Hrest. cbn. unfold parse_digits. cbn. rewrite Hrest. reflexivity.
  - destruct (uint_head_digit (Pos.to_uint p) (Unsigned.to_uint_nonnil p))
      as (c & r & Hs & Hc).
    exists c, (r ++ rest). rewrite Hs. split; [reflexivity|]. split; [auto|].
    assert (Hne : (nat_of_ascii c =? 45)%nat = false).
    { destruct c as [[|] [|] [|] [|] [|] [|] [|] [|]]; try discriminate Hc;
        reflexivity. }
    unfold parse_number. rewrite Hne.
    change (String c (r ++ rest)) with (String c r ++ rest). rewrite <- Hs.
    rewrite parse_digits_uint; try assumption.
    + now rewrite Hn.
    + apply Unsigned.to_uint_nonnil.
    + intros u' Hu. exfalso. exact (to_uint_no_leading_zero p u' Hu).
  - eexists _, _. split; [reflexivity|]. split; [auto|].
    unfold parse_number.
    change (nat_of_ascii "-" =? 45)%nat with true. cbn iota.
    rewrite parse_digits_uint; try assumption.
    + now rewrite Hn.
    + apply Unsigned.to_uint_nonnil.
    + intros u' Hu. exfalso. exact (to_uint_no_leading_zero p u' Hu).
Qed.

(** Induction on a value with the property at hand for every item of an
    array and every property value of an object. *)
Lemma json_nested_ind (P : json -> Prop) :
  P JNull -> (forall b, P (JBool b)) -> (forall n, P (JNum n)) ->
  (forall s, P (JStr s)) ->
  (forall l, Forall P l -> P (JArr l)) ->
  (forall fs, Forall (fun kv => P (snd kv)) fs -> P (JObj fs)) ->
  forall j, P j.
Proof.
  intros Hnull Hbool Hnum Hstr Harr Hobj.
  fix IH 1. intros [ |b|n|s|l|fs].
  - exact Hnull.
  - apply Hbool.
  - apply Hnum.
  - apply Hstr.
  - apply Harr. induction l as [|x l IHl]; constructor; [apply IH | exact IHl].
  - apply Hobj. induction fs as [|[k x] fs IHfs]; constructor;
      [apply IH | exact IHfs].
Qed.

Lemma parse_elements_back (l : list json) :
  l <> [] -> Forall parses_back l ->
  forall fuel rest,
    (list_sum (map (fun x => S (size x)) l) <= fuel)%nat ->
    parse_elements fuel (join_close "]" (map stringify l) ++ rest)
    = Some (l, rest).
Proof.
  induction l as [|x l IH]; [congruence|].
  intros _ Hall fuel rest Hfuel.
  inversion Hall as [|? ? Hx Hl]; subst.
  cbn [map list_sum fold_right] in Hfuel.
  destruct fuel as [|f]; [lia|].
  destruct l as [|y l].
  - cbn [map join_close]. rewrite string_app_assoc.
    cbn [parse_elements]. rewrite Hx; [reflexivity | cbn in *; lia | reflexivity].
  - change (join_close "]" (map stringify (x :: y :: l)))
      with (stringify x ++ "," ++ join_close "]" (map stringify (y :: l))).
    rewrite !string_app_assoc.
    cbn [parse_elements]. rewrite Hx; [| cbn in *; lia | reflexivity].
    cbn. rewrite IH; [reflexivity | congruence | assumption | cbn in *; lia].
Qed.

Lemma parse_members_back (fs : list (string * json)) :
  fs <> [] -> Forall (fun kv => parses_back (snd kv)) fs ->
  forall fuel rest,
    (list_sum (map (fun kv => S (size (snd kv))) fs) <= fuel)%nat ->
    parse_members fuel
      (join_close "}" (map (fun kv => quote (fst kv) ++ ":" ++ stringify (snd kv)) fs)
       ++ rest)
    = Some (fs, rest).
Proof.
  induction fs as [|[k x] fs IH]; [congruence|].
  intros _ Hall fuel rest Hfuel.
  inversion Hall as [|? ? Hx Hl]; subst. cbn [snd] in Hx.
  cbn [map list_sum fold_right snd] in Hfuel.
  destruct fuel as [|f]; [lia|].
  destruct fs as [|[k' y] fs].
  - cbn [map join_close fst snd]. rewrite !string_app_assoc.
    destruct (parse_quote k (":" ++ stringify x ++ "}" ++ rest))
      as (body & -> & Hbody).
    cbn [parse_members]. change (nat_of_ascii (ascii_of_nat 34) =? 34)%nat with true.
    cbn iota. rewrite Hbody. cbn.
    rewrite Hx; [reflexivity | cbn in *; lia | reflexivity].
  - change (join_close "}" (map (fun kv => quote (fst kv) ++ ":" ++ stringify (snd kv))
                              ((k, x) :: (k', y) :: fs)))
      with ((quote k ++ ":" ++ stringify x) ++ ","
            ++ join_close "}" (map (fun kv => quote (fst kv) ++ ":" ++ stringify (snd kv))
                                 ((k', y) :: fs))).
    rewrite !string_app_assoc.
    match goal with
    | |- parse_members _ (quote k ++ ?t) = _ =>
        destruct (parse_quote k t) as (body & -> & Hbody)
    end.
    cbn [parse_members]. change (nat_of_ascii (ascii_of_nat 34) =? 34)%nat with true.
    cbn iota. rewrite Hbody. cbn.
    rewrite Hx; [| cbn in *; lia | reflexivity].
    cbn. rewrite IH; [reflexivity | congruence | assumption | cbn in *; lia].
Qed.

Lemma stringify_head (j : json) :
  exists c r, stringify j = String c r /\ (nat_of_ascii c =? 93)%nat = false.
Proof.
  destruct j as [ |[|]|n|s|[|x l]|[|kv fs]]; cbn [stringify];
    try (eexists _, _; split; [reflexivity | reflexivity]).
  destruct (parse_number_Z n EmptyString I) as (c & r & Hs & Hc & _).
  exists c, r. split.
  - rewrite <- Hs. clear. induction (Z_to_string n) as [|a s IH];
      [reflexivity | cbn; now rewrite <- IH].
  - destruct Hc as [Hd| ->]; [|reflexivity].
    destruct c as [[|] [|] [|] [|] [|] [|] [|] [|]]; try discriminate Hd;
      reflexivity.
Qed.

Lemma parse_array_open (f : nat) (R rest : string) (l : list json) :
  (exists c r, R = String c r /\ (nat_of_ascii c =? 93)%nat = false) ->
  parse_elements f R = Some (l, rest) ->
  parse_value (S f) (String "[" R) = Some (JArr l, rest).
Proof.
  intros (c & r & -> & Hc) Hp. cbn. cbn in Hc. rewrite Hc, Hp. reflexivity.
Qed.

Lemma parse_object_open (f : nat) (R rest : string) (fs : list (string * json)) :
  (exists r, R = String (ascii_of_nat 34) r) ->
  parse_members f R = Some (fs, rest) ->
  parse_value (S f) (String "{" R) = Some (JObj fs, rest).
Proof.
  intros (r & ->) Hp.
  change (parse_value (S f) (String "{" (String (ascii_of_nat 34) r)))
    with (match parse_members f (String (ascii_of_nat 34) r) with
          | Some (l, rest) => Some (JObj l, rest)
          | None => None
          end).
  rewrite Hp. reflexivity.
Qed.

Lemma parse_value_back (j : json) : parses_back j.
Proof.
  induction j as [ |b|n|s|l IHl|fs IHfs] using json_nested_ind;
    intros fuel rest Hfuel Hrest; (destruct fuel as [|f]; [cbn in Hfuel; lia|]).
  - reflexivity.
  - destruct b; reflexivity.
  - cbn [stringify].
    destruct (parse_number_Z n rest Hrest) as (c & r & -> & Hc & Hp).
    rewrite parse_value_digit by assumption. exact Hp.
  - cbn [stringify].
    destruct (parse_quote s rest) as (body & -> & Hbody).
    change (parse_value (S f) (String (ascii_of_nat 34) body))
      with (match parse_chars body with
            | Some (str, rest) => Some (JStr str, rest)
            | None => None
            end).
    rewrite Hbody. reflexivity.
  - destruct l as [|x l]; [reflexivity|].
    cbn [stringify size] in *.
    apply parse_array_open.
    + destruct (stringify_head x) as (c & r & Hs & Hc).
      cbn [map]. exists c.
      destruct l; cbn [join_close]; rewrite Hs; eexists; split;
        try reflexivity; assumption.
    + apply parse_elements_back; [congruence | assumption | lia].
  - destruct fs as [|[k x] fs]; [reflexivity|].
    cbn [stringify size] in *.
    apply parse_object_open.
    + cbn [map fst snd]. destruct fs; cbn [join_close]; eexists; reflexivity.
    + apply parse_members_back; [congruence | assumption | lia].
Qed.

Lemma join_close_length (close : string) (parts : list string) :
  String.length close = 1%nat -> parts <> [] ->
  String.length (join_close close parts)
  = list_sum (map (fun p => S (String.length p)) parts).
Proof.
  intros Hc Hne. induction parts as [|p ps IH]; [congruence|].
  destruct ps as [|q ps].
  - cbn [join_close map list_sum fold_right].
    rewrite string_app_length, Hc. lia.
  - change (join_close close (p :: q :: ps))
      with (p ++ String "," (join_close close (q :: ps))).
    rewrite string_app_length. cbn [String.length].
    rewrite IH by congruence.
    cbn [map list_sum fold_right]. lia.
Qed.

Lemma list_sum_le {A : Type} (f g : A -> nat) (l : list A) :
  Forall (fun x => (f x <= g x)%nat) l ->
  (list_sum (map f l) <= list_sum (map g l))%nat.
Proof.
  induction 1 as [|x l Hx Hl IH]; [reflexivity|].
  change (f x + list_sum (map f l) <= g x + list_sum (map g l))%nat. lia.
Qed.

Lemma stringify_length (j : json) : (size j <= String.length (stringify j))%nat.
Proof.
  induction j as [ |b|n|s|l IHl|fs IHfs] using json_nested_ind.
  - cbn. lia.
  - destruct b; cbn; lia.
  - destruct (stringify_head (JNum n)) as (c & r & -> & _). cbn. lia.
  - cbn. lia.
  - destruct l as [|x l]; [cbn; lia|].
    cbn [stringify size].
    change (String.length ("[" ++ join_close "]" (map stringify (x :: l))))
      with (S (String.length (join_close "]" (map stringify (x :: l))))).
    rewrite join_close_length by (reflexivity || discriminate).
    rewrite map_map. apply le_n_S, list_sum_le.
    eapply Forall_impl; [exact IHl|]. cbn. intros; lia.
  - destruct fs as [|kv fs]; [cbn; lia|].
    cbn [stringify size].
    match goal with
    | |- (_ <= String.length ("{" ++ ?J))%nat =>
        change (String.length ("{" ++ J)) with (S (String.length J))
    end.
    rewrite join_close_length by (reflexivity || discriminate).
    rewrite map_map. apply le_n_S, list_sum_le.
    eapply Forall_impl; [exact IHfs|]. cbn. intros [k y] Hy.
    rewrite !string_app_length. cbn [fst snd String.length] in *. lia.
Qed.

Lemma string_app_nil (s : string) : s ++ EmptyString = s.
Proof. induction s as [|c s IH]; [reflexivity | cbn; now rewrite IH]. Qed.

Lemma parse_value_fuel (j : json) (fuel : nat) :
  (size j <= fuel)%nat -> parse_value fuel (stringify j) = Some (j, EmptyString).
Proof.
  intros Hf. rewrite <- (string_app_nil (stringify j)) at 1.
  apply parse_value_back; [assumption | exact I].
Qed.

(** The reference implementation meets the law of the interface. *)
Lemma MiniJSON_lawful : @JSON_lawful MiniJSON.codec.
Proof.
  intros j. cbn. unfold parse.
  rewrite parse_value_fuel; [reflexivity | apply stringify_length].
Qed.

End MiniJSONFacts.

Section CacheFacts.
Import Cache.
Local Open Scope Z_scope.

Lemma get_live (now : Z) (key : string) (e : Entry) (store : CacheStore) :
  store !! key = Some e -> now <= expires e ->
  get now key store = (Some (value e), store).
Proof.
  intros Hk Hlive. unfold get. rewrite Hk.
  destruct (Z.gtb_spec now (expires e)); [lia | reflexivity].
Qed.

Lemma get_expired (now : Z) (key : string) (e : Entry) (store : CacheStore) :
  store !! key = Some e -> expires e < now ->
  get now key store = (None, delete key store).
Proof.
  intros Hk Hdead. unfold get. rewrite Hk.
  destruct (Z.gtb_spec now (expires e)); [reflexivity | lia].
Qed.

(** C1, as the code has it: after [setEx(k, t, v)] with [t > 0], [get(k)]
    returns [v] at once and until the [t] seconds have passed; an entry
    whose expiry lies strictly before [now] reads as a miss and the read
    removes its key; an entry whose expiry is exactly [now] is still
    returned. *)
Theorem get_after_setEx_and_expiry (now : Z) (k : string) (store : CacheStore) :
  (forall v t later, 0 < t -> now <= later <= now + t * 1000 ->
     (get later k (setEx now k t v store)).1 = Some v) /\
  (forall e, store !! k = Some e -> expires e < now ->
     (get now k store).1 = None /\ (get now k store).2 !! k = None) /\
  (forall e, store !! k = Some e -> expires e = now ->
     get now k store = (Some (value e), store)).
Proof.
  split; [|split].
  - intros v t later Ht Hlater. unfold setEx.
    rewrite (get_live later k (mkEntry v (now + t * 1000))).
    + reflexivity.
    + apply lookup_insert_eq.
    + cbn. lia.
  - intros e Hk Hdead. rewrite (get_expired now k e store Hk Hdead). cbn.
    split; [reflexivity | apply lookup_delete_eq].
  - intros e Hk Hnow. apply get_live; [assumption | lia].
Qed.

(** The claim as the specification words it fails at the boundary: an
    entry that expires at 1000 is still served at 1000. *)
Lemma get_at_expiry_is_a_hit :
  let store : CacheStore := {[ "k"%string := mkEntry "v" 1000 ]} in
  store !! "k"%string = Some (mkEntry "v" 1000) /\
  expires (mkEntry "v" 1000) <= 1000 /\
  ~ ((get 1000 "k" store).1 = None /\ (get 1000 "k" store).2 !! "k"%string = None).
Proof.
  cbn zeta. split; [reflexivity|]. split; [cbn; lia|].
  intros [Hmiss _]. vm_compute in Hmiss. discriminate.
Qed.

Lemma get_after_setEx_and_expiry_witness :
  (get 5000 "k" (setEx 5000 "k" 60 "v" ∅)).1 = Some "v"%string.
Proof.
  destruct (get_after_setEx_and_expiry 5000 "k" ∅) as (Hset & _).
  apply Hset; lia.
Defined.

Lemma Array_slice_from_start {A : Type} (arr : list A) :
  Array_slice arr 0 None = arr.
Proof.
  unfold Array_slice, relativeIndex. cbn.
  rewrite Z.min_l by lia. cbn. apply firstn_all2. lia.
Qed.

Lemma Array_slice_nil {A : Type} (start : Z) (end_ : option Z) :
  Array_slice (@nil A) start end_ = [].
Proof. unfold Array_slice. now rewrite skipn_nil, firstn_nil. Qed.

Lemma Array_slice_last {A : Type} (arr : list A) (n : nat) :
  Array_slice arr (- Z.of_nat (S n)) None = lastN (S n) arr.
Proof.
  unfold Array_slice, relativeIndex, lastN.
  destruct (Z.ltb_spec (- Z.of_nat (S n)) 0) as [_|Hge]; [|lia].
  replace (Z.to_nat (Z.max (Z.of_nat (length arr) + - Z.of_nat (S n)) 0))
    with (length arr - S n)%nat by lia.
  apply firstn_all2. rewrite length_skipn. lia.
Qed.

Lemma lastN_lastN_app {A : Type} (n : nat) (l1 l2 : list A) :
  lastN n (lastN n l1 ++ l2) = lastN n (l1 ++ l2).
Proof.
  unfold lastN.
  rewrite !skipn_app, !length_app, skipn_skipn, !length_skipn.
  f_equal; f_equal; lia.
Qed.

Lemma lastN_app_long {A : Type} (n : nat) (l1 l2 : list A) :
  (n <= length l2)%nat -> lastN n (l1 ++ l2) = lastN n l2.
Proof.
  intros Hn. unfold lastN.
  rewrite skipn_app, length_app.
  rewrite skipn_all2 by lia. cbn. f_equal. lia.
Qed.

Lemma lastN_map {A B : Type} (f : A -> B) (n : nat) (l : list A) :
  map f (lastN n l) = lastN n (map f l).
Proof. unfold lastN. now rewrite length_map, skipn_map. Qed.

Lemma lastN_length {A : Type} (n : nat) (l : list A) :
  (n <= length l)%nat -> length (lastN n l) = n.
Proof. intros Hn. unfold lastN. rewrite length_skipn. lia. Qed.

Section ListFacts.
Context `{JSON}.
Hypothesis lawful : JSON_lawful.

Lemma currentList_insert (key : string) (arr : list json) (exp : Z)
  (store : CacheStore) :
  currentList key (<[key := mkEntry (JSON_stringify (JArr arr)) exp]> store) = arr.
Proof using lawful.
  unfold currentList. rewrite lookup_insert_eq. cbn. now rewrite lawful.
Qed.

Lemma rPush_valid (now : Z) (key v : string) (j : json) (store : CacheStore) :
  JSON_parse v = Some j ->
  exists store',
    rPush now key v store = Normal store' /\
    currentList key store' = currentList key store ++ [j].
Proof using lawful.
  intros Hv. unfold rPush. rewrite Hv. eexists. split; [reflexivity|].
  apply currentList_insert.
Qed.

Lemma lTrim_to_end (now : Z) (key : string) (start : Z) (store : CacheStore) :
  currentList key (lTrim now key start (-1) store)
  = Array_slice (currentList key store) start None.
Proof using lawful.
  unfold lTrim, currentList at 2.
  destruct (store !! key) as [entry|] eqn:Hk.
  - destruct (JSON_parse (value entry)) as [[ | | | |arr| ]|] eqn:Hp;
      try (unfold currentList; rewrite Hk, Hp, Array_slice_nil; reflexivity).
    cbn. apply currentList_insert.
  - unfold currentList. rewrite Hk, Array_slice_nil. reflexivity.
Qed.

Lemma lRange_whole (key : string) (store : CacheStore) :
  lRange key 0 (-1) store = map JSON_stringify (currentList key store).
Proof.
  unfold lRange, currentList.
  destruct (store !! key) as [entry|]; [|reflexivity].
  destruct (JSON_parse (value entry)) as [[ | | | |arr| ]|]; try reflexivity.
  cbn. now rewrite Array_slice_from_start.
Qed.

Lemma appendCapped_valid (now : Z) (key v : string) (j : json)
  (store : CacheStore) :
  JSON_parse v = Some j ->
  exists store',
    appendCapped now key v store = Normal store' /\
    currentList key store' = lastN 100 (currentList key store ++ [j]).
Proof using lawful.
  intros Hv. unfold appendCapped.
  destruct (rPush_valid now key v j store Hv) as (s1 & -> & Hs1).
  eexists. split; [reflexivity|].
  rewrite lTrim_to_end, Hs1.
  exact (Array_slice_last (currentList key store ++ [j]) 99).
Qed.

Lemma appendAll_valid (clock : nat -> Z) (key : string) (vs : list string) :
  forall (js : list json) (i : nat) (store : CacheStore),
    Forall2 (fun v j => JSON_parse v = Some j) vs js ->
    exists store',
      appendAll clock i key vs store = Normal store' /\
      (js = [] -> store' = store) /\
      (js <> [] ->
       currentList key store' = lastN 100 (currentList key store ++ js)).
Proof using lawful.
  induction vs as [|v vs IH]; intros js i store Hall.
  - inversion Hall; subst. exists store. repeat split; congruence.
  - inversion Hall as [|? j ? js' Hv Hrest]; subst.
    destruct (appendCapped_valid (clock i) key v j store Hv) as (s1 & Hs1 & Hl1).
    destruct (IH js' (S i) s1 Hrest) as (s2 & Hs2 & Hnil & Hcons).
    exists s2. cbn [appendAll]. rewrite Hs1.
    split; [exact Hs2|]. split; [discriminate|]. intros _.
    destruct js' as [|j' js'].
    + rewrite Hnil by reflexivity. exact Hl1.
    + rewrite Hcons by discriminate.
      rewrite Hl1, lastN_lastN_app, <- app_assoc. reflexivity.
Qed.

(** C4: for every history key, every store and every sequence of more
    than 100 appends of valid JSON texts, each followed by
    [lTrim(key, -100, -1)], none of the appends throws and
    [lRange(key, 0, -1)] then returns exactly 100 texts: the serialized
    last 100 appended values, in the order of the appends; when the
    appended texts are what [JSON.stringify] wrote, as in
    [logRetentionCleanup], these are the last 100 appended texts
    themselves. *)
Theorem history_capped_at_last_100 (clock : nat -> Z) (key : string)
  (vs : list string) (js : list json) (store : CacheStore) :
  Forall2 (fun v j => JSON_parse v = Some j) vs js ->
  (100 < length vs)%nat ->
  exists store',
    appendAll clock 0 key vs store = Normal store' /\
    lRange key 0 (-1) store' = map JSON_stringify (lastN 100 js) /\
    length (lRange key 0 (-1) store') = 100%nat /\
    (vs = map JSON_stringify js -> lRange key 0 (-1) store' = lastN 100 vs).
Proof using lawful.
  intros Hall Hlen.
  pose proof (Forall2_length _ _ _ Hall) as Hjs.
  destruct (appendAll_valid clock key vs js 0 store Hall) as (s' & Hrun & _ & Hl).
  exists s'. split; [exact Hrun|].
  rewrite lRange_whole, Hl by (destruct js; [cbn in *; lia | discriminate]).
  rewrite lastN_app_long by lia.
  split; [reflexivity|]. split.
  - rewrite length_map. apply lastN_length. lia.
  - intros ->. apply lastN_map.
Qed.

Lemma parse_of_stringified (js : list json) :
  Forall2 (fun v j => JSON_parse v = Some j) (map JSON_stringify js) js.
Proof using lawful.
  induction js as [|j js IH]; cbn [map]; constructor; [apply lawful | exact IH].
Qed.

(** C8, as the code has it: on a key that holds a well-formed list,
    [lTrim(key, start, -1)] keeps the elements [arr.slice(start)], from
    index [start] (counted from the end when negative) to the end; that is
    the whole list when [start] is 0 or at most minus its length.  Other
    keys are left alone. *)
Theorem lTrim_to_end_keeps_slice (now : Z) (key : string) (start : Z)
  (entry : Entry) (arr : list json) (store : CacheStore) :
  store !! key = Some entry ->
  JSON_parse (value entry) = Some (JArr arr) ->
  lRange key 0 (-1) (lTrim now key start (-1) store)
  = map JSON_stringify (Array_slice arr start None) /\
  (start = 0 \/ start <= - Z.of_nat (length arr) ->
   lRange key 0 (-1) (lTrim now key start (-1) store) = lRange key 0 (-1) store) /\
  (forall k, k <> key -> lTrim now key start (-1) store !! k = store !! k).
Proof using lawful.
  intros Hk Hp.
  assert (Hcur : currentList key store = arr)
    by (unfold currentList; now rewrite Hk, Hp).
  assert (Hafter : lRange key 0 (-1) (lTrim now key start (-1) store)
                   = map JSON_stringify (Array_slice arr start None))
    by (now rewrite lRange_whole, lTrim_to_end, Hcur).
  split; [exact Hafter|]. split.
  - intros Hstart. rewrite Hafter, lRange_whole, Hcur. f_equal.
    destruct Hstart as [-> | Hneg]; [apply Array_slice_from_start|].
    unfold Array_slice, relativeIndex.
    destruct (Z.ltb_spec start 0) as [_|Hge].
    + rewrite Z.max_r by lia. cbn. apply firstn_all2. lia.
    + assert (arr = []) as -> by (destruct arr; [reflexivity | cbn in *; lia]).
      now rewrite skipn_nil, firstn_nil.
  - intros k Hne. unfold lTrim. rewrite Hk, Hp. cbn.
    now rewrite lookup_insert_ne.
Qed.

(** C10: [rPush] throws a [SyntaxError] exactly when its value argument is
    not valid JSON, whatever the key holds; with a valid value it returns
    normally and stores the old list followed by the parsed value, where
    the old list is empty when the key is absent, when its entry does not
    parse, and when its entry parses to something that is not an array. *)
Theorem rPush_throws_only_on_invalid_value (now : Z) (key v : string)
  (store : CacheStore) :
  (JSON_parse v = None -> rPush now key v store = Throw SyntaxError) /\
  (forall j, JSON_parse v = Some j ->
     rPush now key v store
     = Normal (<[key := mkEntry (JSON_stringify (JArr (currentList key store ++ [j])))
                                (now + THIRTY_DAYS)]> store)) /\
  (store !! key = None -> currentList key store = []) /\
  (forall e, store !! key = Some e -> JSON_parse (value e) = None ->
     currentList key store = []) /\
  (forall e x, store !! key = Some e -> JSON_parse (value e) = Some x ->
     (forall arr, x <> JArr arr) -> currentList key store = []) /\
  (forall e arr, store !! key = Some e ->
     JSON_parse (value e) = Some (JArr arr) -> currentList key store = arr).
Proof.
  unfold rPush, currentList. repeat split.
  - intros ->. reflexivity.
  - intros j ->. reflexivity.
  - intros ->. reflexivity.
  - intros e -> ->. reflexivity.
  - intros e x -> -> Hx. destruct x; try reflexivity. now destruct (Hx items).
  - intros e arr -> ->. reflexivity.
Qed.

End ListFacts.

End CacheFacts.

Section ListRuns.
Import Cache MiniJSON.
Local Open Scope Z_scope.
Local Existing Instance codec.

(** The history of [logRetentionCleanup]: 101 entries appended. *)
Lemma history_capped_at_last_100_witness :
  let js := map (fun n => JObj [("timestamp"%string, JStr "2026-11-02T00:00:00.000Z");
                                ("deletedCount"%string, JNum (Z.of_nat n))])
                (seq 1 101) in
  exists store',
    appendAll (fun i => 1000 + Z.of_nat i) 0 "notifications:cleanup:history"
              (map JSON_stringify js) ∅ = Normal store' /\
    lRange "notifications:cleanup:history" 0 (-1) store'
    = lastN 100 (map JSON_stringify js).
Proof.
  intros js.
  destruct (history_capped_at_last_100 MiniJSON_lawful
              (fun i => 1000 + Z.of_nat i) "notifications:cleanup:history"
              (map JSON_stringify js) js ∅) as (store' & Hrun & _ & _ & Hsame).
  - apply parse_of_stringified. exact MiniJSON_lawful.
  - vm_compute. lia.
  - exists store'. split; [exact Hrun | apply Hsame; reflexivity].
Defined.

(** The claim as the specification words it fails: trimming [[1,2,3]]
    from index 1 to the end drops the first element. *)
Lemma lTrim_from_one_drops_head :
  let store : CacheStore := {[ "k"%string := mkEntry "[1,2,3]" 0 ]} in
  JSON_parse "[1,2,3]" = Some (JArr [JNum 1; JNum 2; JNum 3]) /\
  lRange "k" 0 (-1) store = ["1"; "2"; "3"]%string /\
  lRange "k" 0 (-1) (lTrim 0 "k" 1 (-1) store) = ["2"; "3"]%string /\
  lRange "k" 0 (-1) (lTrim 0 "k" 1 (-1) store) <> lRange "k" 0 (-1) store.
Proof.
  cbn zeta. repeat split; try (vm_compute; reflexivity).
  vm_compute. discriminate.
Qed.

Lemma lTrim_to_end_keeps_slice_witness :
  let store : CacheStore := {[ "k"%string := mkEntry "[1,2,3]" 0 ]} in
  lRange "k" 0 (-1) (lTrim 7 "k" 0 (-1) store) = lRange "k" 0 (-1) store.
Proof.
  intros store.
  destruct (lTrim_to_end_keeps_slice MiniJSON_lawful 7 "k" 0
              (mkEntry "[1,2,3]" 0) [JNum 1; JNum 2; JNum 3] store)
    as (_ & Hwhole & _).
  - reflexivity.
  - vm_compute. reflexivity.
  - apply Hwhole. left. reflexivity.
Defined.

Lemma rPush_throws_only_on_invalid_value_witness :
  rPush 0 "k" "{deletedCount" ∅ = Throw SyntaxError /\
  rPush 0 "k" "7" {[ "k"%string := mkEntry "not json" 0 ]}
  = Normal {[ "k"%string := mkEntry "[7]" THIRTY_DAYS ]}.
Proof.
  split.
  - apply (rPush_throws_only_on_invalid_value 0 "k" "{deletedCount" ∅).
    vm_compute. reflexivity.
  - destruct (rPush_throws_only_on_invalid_value 0 "k" "7"
                {[ "k"%string := mkEntry "not json" 0 ]}) as (_ & Hok & _).
    rewrite (Hok (JNum 7)) by (vm_compute; reflexivity).
    vm_compute. reflexivity.
Defined.

End ListRuns.

Section LedgerFacts.
Import Cache Redis JsNumber.
Local Open Scope Z_scope.
Local Arguments String.append !_ _ / : simpl nomatch.

Lemma trim_start_digit (c : ascii) (r : string) :
  MiniJSON.is_digit c = true \/ c = "-"%char ->
  trim_start (String c r) = String c r.
Proof.
  intros [Hd| ->]; [|reflexivity].
  destruct c as [[|] [|] [|] [|] [|] [|] [|] [|]]; try discriminate Hd;
    reflexivity.
Qed.

Lemma span_digits_all (u : Decimal.uint) :
  MiniJSON.span_digits (NilEmpty.string_of_uint u)
  = (NilEmpty.string_of_uint u, EmptyString).
Proof.
  rewrite <- (string_app_nil (NilEmpty.string_of_uint u)) at 1.
  apply span_digits_uint. exact I.
Qed.

(** What [invalidateUserTokens] writes, [parseInt] reads back. *)
Lemma parseInt_toString (n : Z) : parseInt (Number_toString n) = Some n.
Proof.
  unfold Number_toString, MiniJSON.Z_to_string.
  pose proof (DecimalZ.of_to n) as Hn.
  destruct n as [|p|p]; cbn [Z.to_int NilEmpty.string_of_int] in *.
  - reflexivity.
  - destruct (uint_head_digit (Pos.to_uint p) (Unsigned.to_uint_nonnil p))
      as (c & r & Hs & Hc).
    unfold parseInt. rewrite Hs, trim_start_digit by auto.
    assert (Hm : (nat_of_ascii c =? 45)%nat = false /\
                 (nat_of_ascii c =? 43)%nat = false).
    { destruct c as [[|] [|] [|] [|] [|] [|] [|] [|]]; try discriminate Hc;
        split; reflexivity. }
    destruct Hm as [-> ->]. cbn [fst snd].
    rewrite <- Hs, span_digits_all. cbn [fst]. rewrite NilEmpty.usu.
    rewrite Hs. cbn in Hn. now rewrite Hn.
  - unfold parseInt. rewrite trim_start_digit by auto.
    change (nat_of_ascii "-" =? 45)%nat with true. cbn [fst snd].
    rewrite span_digits_all. cbn [fst]. rewrite NilEmpty.usu.
    destruct (uint_head_digit (Pos.to_uint p) (Unsigned.to_uint_nonnil p))
      as (c & r & -> & _).
    cbn in Hn. now rewrite Hn.
Qed.

Lemma inMemory_check `{JSON} (now : Z) (userId : string) (tokenIat : Z)
  (store : CacheStore) :
  (isTokenInvalidatedBySignUpdate (H := inMemory) now userId tokenIat
     (mkVars (Some store) true)).1
  = match (get now ("user:signUpdate:" ++ userId) store).1 with
    | Some text =>
        match parseInt text with
        | Some ms => tokenIat * 1000 <? ms
        | None => false
        end
    | None => false
    end.
Proof.
  unfold isTokenInvalidatedBySignUpdate. cbn.
  destruct (get now _ store) as [[text|] store']; cbn; [|reflexivity].
  destruct text; reflexivity.
Qed.

(** C7: (1) while the cache is not connected, [isTokenBlacklisted] and
    [isTokenInvalidatedBySignUpdate] return false, for every client, token,
    user and issued-at value; (2) so they do when the client's [get]
    throws; (3) with the in-memory client connected,
    [isTokenInvalidatedBySignUpdate] returns true exactly when the user's
    cutoff entry is live and [tokenIat * 1000] is below the cutoff it
    holds; (4) within 24 hours of [invalidateUserTokens(userId, cutoff)]
    that is exactly when [tokenIat * 1000 < cutoff]. *)
Theorem revocation_checks_fail_open :
  (forall (C : Type) (RC : RedisClient C) (now : Z) (tokenId userId : string)
          (tokenIat : Z) (m : Vars C),
     (isRedisConnected m = false ->
      (isTokenBlacklisted now tokenId m).1 = false /\
      (isTokenInvalidatedBySignUpdate now userId tokenIat m).1 = false) /\
     (forall c,
        redisClient m = Some c ->
        (forall key, exists e, (client_get now key c).1 = Throw e) ->
        (isTokenBlacklisted now tokenId m).1 = false /\
        (isTokenInvalidatedBySignUpdate now userId tokenIat m).1 = false)) /\
  (forall (J : JSON) (now : Z) (userId : string) (tokenIat : Z)
          (store : CacheStore),
     (isTokenInvalidatedBySignUpdate (H := inMemory) now userId tokenIat
        (mkVars (Some store) true)).1 = true
     <-> exists entry cutoff,
           store !! ("user:signUpdate:" ++ userId)%string = Some entry /\
           now <= expires entry /\
           parseInt (value entry) = Some cutoff /\
           tokenIat * 1000 < cutoff) /\
  (forall (J : JSON) (t0 now : Z) (userId : string) (cutoff tokenIat : Z)
          (store : CacheStore),
     t0 <= now <= t0 + 86400 * 1000 ->
     (isTokenInvalidatedBySignUpdate (H := inMemory) now userId tokenIat
        (invalidateUserTokens (H := inMemory) t0 userId cutoff
           (mkVars (Some store) true))).1
     = (tokenIat * 1000 <? cutoff)).
Proof.
  split; [|split].
  - intros C RC now tokenId userId tokenIat m. split.
    + intros Hoff. unfold isTokenBlacklisted, isTokenInvalidatedBySignUpdate.
      rewrite Hoff. split; reflexivity.
    + intros c Hc Hthrows.
      unfold isTokenBlacklisted, isTokenInvalidatedBySignUpdate. rewrite Hc.
      destruct (isRedisConnected m); cbn [negb]; [|split; reflexivity].
      split.
      * destruct (Hthrows ("token:blacklist:" ++ tokenId)%string) as [e He].
        destruct (client_get now _ c) as [r c']. cbn in He. now rewrite He.
      * destruct (Hthrows ("user:signUpdate:" ++ userId)%string) as [e He].
        destruct (client_get now _ c) as [r c']. cbn in He. now rewrite He.
  - intros J now userId tokenIat store. rewrite inMemory_check.
    unfold get.
    destruct (store !! _) as [entry|] eqn:Hk; cbn.
    + destruct (Z.gtb_spec now (expires entry)) as [Hdead|Hlive]; cbn.
      * split; [discriminate|]. intros (e & c & [= <-] & Hl & _). lia.
      * destruct (parseInt (value entry)) as [ms|] eqn:Hp.
        -- rewrite Z.ltb_lt. split.
           ++ intros Hlt. exists entry, ms. auto.
           ++ intros (e & c & [= <-] & _ & Hc & Hlt). congruence.
        -- split; [discriminate|]. intros (e & c & [= <-] & _ & Hc & _).
           congruence.
    + split; [discriminate|]. intros (e & c & [=] & _).
  - intros J t0 now userId cutoff tokenIat store Hnow.
    change (invalidateUserTokens (H := inMemory) t0 userId cutoff
              (mkVars (Some store) true))
      with (mkVars (Some (setEx t0 ("user:signUpdate:" ++ userId) 86400
                            (Number_toString cutoff) store)) true).
    rewrite inMemory_check. unfold setEx.
    rewrite (get_live now _ (mkEntry (Number_toString cutoff) (t0 + 86400 * 1000)));
      [| apply lookup_insert_eq | cbn; lia].
    cbn. now rewrite parseInt_toString.
Qed.

End LedgerFacts.

Section LedgerRuns.
Import Cache Redis.
Local Open Scope Z_scope.

(** The cache closed ([closeRedis]): both checks answer false.  A token
    issued at second 1700000000 against a cutoff written at millisecond
    1700000005000 is invalid. *)
Lemma revocation_checks_fail_open_witness :
  (isTokenBlacklisted (H := inMemory (H := MiniJSON.codec)) 0 "u1:1700000000"
     (mkVars None false)).1 = false /\
  (isTokenInvalidatedBySignUpdate (H := inMemory (H := MiniJSON.codec))
     1700000006000 "u1" 1700000000
     (invalidateUserTokens (H := inMemory (H := MiniJSON.codec))
        1700000005000 "u1" 1700000005000 (mkVars (Some ∅) true))).1 = true.
Proof.
  destruct revocation_checks_fail_open as (Hopen & _ & Hrecorded).
  split.
  - destruct (Hopen _ (inMemory (H := MiniJSON.codec)) 0 "u1:1700000000"%string
                "u1"%string 0 (mkVars None false)) as (Hoff & _).
    apply Hoff. reflexivity.
  - rewrite (Hrecorded MiniJSON.codec 1700000005000 1700000006000 "u1"%string
               1700000005000 1700000000 ∅) by lia.
    reflexivity.
Defined.

End LedgerRuns.

Section RegexFacts.
Import Regex.
Local Open Scope string_scope.
Local Arguments String.append !_ _ / : simpl nomatch.

Lemma strip_prefix_length (word s s' : string) :
  MiniJSON.strip_prefix word s = Some s' ->
  String.length s = (String.length word + String.length s')%nat.
Proof.
  revert s. induction word as [|a word IH]; intros s Hs; cbn in *.
  - now injection Hs as ->.
  - destruct s as [|b s]; [discriminate|].
    destruct (Ascii.eqb a b); [|discriminate].
    cbn. now rewrite (IH s Hs).
Qed.

Lemma star_lazy_shorter {R : Type} (class : ascii -> bool) (s : string)
  (k : string -> option R) (x : R) :
  star_lazy class s k = Some x ->
  exists s', (String.length s' <= String.length s)%nat /\ k s' = Some x.
Proof.
  induction s as [|c s IH]; cbn; intros Hrun.
  - destruct (k EmptyString) eqn:Hk; [|discriminate]. exists EmptyString. split; [cbn in *; lia|congruence].
  - destruct (k (String c s)) eqn:Hk.
    + exists (String c s). split; [cbn in *; lia|congruence].
    + destruct (class c); [|discriminate].
      destruct (IH Hrun) as (s' & Hlen & Hs'). exists s'. split; [cbn; lia|exact Hs'].
Qed.

Lemma star_greedy_shorter {R : Type} (class : ascii -> bool) (s : string)
  (k : string -> option R) (x : R) :
  star_greedy class s k = Some x ->
  exists s', (String.length s' <= String.length s)%nat /\ k s' = Some x.
Proof.
  induction s as [|c s IH]; cbn; intros Hrun.
  - exists EmptyString. split; [cbn in *; lia|exact Hrun].
  - destruct (class c).
    + destruct (star_greedy class s k) eqn:Hg.
      * destruct (IH Hrun) as (s' & Hlen & Hs').
        exists s'. split; [cbn; lia|congruence].
      * exists (String c s). split; [cbn in *; lia|exact Hrun].
    + exists (String c s). split; [cbn in *; lia|exact Hrun].
Qed.

(** Whatever a match hands to its continuation is no longer than the
    input it started from. *)
Lemma run_shorter {R : Type} (r : regex) :
  forall (s : string) (caps : Captures) (k : string -> Captures -> option R) (x : R),
    run r s caps k = Some x ->
    exists s' caps',
      (String.length s' <= String.length s)%nat /\ k s' caps' = Some x.
Proof.
  induction r as [text|greedy class|n r IH|r1 IH1 r2 IH2|r1 IH1 r2 IH2];
    intros s caps k x Hrun; cbn [run] in Hrun.
  - destruct (MiniJSON.strip_prefix text s) as [s'|] eqn:Hp; [|discriminate].
    exists s', caps. split; [|exact Hrun].
    rewrite (strip_prefix_length _ _ _ Hp). lia.
  - destruct greedy.
    + destruct (star_greedy_shorter _ _ _ _ Hrun) as (s' & Hlen & Hk). eauto.
    + destruct (star_lazy_shorter _ _ _ _ Hrun) as (s' & Hlen & Hk). eauto.
  - destruct (IH _ _ _ _ Hrun) as (s' & caps' & Hlen & Hk). eauto.
  - destruct (IH1 _ _ _ _ Hrun) as (s1 & caps1 & Hlen1 & Hk1).
    destruct (IH2 _ _ _ _ Hk1) as (s2 & caps2 & Hlen2 & Hk2).
    exists s2, caps2. split; [cbn in *; lia|exact Hk2].
  - destruct (run r1 s caps k) eqn:H1.
    + injection Hrun as <-. eauto.
    + eauto.
Qed.

Lemma search_shorter (r : regex) (s s' : string) (caps : Captures) :
  search r s = Some (s', caps) -> (String.length s' <= String.length s)%nat.
Proof.
  induction s as [|c s IH]; cbn [search]; intros Hs.
  - destruct (match_here r EmptyString) as [found|] eqn:Hm; [|discriminate].
    injection Hs as ->. unfold match_here in Hm.
    destruct (run_shorter _ _ _ _ _ Hm) as (s1 & caps1 & Hlen & [= -> ->]). exact Hlen.
  - destruct (match_here r (String c s)) as [found|] eqn:Hm.
    + injection Hs as ->. unfold match_here in Hm.
      destruct (run_shorter _ _ _ _ _ Hm) as (s1 & caps1 & Hlen & [= -> ->]). exact Hlen.
    + specialize (IH Hs). cbn. lia.
Qed.

End RegexFacts.

Section NewsFacts.
Import Regex News.
Local Open Scope string_scope.
Local Arguments String.append !_ _ / : simpl nomatch.
Context `{JSON}.

(** A match of [itemRegex] consumes at least its two tags. *)
Lemma item_match_shorter (s s' : string) (caps : Captures) :
  search itemRegex s = Some (s', caps) ->
  (String.length s' < String.length s)%nat.
Proof.
  induction s as [|c s IH]; cbn [search]; intros Hs.
  - discriminate.
  - destruct (match_here itemRegex (String c s)) as [found|] eqn:Hm.
    + injection Hs as ->. unfold match_here, itemRegex in Hm. cbn [run] in Hm.
      destruct (MiniJSON.strip_prefix "<item>" (String c s)) as [s1|] eqn:Hp;
        [|discriminate].
      apply strip_prefix_length in Hp.
      destruct (star_lazy_shorter _ _ _ _ Hm) as (s2 & Hlen2 & Hk).
      destruct (MiniJSON.strip_prefix "</item>" s2) as [s3|] eqn:Hp3;
        [|discriminate].
      apply strip_prefix_length in Hp3. injection Hk as -> _.
      cbn [String.length] in *. lia.
    + specialize (IH Hs). cbn. lia.
Qed.

Lemma feedItems_enough (fuel1 : nat) :
  forall (fuel2 : nat) (s : string),
    (String.length s <= fuel1)%nat -> (String.length s <= fuel2)%nat ->
    feedItems fuel1 s = feedItems fuel2 s.
Proof.
  induction fuel1 as [|f1 IH]; intros fuel2 s H1 H2.
  - destruct s; [|cbn in H1; lia].
    destruct fuel2; reflexivity.
  - destruct fuel2 as [|f2].
    + destruct s; [reflexivity | cbn in H2; lia].
    + cbn [feedItems].
      destruct (search itemRegex s) as [[s' caps]|] eqn:Hs; [|reflexivity].
      apply item_match_shorter in Hs.
      f_equal. apply IH; lia.
Qed.

(** The loop pushes, in order, the articles of the items that have a
    title and a link, until [maxArticles] of them are counted. *)
Lemma rssLoop_items (w : World) (maxArticles : Z) (fuel : nat) :
  forall (rest : string) (count : Z) (acc : list NewsArticle),
    rssLoop fuel w rest count maxArticles acc
    = (acc ++ firstn (Z.to_nat (maxArticles - count))
                     (omap (itemArticle w) (feedItems fuel rest)))%list.
Proof.
  induction fuel as [|f IH]; intros rest count acc; cbn [rssLoop feedItems].
  - now rewrite firstn_nil, app_nil_r.
  - destruct (search itemRegex rest) as [[rest' caps]|].
    + destruct (Z.ltb_spec count maxArticles) as [Hlt|Hge].
      * cbn [omap list_omap].
        destruct (itemArticle w _) as [article|].
        -- rewrite IH, <- app_assoc. cbn [app]. f_equal.
           replace (Z.to_nat (maxArticles - count))
             with (S (Z.to_nat (maxArticles - (count + 1)))) by lia.
           reflexivity.
        -- apply IH.
      * replace (Z.to_nat (maxArticles - count)) with 0%nat by lia.
        cbn. now rewrite app_nil_r.
    + now rewrite firstn_nil, app_nil_r.
Qed.

Lemma strip_prefix_app (word rest : string) :
  MiniJSON.strip_prefix word (word ++ rest) = Some rest.
Proof.
  induction word as [|a word IH]; cbn; [reflexivity|].
  now rewrite Ascii.eqb_refl.
Qed.

Lemma strip_prefix_common (a b s : string) :
  MiniJSON.strip_prefix (a ++ b) (a ++ s) = MiniJSON.strip_prefix b s.
Proof.
  induction a as [|x a IH]; cbn [String.append MiniJSON.strip_prefix];
    [reflexivity|].
  now rewrite Ascii.eqb_refl.
Qed.

Lemma consumed_app (t rest : string) : consumed (t ++ rest) rest = t.
Proof.
  unfold consumed. rewrite string_app_length.
  replace (String.length t + String.length rest - String.length rest)%nat
    with (String.length t) by lia.
  induction t as [|c t IH]; cbn.
  - destruct rest; reflexivity.
  - now rewrite IH.
Qed.

Lemma starts_before_app (word a b rest : string) :
  starts_before word (a ++ b) rest
  = starts_before word a (b ++ rest) || starts_before word b rest.
Proof.
  induction a as [|c a IH]; cbn [String.append starts_before]; [reflexivity|].
  change (String c (a ++ b) ++ rest) with (String c ((a ++ b) ++ rest)).
  change (String c a ++ b ++ rest) with (String c (a ++ b ++ rest)).
  rewrite string_app_assoc.
  destruct (MiniJSON.strip_prefix word (String c (a ++ b ++ rest)));
    [reflexivity | exact IH].
Qed.

(** A literal that begins with [<] starts nowhere inside plain text. *)
Lemma starts_before_plain (word t rest : string) :
  all_chars plain_char t = true ->
  starts_before (String "<" word) t rest = false.
Proof.
  induction t as [|c t IH]; cbn [all_chars starts_before]; [reflexivity|].
  intros [Hc Ht]%andb_true_iff.
  change (String c t ++ rest) with (String c (t ++ rest)).
  cbn [MiniJSON.strip_prefix].
  replace (Ascii.eqb "<" c) with false.
  - apply IH, Ht.
  - symmetry. apply Ascii.eqb_neq. intros <-. discriminate Hc.
Qed.

(** The search for a regular expression that begins with a literal passes
    over text in which the literal does not start. *)
Lemma search_skip (word : string) (r : regex) (pre rest : string) :
  starts_before word pre rest = false ->
  search (Seq (Lit word) r) (pre ++ rest) = search (Seq (Lit word) r) rest.
Proof.
  induction pre as [|c pre IH]; cbn [starts_before]; [reflexivity|].
  intros Hno.
  destruct (MiniJSON.strip_prefix word (String c pre ++ rest)) eqn:Hp;
    [discriminate|].
  change (String c pre ++ rest) with (String c (pre ++ rest)) in *.
  cbn [search]. unfold match_here at 1. cbn [run]. rewrite Hp.
  apply IH, Hno.
Qed.

Lemma search_none (word : string) (r : regex) (s : string) :
  starts_before word s EmptyString = false ->
  word <> EmptyString ->
  search (Seq (Lit word) r) s = None.
Proof.
  intros Hno Hw.
  rewrite <- (string_app_nil s), search_skip by assumption.
  cbn [search]. unfold match_here. cbn [run].
  destruct word; [congruence | reflexivity].
Qed.

Lemma star_lazy_first {R : Type} (class : ascii -> bool) (s : string)
  (k : string -> option R) (x : R) :
  k s = Some x -> star_lazy class s k = Some x.
Proof. intros Hk. destruct s; cbn [star_lazy]; now rewrite Hk. Qed.

(** A lazy star followed by a literal stops at the first place where the
    literal starts. *)
Lemma star_lazy_until {R : Type} (class : ascii -> bool) (word t rest : string)
  (F : string -> string -> option R) (x : R) :
  all_chars class t = true ->
  starts_before word t (word ++ rest) = false ->
  F (word ++ rest) rest = Some x ->
  star_lazy class (t ++ word ++ rest)
    (fun s' => match MiniJSON.strip_prefix word s' with
               | Some s'' => F s' s''
               | None => None
               end)
  = Some x.
Proof.
  intros Hclass Hno HF.
  induction t as [|c t IH].
  - cbn [String.append]. apply star_lazy_first.
    now rewrite strip_prefix_app.
  - cbn [all_chars starts_before] in *.
    apply andb_true_iff in Hclass as [Hc Ht].
    change (String c t ++ word ++ rest) with (String c (t ++ word ++ rest)) in *.
    destruct (MiniJSON.strip_prefix word (String c (t ++ word ++ rest))) eqn:Hp;
      [discriminate|].
    cbn [star_lazy]. rewrite Hp, Hc. apply IH; assumption.
Qed.

(** What [<open>(.*?)<close>] finds at the front of [open t close rest]. *)
Lemma field_here (n : nat) (class : ascii -> bool) (open close t rest : string) :
  all_chars class t = true ->
  starts_before close t (close ++ rest) = false ->
  match_here (Seq (Lit open) (Seq (Group n (Star false class)) (Lit close)))
             (open ++ t ++ close ++ rest)
  = Some (rest, [(n, t)]).
Proof.
  intros Hclass Hno. unfold match_here. cbn [run].
  rewrite strip_prefix_app.
  apply (star_lazy_until class close t rest
           (fun s' s'' => Some (s'', [(n, consumed (t ++ close ++ rest) s')])));
    try assumption.
  now rewrite consumed_app.
Qed.

Lemma search_found (r : regex) (s : string) (found : string * Captures) :
  match_here r s = Some found -> search r s = Some found.
Proof. intros Hm. destruct s; cbn [search]; now rewrite Hm. Qed.

Lemma all_chars_any (s : string) : all_chars any s = true.
Proof. induction s as [|c s IH]; [reflexivity | exact IH]. Qed.

Lemma all_chars_weaken (p q : ascii -> bool) (s : string) :
  (forall c, p c = true -> q c = true) ->
  all_chars p s = true -> all_chars q s = true.
Proof.
  intros Hpq. induction s as [|c s IH]; cbn [all_chars]; [reflexivity|].
  intros [Hc Hs]%andb_true_iff. rewrite (Hpq c Hc). exact (IH Hs).
Qed.

Lemma plain_parts (t : string) :
  plain t = true ->
  all_chars plain_char t = true /\ all_chars dot t = true /\
  exists c r, t = String c r /\ Ascii.eqb "<" c = false.
Proof.
  unfold plain. intros [Hall Hne]%andb_true_iff.
  split; [exact Hall|]. split.
  - revert Hall. apply all_chars_weaken. unfold plain_char.
    intros c [Hd _]%andb_true_iff. exact Hd.
  - destruct t as [|c r]; [discriminate|]. exists c, r. split; [reflexivity|].
    cbn [all_chars] in Hall. apply andb_true_iff in Hall as [Hc _].
    apply Ascii.eqb_neq. intros <-. discriminate Hc.
Qed.

(** An item block is found whole when its opening tag starts nowhere
    before it and its closing tag nowhere inside it. *)
Lemma item_found (pre c post : string) :
  starts_before "<item>" pre ("<item>" ++ c ++ "</item>" ++ post) = false ->
  starts_before "</item>" c ("</item>" ++ post) = false ->
  search itemRegex (pre ++ "<item>" ++ c ++ "</item>" ++ post)
  = Some (post, [(1%nat, c)]).
Proof.
  intros Hpre Hc. unfold itemRegex. rewrite search_skip by assumption.
  apply search_found, field_here; [apply all_chars_any | exact Hc].
Qed.

Lemma itemBody_no_close (t l rest : string) :
  plain t = true -> plain l = true ->
  starts_before "</item>" (itemBody t l) ("</item>" ++ rest) = false.
Proof.
  intros (Ht & _ & _)%plain_parts (Hl & _ & _)%plain_parts.
  unfold itemBody.
  rewrite !starts_before_app.
  rewrite (starts_before_plain _ t), (starts_before_plain _ l) by assumption.
  reflexivity.
Qed.

Lemma title_of_itemBody (t l : string) :
  plain t = true -> plain l = true ->
  search titleRegex (itemBody t l)
  = Some ("<link>" ++ l ++ "</link>", [(2%nat, t)]).
Proof.
  intros Ht Hl.
  destruct (plain_parts t Ht) as (Hplain & Hdot & c & r & -> & Hc).
  apply search_found. unfold match_here, titleRegex. cbn [run].
  replace (MiniJSON.strip_prefix "<title><![CDATA[" (itemBody (String c r) l))
    with (@None string).
  2:{ unfold itemBody.
      rewrite (strip_prefix_common "<title>" "<![CDATA[").
      change (String c r ++ "</title><link>" ++ l ++ "</link>")
        with (String c (r ++ "</title><link>" ++ l ++ "</link>")).
      cbn [MiniJSON.strip_prefix]. now rewrite Hc. }
  change (itemBody (String c r) l)
    with ("<title>" ++ String c r ++ "</title>" ++ "<link>" ++ l ++ "</link>").
  apply (field_here 2 dot "<title>" "</title>" (String c r)
           ("<link>" ++ l ++ "</link>")); [exact Hdot|].
  now apply starts_before_plain.
Qed.

Lemma link_of_itemBody (t l : string) :
  plain t = true -> plain l = true ->
  search linkRegex (itemBody t l) = Some (EmptyString, [(1%nat, l)]).
Proof.
  intros Ht Hl.
  destruct (plain_parts t Ht) as (Hplain & _ & _).
  destruct (plain_parts l Hl) as (Hplainl & Hdotl & _).
  replace (itemBody t l)
    with (("<title>" ++ t ++ "</title>")
          ++ "<link>" ++ l ++ "</link>" ++ EmptyString).
  2:{ unfold itemBody. rewrite !string_app_assoc. reflexivity. }
  unfold linkRegex. rewrite search_skip.
  - apply search_found, field_here; [exact Hdotl|].
    now apply starts_before_plain.
  - rewrite !starts_before_app, (starts_before_plain _ t) by assumption.
    reflexivity.
Qed.

Lemma no_pubDate_in_itemBody (t l : string) :
  plain t = true -> plain l = true ->
  search pubDateRegex (itemBody t l) = None.
Proof.
  intros (Ht & _ & _)%plain_parts (Hl & _ & _)%plain_parts.
  apply search_none; [|discriminate].
  unfold itemBody. rewrite !starts_before_app.
  rewrite (starts_before_plain _ t), (starts_before_plain _ l) by assumption.
  reflexivity.
Qed.

Lemma no_source_in_itemBody (t l : string) :
  plain t = true -> plain l = true ->
  search sourceRegex (itemBody t l) = None.
Proof.
  intros (Ht & _ & _)%plain_parts (Hl & _ & _)%plain_parts.
  apply search_none; [|discriminate].
  unfold itemBody. rewrite !starts_before_app.
  rewrite (starts_before_plain _ t), (starts_before_plain _ l) by assumption.
  reflexivity.
Qed.

(** The article of a well-formed item. *)
Lemma itemArticle_plain (w : World) (t l : string) :
  plain t = true -> plain l = true ->
  itemArticle w (itemBody t l) = Some (plainArticle w t l).
Proof.
  intros Ht Hl. unfold itemArticle.
  rewrite title_of_itemBody, link_of_itemBody, no_pubDate_in_itemBody,
    no_source_in_itemBody by assumption.
  destruct (plain_parts t Ht) as (_ & _ & c & r & -> & _).
  destruct (plain_parts l Hl) as (_ & _ & c' & r' & -> & _).
  reflexivity.
Qed.

Lemma rssItem_app (t l rest : string) :
  rssItem t l ++ rest = "<item>" ++ itemBody t l ++ "</item>" ++ rest.
Proof. unfold rssItem. now rewrite !string_app_assoc. Qed.

Lemma rssLoop_full (fuel : nat) (w : World) (rest : string)
  (count maxArticles : Z) (acc : list NewsArticle) :
  (maxArticles <= count)%Z ->
  rssLoop fuel w rest count maxArticles acc = acc.
Proof.
  intros Hfull. destruct fuel as [|f]; cbn [rssLoop]; [reflexivity|].
  destruct (search itemRegex rest) as [[rest' caps]|]; [|reflexivity].
  destruct (Z.ltb_spec count maxArticles); [lia | reflexivity].
Qed.

Lemma rssLoop_wellformed_item (fuel : nat) (w : World) (pre t l rest : string)
  (count maxArticles : Z) (acc : list NewsArticle) :
  plain t = true -> plain l = true ->
  starts_before "<item>" pre (rssItem t l ++ rest) = false ->
  (count < maxArticles)%Z ->
  rssLoop (S fuel) w (pre ++ rssItem t l ++ rest) count maxArticles acc
  = rssLoop fuel w rest (count + 1) maxArticles (acc ++ [plainArticle w t l])%list.
Proof.
  intros Ht Hl Hpre Hcount. cbn [rssLoop].
  rewrite rssItem_app in *.
  rewrite item_found; [| exact Hpre | now apply itemBody_no_close].
  destruct (Z.ltb_spec count maxArticles); [|lia].
  cbn [capture Nat.eqb]. now rewrite itemArticle_plain.
Qed.

Lemma rssLoop_enough (w : World) (maxArticles : Z) (xmlText : string) (fuel : nat) :
  (String.length xmlText <= fuel)%nat ->
  rssLoop fuel w xmlText 0 maxArticles [] = parseRss w xmlText maxArticles.
Proof.
  intros Hfuel. unfold parseRss. rewrite !rssLoop_items.
  now rewrite (feedItems_enough fuel (String.length xmlText) xmlText) by lia.
Qed.

(** Of three well-formed items, after any preamble in which no item
    starts, [maxArticles = 2] returns the first two. *)
Lemma three_items_first_two (w : World) (pre tail t1 l1 t2 l2 t3 l3 : string) :
  plain t1 = true -> plain l1 = true -> plain t2 = true -> plain l2 = true ->
  plain t3 = true -> plain l3 = true ->
  (forall rest, starts_before "<item>" pre ("<item>" ++ rest) = false) ->
  parseRss w (pre ++ rssItem t1 l1 ++ rssItem t2 l2 ++ rssItem t3 l3 ++ tail) 2
  = [plainArticle w t1 l1; plainArticle w t2 l2].
Proof.
  intros Ht1 Hl1 Ht2 Hl2 Ht3 Hl3 Hpre.
  set (xml := pre ++ rssItem t1 l1 ++ rssItem t2 l2 ++ rssItem t3 l3 ++ tail).
  rewrite <- (rssLoop_enough w 2 xml (2 + String.length xml)) by lia.
  unfold xml. cbn [Nat.add].
  rewrite rssLoop_wellformed_item; try assumption; try lia.
  2:{ rewrite rssItem_app. apply Hpre. }
  change (rssItem t2 l2 ++ rssItem t3 l3 ++ tail)
    with (EmptyString ++ rssItem t2 l2 ++ rssItem t3 l3 ++ tail).
  rewrite rssLoop_wellformed_item; try assumption; try lia; [|reflexivity].
  apply rssLoop_full. lia.
Qed.

(** C9: the feed parser returns, in document order, the articles of
    the first [maxArticles] item blocks that have both a title and a link;
    the loop ends after at most as many passes as the text has
    characters; an item without a title or without a link (so also one
    without both) yields no article and is not counted; from a feed of
    three items that each have a title and a link, [maxArticles = 2]
    returns exactly the articles of the first two; and so for every feed
    made of a preamble, three well-formed items and a tail. *)
Theorem rss_collects_first_items_in_order (w : World) (xmlText : string)
  (maxArticles : Z) :
  parseRss w xmlText maxArticles
  = firstn (Z.to_nat maxArticles)
           (omap (itemArticle w) (feedItems (String.length xmlText) xmlText)) /\
  (forall fuel, (String.length xmlText <= fuel)%nat ->
     rssLoop fuel w xmlText 0 maxArticles [] = parseRss w xmlText maxArticles) /\
  (forall itemContent,
     search titleRegex itemContent = None \/ search linkRegex itemContent = None ->
     itemArticle w itemContent = None) /\
  (forall c1 c2 c3 a1 a2 a3,
     feedItems (String.length xmlText) xmlText = [c1; c2; c3] ->
     itemArticle w c1 = Some a1 -> itemArticle w c2 = Some a2 ->
     itemArticle w c3 = Some a3 ->
     maxArticles = 2%Z ->
     parseRss w xmlText maxArticles = [a1; a2]) /\
  (forall pre tail t1 l1 t2 l2 t3 l3,
     plain t1 = true -> plain l1 = true -> plain t2 = true ->
     plain l2 = true -> plain t3 = true -> plain l3 = true ->
     (forall rest, starts_before "<item>" pre ("<item>" ++ rest) = false) ->
     xmlText = pre ++ rssItem t1 l1 ++ rssItem t2 l2 ++ rssItem t3 l3 ++ tail ->
     maxArticles = 2%Z ->
     parseRss w xmlText maxArticles
     = [plainArticle w t1 l1; plainArticle w t2 l2]).
Proof.
  assert (Hparse : parseRss w xmlText maxArticles
                   = firstn (Z.to_nat maxArticles)
                       (omap (itemArticle w)
                             (feedItems (String.length xmlText) xmlText))).
  { unfold parseRss. rewrite rssLoop_items. cbn [app]. now rewrite Z.sub_0_r. }
  split; [exact Hparse|]. split; [|split; [|split]].
  - intros fuel. apply rssLoop_enough.
  - intros itemContent [Ht|Hl]; unfold itemArticle.
    + rewrite Ht. cbn [group_or]. reflexivity.
    + rewrite Hl. cbn [group_or]. cbn. now rewrite andb_false_r.
  - intros c1 c2 c3 a1 a2 a3 Hitems H1 H2 H3 ->.
    rewrite Hparse, Hitems. cbn. rewrite H1, H2, H3. reflexivity.
  - intros pre tail t1 l1 t2 l2 t3 l3 Ht1 Hl1 Ht2 Hl2 Ht3 Hl3 Hpre -> ->.
    now apply three_items_first_two.
Qed.

Lemma get_property_not_null (name : string) (v : json) :
  v <> JNull -> exists x, get_property name v = Normal x.
Proof.
  destruct v; try congruence; intros _; cbn; eauto.
  destruct (own_property name fields); eauto.
Qed.

Lemma newsapiArticle_total (w : World) (article : json) :
  article <> JNull -> exists a, newsapiArticle w article = Normal a.
Proof.
  intros Hn. unfold newsapiArticle.
  repeat match goal with
         | |- context [get_property ?n article] =>
             destruct (get_property_not_null n article Hn) as [? ->]; cbn [bind]
         end.
  eauto.
Qed.

Lemma gnewsArticle_total (w : World) (article : json) :
  article <> JNull -> exists a, gnewsArticle w article = Normal a.
Proof.
  intros Hn. unfold gnewsArticle.
  repeat match goal with
         | |- context [get_property ?n article] =>
             destruct (get_property_not_null n article Hn) as [? ->]; cbn [bind]
         end.
  eauto.
Qed.

Lemma map_completion_total {A B : Type} (f : A -> Completion B) (l : list A) :
  List.Forall (fun x => exists y, f x = Normal y) l ->
  exists ys, map_completion f l = Normal ys /\ length ys = length l.
Proof.
  induction 1 as [|x l [y Hy] Hl (ys & Hys & Hlen)]; cbn [map_completion].
  - exists []. split; reflexivity.
  - rewrite Hy, Hys. cbn [bind]. exists (y :: ys). split; [reflexivity|cbn; lia].
Qed.

Lemma tryNewsApi_answer (w : World) (topic : string) (maxArticles : Z)
  (key : string) (data : json) (items : list json) :
  newsapiAnswer w (newsapiUrl topic maxArticles key) data items ->
  exists arts total,
    map_completion (newsapiArticle w) items = Normal arts /\
    length arts = length items /\
    get_property "totalResults" data = Normal total /\
    tryNewsApi w topic maxArticles key
    = Normal (Some (mkResult arts total topic)).
Proof.
  intros ((body & Hfetch & Hparse) & Hstatus & Harr & Hitems).
  destruct (map_completion_total (newsapiArticle w) items) as (arts & Harts & Hlen).
  { eapply List.Forall_impl; [|exact Hitems]. intros a. apply newsapiArticle_total. }
  assert (Hdata : data <> JNull) by (intros ->; discriminate Hstatus).
  destruct (get_property_not_null "totalResults" data Hdata) as [total Htotal].
  exists arts, total. repeat split; try assumption.
  unfold tryNewsApi, response_json.
  rewrite Hfetch. cbn [bind]. rewrite Hparse. cbn [bind].
  rewrite Hstatus. cbn [bind is_string]. rewrite String.eqb_refl.
  rewrite Harr. cbn [bind map_articles].
  rewrite Harts. cbn [bind]. rewrite Htotal. reflexivity.
Qed.

Lemma tryGNews_answer (w : World) (topic : string) (maxArticles : Z)
  (key : string) (data : json) (items : list json) :
  gnewsAnswer w (gnewsUrl topic maxArticles key) data items ->
  exists arts total,
    map_completion (gnewsArticle w) items = Normal arts /\
    length arts = length items /\
    get_property "totalArticles" data = Normal total /\
    tryGNews w topic maxArticles key
    = Normal (Some (mkResult arts
                      (or_else total (Val (JNum (Z.of_nat (length arts)))))
                      topic)).
Proof.
  intros ((body & Hfetch & Hparse) & Harr & Hitems).
  destruct (map_completion_total (gnewsArticle w) items) as (arts & Harts & Hlen).
  { eapply List.Forall_impl; [|exact Hitems]. intros a. apply gnewsArticle_total. }
  assert (Hdata : data <> JNull) by (intros ->; discriminate Harr).
  destruct (get_property_not_null "totalArticles" data Hdata) as [total Htotal].
  exists arts, total. repeat split; try assumption.
  unfold tryGNews, response_json.
  rewrite Hfetch. cbn [bind]. rewrite Hparse. cbn [bind].
  rewrite Harr. cbn [bind truthy map_articles].
  rewrite Harts. cbn [bind]. rewrite Htotal. reflexivity.
Qed.

Lemma execute_requests_in_order (w : World) (topic : string) (maxArticles : Z) :
  (execute w topic maxArticles).1 `prefix_of` providerUrls w topic maxArticles.
Proof.
  unfold execute, providerUrls.
  destruct (configured (NEWSAPI_KEY w)) as [keyA|];
    [destruct (tryNewsApi w topic maxArticles keyA) as [[resA|]|]|];
    destruct (configured (GNEWS_KEY w)) as [keyB|];
    try destruct (tryGNews w topic maxArticles keyB) as [[resB|]|];
    cbn; eexists; cbn; reflexivity.
Qed.

Lemma tryNewsApi_not_ok (w : World) (topic : string) (maxArticles : Z)
  (key body : string) (data : json) (status : jsval) :
  fetch w (newsapiUrl topic maxArticles key) = Normal body ->
  JSON_parse body = Some data ->
  get_property "status" data = Normal status ->
  status <> Val (JStr "ok") ->
  tryNewsApi w topic maxArticles key = Normal None.
Proof.
  intros Hfetch Hparse Hstatus Hne. unfold tryNewsApi, response_json.
  rewrite Hfetch. cbn [bind]. rewrite Hparse. cbn [bind].
  rewrite Hstatus. cbn [bind].
  destruct status as [|[ | | |s| | ]]; try reflexivity. cbn [is_string].
  destruct (String.eqb_spec s "ok") as [->|_]; [congruence | reflexivity].
Qed.


(** C6: with no key configured and the request to the feed failing,
    [execute] returns, after that one request, the empty result
    [{articles: [], totalResults: 0, query: topic}]; in the model as in
    the code no exception leaves [execute]. *)
Theorem fetch_chain_total_failure (w : World) (topic : string) (maxArticles : Z) :
  configured (NEWSAPI_KEY w) = None ->
  configured (GNEWS_KEY w) = None ->
  (exists e, fetch w (rssUrl topic) = Throw e) ->
  execute w topic maxArticles
  = ([rssUrl topic],
     {| articles := []; totalResults := Val (JNum 0); query := topic |}).
Proof.
  intros HA HB [e He]. unfold execute, tryRss.
  rewrite HA, HB, He. reflexivity.
Qed.

End NewsFacts.

Section NewsRuns.
Import Regex News.
Local Open Scope string_scope.
Import NewsSamples.
Local Existing Instance MiniJSON.codec.



(** No key, no network. *)
Lemma fetch_chain_total_failure_witness :
  execute (mkWorld None None (fun _ => Throw NetworkError) "2026-11-02T00:00:00.000Z")
          "x" 5
  = ([rssUrl "x"], mkResult [] (Val (JNum 0)) "x").
Proof.
  apply fetch_chain_total_failure; [reflexivity | reflexivity |].
  exists NetworkError. reflexivity.
Defined.

Lemma rss_collects_first_items_in_order_witness :
  parseRss feedWorld threeItems 2
  = [rssArticle "First" "https://e.example/1" "Agency A"
                "Mon, 02 Nov 2026 01:00:00 GMT";
     rssArticle "Second" "https://e.example/2" "Google News"
                "2026-11-02T00:00:00.000Z"].
Proof.
  destruct (rss_collects_first_items_in_order feedWorld threeItems 2)
    as (_ & _ & _ & Hthree).
  eapply Hthree; [vm_compute; reflexivity | vm_compute; reflexivity
                 | vm_compute; reflexivity | vm_compute; reflexivity
                 | reflexivity].
Defined.

(** An item without a link is passed over and not counted. *)
Example item_without_link_not_counted :
  parseRss feedWorld
    ("<item><title>No link</title></item>"
     ++ "<item><title>A</title><link>https://e.example/a</link></item>"
     ++ "<item><title>B</title><link>https://e.example/b</link></item>") 1
  = [rssArticle "A" "https://e.example/a" "Google News" "2026-11-02T00:00:00.000Z"].
Proof. vm_compute. reflexivity. Qed.

End NewsRuns.

(** ** More on the schedule and the scheduler *)
Section NextRunMore.
Import JsDate Scheduler.
Local Open Scope Z_scope.

(** The local day on which the next run falls: tomorrow once 03:00 local
    has come, today before. *)
Lemma next_run_closed_form (now : Z) :
  0 <= now <= maxTime - 2 * msPerDay ->
  getMillisecondsUntilNextRun now
  = Some ((Day (now + 28800000)
           + (if 10800000 <=? TimeWithinDay (now + 28800000) then 1 else 0))
          * msPerDay + 10800000 - 28800000 - now).
Proof.
  intros Hnow.
  set (L := now + 28800000).
  assert (Hmax : maxTime = 8640000000000000) by reflexivity.
  assert (Hday : msPerDay = 86400000) by reflexivity.
  assert (HL : 0 <= L) by (unfold L; lia).
  destruct (time_split L) as [HLeq HLr].
  unfold getMillisecondsUntilNextRun, getPhilippinesTimeComponents.
  replace (now + PHT_OFFSET_HOURS * 60 * 60 * 1000) with L
    by (unfold L, PHT_OFFSET_HOURS; lia).
  unfold new_Date. rewrite TimeClip_in_range by lia.
  cbn [year month day hour minute].
  rewrite past_trigger_guard.
  change (SCHEDULED_HOUR * msPerHour) with 10800000.
  assert (Hthree : MakeTime SCHEDULED_HOUR SCHEDULED_MINUTE 0 0 = 10800000)
    by reflexivity.
  destruct (Z.leb_spec 10800000 (TimeWithinDay L)) as [Hpast|Hbefore].
  - rewrite Date_UTC_components by assumption.
    change (MakeTime 0 0 0 0) with 0. rewrite Z.add_0_r.
    set (T1 := (Day L + 1) * msPerDay).
    assert (HT1 : 0 <= T1 <= maxTime) by (unfold T1; lia).
    rewrite TimeClip_in_range by lia.
    assert (HD1 : Day T1 = Day L + 1).
    { unfold T1. rewrite <- (Z.add_0_r ((Day L + 1) * msPerDay)).
      apply Day_of_day_start. lia. }
    replace (DateFromTime T1) with (DateFromTime T1 + 0) by lia.
    rewrite Date_UTC_components by lia.
    rewrite Hthree, Z.add_0_r, HD1.
    rewrite TimeClip_in_range by lia.
    f_equal; try (unfold PHT_OFFSET_HOURS; lia).
  - replace (DateFromTime L) with (DateFromTime L + 0) by lia.
    rewrite Date_UTC_components by assumption.
    rewrite Hthree, Z.add_0_r.
    rewrite TimeClip_in_range by lia.
    f_equal; try (unfold PHT_OFFSET_HOURS; lia).
Qed.





Lemma DayWithinYear_range (t : Z) :
  0 <= DayWithinYear t < DaysInYear (YearFromTime t).
Proof.
  unfold DayWithinYear, YearFromTime.
  pose proof (YearFromDay_spec (Day t)) as [Hlo Hhi].
  rewrite DayFromYear_step in Hhi. lia.
Qed.

Lemma DateFromTime_range (t : Z) : 1 <= DateFromTime t <= 31.
Proof.
  pose proof (DayWithinYear_range t) as Hd.
  unfold DateFromTime, MonthFromTime, DaysInYear in *.
  fold (InLeapYear t) in Hd.
  destruct (InLeapYear t); unfold monthOfDay;
    repeat match goal with
           | |- context [?a <? ?b] => destruct (Z.ltb_spec a b)
           end; cbn in *; lia.
Qed.

(** X3: the components [getPhilippinesTimeComponents] returns are a
    calendar date and a time of day, and [Date.UTC] of them is the UTC+8
    reading of [now] cut to the minute. *)
Theorem local_components_denote_local_time (now : Z) :
  0 <= now <= maxTime - msPerDay ->
  exists c,
    getPhilippinesTimeComponents now = Some c /\
    0 <= month c <= 11 /\ 1 <= day c <= 31 /\
    0 <= hour c <= 23 /\ 0 <= minute c <= 59 /\
    Date_UTC (year c) (month c) (day c) (hour c) (minute c) 0 0
    = Some (now + 28800000 - (now + 28800000) mod msPerMinute).
Proof.
  intros Hnow.
  assert (Hmax : maxTime = 8640000000000000) by reflexivity.
  assert (Hday : msPerDay = 86400000) by reflexivity.
  unfold getPhilippinesTimeComponents.
  replace (now + PHT_OFFSET_HOURS * 60 * 60 * 1000) with (now + 28800000)
    by (unfold PHT_OFFSET_HOURS; lia).
  set (L := now + 28800000).
  unfold new_Date. rewrite TimeClip_in_range by (unfold L; lia).
  eexists. split; [reflexivity|]. cbn [year month day hour minute].
  split; [apply monthOfDay_range|].
  split; [apply DateFromTime_range|].
  split; [unfold HourFromTime; pose proof (Z.mod_pos_bound (L / msPerHour) 24); lia|].
  split; [unfold MinFromTime; pose proof (Z.mod_pos_bound (L / msPerMinute) 60); lia|].
  replace (DateFromTime L) with (DateFromTime L + 0) by lia.
  rewrite Date_UTC_components by (unfold L; lia).
  rewrite Z.add_0_r.
  assert (Heq : Day L * msPerDay + MakeTime (HourFromTime L) (MinFromTime L) 0 0
                = L - L mod msPerMinute).
  { unfold Day, MakeTime, HourFromTime, MinFromTime,
      msPerDay, msPerHour, msPerMinute, msPerSecond.
    Z.div_mod_to_equations. lia. }
  rewrite Heq. apply TimeClip_in_range.
  pose proof (Z.mod_pos_bound L msPerMinute ltac:(reflexivity)).
  unfold L, msPerMinute in *. lia.
Qed.

Lemma local_components_denote_local_time_witness :
  exists c,
    getPhilippinesTimeComponents 1793577600000 = Some c /\ 1 <= day c <= 31.
Proof.
  destruct (local_components_denote_local_time 1793577600000)
    as (c & Hc & _ & Hday & _).
  - unfold maxTime, msPerDay. lia.
  - exists c. split; [exact Hc | exact Hday].
Defined.

End NextRunMore.

Section SchedulerMore.
Import JsDate Scheduler.

Lemma dropTimer_Forall (P : Timer -> Prop) (h : nat) (ts : list Timer) :
  List.Forall P ts -> List.Forall P (dropTimer h ts).
Proof.
  intros Hall. unfold dropTimer. apply List.Forall_forall.
  intros t [Hin _]%List.filter_In.
  rewrite List.Forall_forall in Hall. auto.
Qed.

(** Every pending timer was armed with a handle below [nextHandle]. *)
Lemma handles_fresh (s : State) :
  reachable s ->
  List.Forall (fun t => (handle t < nextHandle s)%nat) (timers s).
Proof.
  induction 1 as [|s e s' Hr IH Hstep]; [constructor|].
  assert (Harm : forall now u,
            List.Forall (fun t => (handle t < nextHandle u)%nat) (timers u) ->
            List.Forall (fun t => (handle t < nextHandle (scheduleNextRun now u))%nat)
                        (timers (scheduleNextRun now u))).
  { intros now u Hu. cbn. apply List.Forall_app. split.
    - eapply List.Forall_impl; [|exact Hu]. cbn. intros; lia.
    - repeat constructor. }
  inversion Hstep; subst; clear Hstep.
  - apply Harm, IH.
  - unfold stopScheduler. destruct (schedulerTimeout s); [|exact IH].
    cbn. apply dropTimer_Forall, IH.
  - unfold fire; cbn. destruct (isRunning s); cbn; apply dropTimer_Forall, IH.
  - apply Harm. exact IH.
Qed.

Lemma dropTimer_fresh (h : nat) (ts : list Timer) :
  List.Forall (fun t => (handle t < h)%nat) ts -> dropTimer h ts = ts.
Proof.
  induction 1 as [|t ts Ht Hts IH]; [reflexivity|].
  unfold dropTimer in *. cbn.
  destruct (Nat.eqb_spec (handle t) h); [lia|]. cbn. now rewrite IH.
Qed.

(** X4: in every state the scheduler can reach at most one job is in
    flight; a timer that fires while the job runs starts no second job, and
    its callback arms no new timer either. *)
Theorem jobs_never_overlap (s : State) :
  reachable s ->
  (jobs s <= 1)%nat /\
  (forall h, armed h s = true -> isRunning s = true ->
     jobs (fire h s) = jobs s /\ isRunning (fire h s) = true /\
     timers (fire h s) = dropTimer h (timers s) /\
     nextHandle (fire h s) = nextHandle s).
Proof.
  intros Hr. pose proof (running_iff_job s Hr) as Hj. split.
  - destruct (isRunning s); lia.
  - intros h _ Hrun. unfold fire. cbn. rewrite Hrun. cbn. auto.
Qed.

Lemma jobs_never_overlap_witness :
  (jobs (fire 1 (fire 0 (startScheduler 5 (startScheduler 0 initial)))) <= 1)%nat.
Proof.
  apply jobs_never_overlap.
  assert (R1 : reachable (startScheduler 0 initial))
    by (eapply reach_step; [apply reach_initial | apply (step_start initial 0)]).
  assert (R2 : reachable (startScheduler 5 (startScheduler 0 initial)))
    by (eapply reach_step; [exact R1 | apply (step_start _ 5)]).
  assert (R3 : reachable (fire 0 (startScheduler 5 (startScheduler 0 initial))))
    by (eapply reach_step; [exact R2 | apply (step_fire _ 0); reflexivity]).
  eapply reach_step; [exact R3 | apply (step_fire _ 1); reflexivity].
Defined.

(** X5: [stopScheduler] called while the job runs clears the handle, but
    when the job settles the callback arms a new timer and stores its
    handle: the scheduler is armed again. *)
Theorem stop_during_run_is_undone (s : State) (o : Outcome) (now : Z) :
  reachable s -> isRunning s = true ->
  step (stopScheduler s) (ESettle o now) (settle o now (stopScheduler s)) /\
  schedulerTimeout (stopScheduler s) = None /\
  schedulerTimeout (settle o now (stopScheduler s)) = Some (nextHandle s) /\
  armed (nextHandle s) (settle o now (stopScheduler s)) = true /\
  phase (settle o now (stopScheduler s)) = Armed.
Proof.
  intros Hr Hrun. pose proof (running_iff_job s Hr) as Hj. rewrite Hrun in Hj.
  assert (Hjobs : jobs (stopScheduler s) = jobs s)
    by (unfold stopScheduler; destruct (schedulerTimeout s); reflexivity).
  split; [apply step_settle; lia|].
  unfold settle, stopScheduler, armed, phase.
  destruct (schedulerTimeout s) as [h|] eqn:E; cbn; rewrite ?E;
    (split; [reflexivity|]); (split; [reflexivity|]);
    rewrite existsb_app; cbn; rewrite Nat.eqb_refl, orb_true_r;
    (split; [reflexivity|]).
  - destruct (dropTimer h (timers s)); reflexivity.
  - destruct (timers s); reflexivity.
Qed.

Lemma stop_during_run_is_undone_witness :
  phase (settle Resolved 9 (stopScheduler (fire 0 (startScheduler 0 initial))))
  = Armed.
Proof.
  apply (stop_during_run_is_undone (fire 0 (startScheduler 0 initial)) Resolved 9).
  - eapply reach_step; [eapply reach_step; [apply reach_initial|]|].
    + apply (step_start initial 0).
    + apply step_fire. reflexivity.
  - reflexivity.
Defined.

(** X6: [stopScheduler] cancels the timer armed last and no other: after
    [startScheduler] then [stopScheduler] the timers pending before are all
    still pending, so a scheduler that was alive stays alive; a second
    [stopScheduler] changes nothing. *)
Theorem stop_cancels_only_latest_timer (s : State) (now : Z) :
  reachable s ->
  timers (stopScheduler (startScheduler now s)) = timers s /\
  (alive s -> alive (stopScheduler (startScheduler now s))) /\
  stopScheduler (stopScheduler s) = stopScheduler s.
Proof.
  intros Hr.
  assert (Ht : timers (stopScheduler (startScheduler now s)) = timers s).
  { cbn. unfold dropTimer. rewrite List.filter_app. cbn.
    rewrite Nat.eqb_refl. cbn. rewrite app_nil_r.
    apply dropTimer_fresh, handles_fresh, Hr. }
  split; [exact Ht|]. split.
  - intros [Hpending|Hjob]; [left; now rewrite Ht | right; exact Hjob].
  - unfold stopScheduler. destruct (schedulerTimeout s) eqn:E; cbn; [reflexivity|].
    now rewrite E.
Qed.

Lemma stop_cancels_only_latest_timer_witness :
  timers (stopScheduler (startScheduler 7 (startScheduler 0 initial)))
  = timers (startScheduler 0 initial).
Proof.
  apply stop_cancels_only_latest_timer.
  eapply reach_step; [apply reach_initial | apply (step_start initial 0)].
Defined.

End SchedulerMore.

(** ** More on the cache: the store, the lists, the read-through helper
    and the token ledger *)
Section StoreMore.
Import Cache CacheOps.
Local Open Scope Z_scope.

Lemma del_lookup_other (keys : list string) (k : string) :
  forall store : CacheStore, k ∉ keys -> del keys store !! k = store !! k.
Proof.
  unfold del. induction keys as [|k0 keys IH]; intros store Hout; cbn [foldl].
  - reflexivity.
  - apply not_elem_of_cons in Hout as [Hne Hout].
    rewrite IH by exact Hout. now apply lookup_delete_ne.
Qed.

Lemma del_lookup_listed (keys : list string) (k : string) :
  forall store : CacheStore, k ∈ keys -> del keys store !! k = None.
Proof.
  unfold del. induction keys as [|k0 keys IH]; intros store Hin; cbn [foldl].
  - now apply elem_of_nil in Hin.
  - destruct (decide (k ∈ keys)) as [Hlater|Hnot]; [now apply IH|].
    apply elem_of_cons in Hin as [->|Hin]; [|contradiction].
    pose proof (del_lookup_other keys k0 (delete k0 store) Hnot) as Hd.
    unfold del in Hd. rewrite Hd. apply lookup_delete_eq.
Qed.

Section Framed.
Context `{JSON}.

(** X7: every operation changes only the keys it is given: [get],
    [setEx], [rPush] and [lTrim] leave the entries of all other keys as
    they were, and so what is read from them; [del] removes exactly the
    listed keys, each of which then reads as a miss, and with no key
    listed it changes nothing. *)
Theorem operations_touch_only_their_keys (now : Z) (k : string)
  (ttl start stop : Z) (v : string) (keys : list string) (store : CacheStore) :
  (forall k', k' <> k ->
     (get now k store).2 !! k' = store !! k' /\
     setEx now k ttl v store !! k' = store !! k' /\
     lTrim now k start stop store !! k' = store !! k' /\
     (forall store', rPush now k v store = Normal store' ->
        store' !! k' = store !! k') /\
     (get now k' (get now k store).2).1 = (get now k' store).1 /\
     lRange k' start stop (lTrim now k start stop store)
     = lRange k' start stop store) /\
  (forall k', k' ∈ keys ->
     del keys store !! k' = None /\
     get now k' (del keys store) = (None, del keys store)) /\
  (forall k', k' ∉ keys -> del keys store !! k' = store !! k') /\
  del [] store = store.
Proof.
  split; [|split; [|split]].
  - intros k' Hne.
    assert (Hget : (get now k store).2 !! k' = store !! k').
    { unfold get. destruct (store !! k) as [e|]; [|reflexivity].
      destruct (now >? expires e); cbn; [|reflexivity].
      now rewrite lookup_delete_ne. }
    assert (Htrim : lTrim now k start stop store !! k' = store !! k').
    { unfold lTrim. destruct (store !! k) as [e|]; [|reflexivity].
      destruct (JSON_parse (value e)) as [[ | | | |arr| ]|]; try reflexivity.
      now rewrite lookup_insert_ne. }
    split; [exact Hget|]. split; [|split; [exact Htrim|split; [|split]]].
    + unfold setEx. now rewrite lookup_insert_ne.
    + intros store'. unfold rPush.
      destruct (JSON_parse v); [|discriminate].
      intros [= <-]. now rewrite lookup_insert_ne.
    + unfold get at 1 3. rewrite Hget.
      destruct (store !! k') as [e'|]; [|reflexivity].
      destruct (now >? expires e'); reflexivity.
    + unfold lRange. now rewrite Htrim.
  - intros k' Hin.
    assert (Hk : del keys store !! k' = None) by now apply del_lookup_listed.
    split; [exact Hk|]. unfold get. now rewrite Hk.
  - intros k' Hout. now apply del_lookup_other.
  - reflexivity.
Qed.

End Framed.

Section ListMore.
Context `{JSON}.
Hypothesis lawful : JSON_lawful.

(** X9: after [lTrim(key, start, stop)] the whole list is what
    [lRange(key, start, stop)] returned before. *)
Theorem lTrim_keeps_what_lRange_returns (now : Z) (key : string) (start stop : Z)
  (store : CacheStore) :
  lRange key 0 (-1) (lTrim now key start stop store)
  = lRange key start stop store.
Proof using lawful.
  rewrite lRange_whole. unfold lTrim, lRange, currentList.
  destruct (store !! key) as [e|] eqn:Hk; [|now rewrite Hk].
  destruct (JSON_parse (value e)) as [[ | | | |arr| ]|] eqn:Hp;
    try (rewrite Hk, Hp; reflexivity).
  rewrite lookup_insert_eq. cbn [value]. rewrite lawful.
  destruct (stop =? -1); reflexivity.
Qed.

(** X10: on a key that holds a list, [lRange(key, start, stop)] returns the
    elements from index [start] to index [stop], both inclusive, a negative
    index counting from the end. *)
Theorem lRange_is_inclusive (key : string) (start stop : Z) (e : Entry)
  (arr : list json) (store : CacheStore) :
  store !! key = Some e ->
  JSON_parse (value e) = Some (JArr arr) ->
  let len := Z.of_nat (length arr) in
  let first := if start <? 0 then Z.max (len + start) 0 else start in
  let last := if stop <? 0 then len + stop else stop in
  lRange key start stop store
  = map JSON_stringify
      (firstn (Z.to_nat (last + 1 - first)) (skipn (Z.to_nat first) arr)).
Proof.
  intros Hk Hp len first last. subst first last.
  unfold lRange. rewrite Hk, Hp.
  transitivity (map JSON_stringify
                  (if stop =? -1 then Array_slice arr start None
                   else Array_slice arr start (Some (stop + 1))));
    [destruct (stop =? -1); reflexivity|].
  f_equal.
  unfold Array_slice, relativeIndex. fold len.
  assert (Hlen : 0 <= len) by (unfold len; lia).
  assert (Htake : forall (n m k : nat) (l : list json),
            (min n (length l - k) = min m (length l - k))%nat ->
            firstn n (skipn k l) = firstn m (skipn k l)).
  { intros n m k l Hnm.
    rewrite <- (firstn_all (skipn k l)) at 1 2.
    rewrite !firstn_firstn, length_skipn. now rewrite Hnm. }
  destruct (Z.eqb_spec stop (-1)) as [->|Hstop].
  - change (-1 <? 0) with true. cbv iota.
    destruct (Z.ltb_spec start 0).
    + apply Htake. unfold len. lia.
    + destruct (Z.leb_spec start len).
      * rewrite Z.min_l by lia. apply Htake. unfold len. lia.
      * rewrite Z.min_r by lia.
        rewrite !skipn_all2 by (unfold len in *; lia).
        now rewrite !firstn_nil.
  - destruct (Z.ltb_spec stop 0), (Z.ltb_spec (stop + 1) 0); try lia.
    + destruct (Z.ltb_spec start 0).
      * apply Htake. unfold len. lia.
      * destruct (Z.leb_spec start len).
        -- rewrite Z.min_l by lia. apply Htake. unfold len. lia.
        -- rewrite (Z.min_r start) by lia.
           rewrite !skipn_all2 by (unfold len in *; lia).
           now rewrite !firstn_nil.
    + destruct (Z.ltb_spec start 0).
      * apply Htake. unfold len. lia.
      * destruct (Z.leb_spec start len).
        -- rewrite (Z.min_l start) by lia. apply Htake. unfold len. lia.
        -- rewrite (Z.min_r start) by lia.
           rewrite !skipn_all2 by (unfold len in *; lia).
           now rewrite !firstn_nil.
Qed.

(** X11: an append is seen by the reads that follow: the whole list is the
    old one followed by the new element, the last element is the new one,
    and [get] returns the text of the array until 30 days have passed. *)
Theorem rPush_then_read (now later : Z) (key v : string) (j : json)
  (store : CacheStore) :
  JSON_parse v = Some j ->
  exists store',
    rPush now key v store = Normal store' /\
    lRange key 0 (-1) store' = lRange key 0 (-1) store ++ [JSON_stringify j] /\
    lRange key (-1) (-1) store' = [JSON_stringify j] /\
    (now <= later <= now + THIRTY_DAYS ->
     (get later key store').1
     = Some (JSON_stringify (JArr (currentList key store ++ [j])))).
Proof using lawful.
  intros Hv. unfold rPush. rewrite Hv. eexists. split; [reflexivity|].
  split; [|split].
  - rewrite !lRange_whole, currentList_insert by exact lawful.
    now rewrite map_app.
  - unfold lRange. rewrite lookup_insert_eq. cbn [value]. rewrite lawful.
    change (-1 =? -1) with true. cbv iota.
    rewrite (Array_slice_last _ 0). unfold lastN.
    rewrite length_app. cbn [length].
    replace (length (currentList key store) + 1 - 1)%nat
      with (length (currentList key store) + 0)%nat by lia.
    rewrite skipn_app, skipn_all2 by lia.
    replace (length (currentList key store) + 0
             - length (currentList key store))%nat with 0%nat by lia.
    reflexivity.
  - intros Hlater.
    rewrite (get_live later key
               (mkEntry (JSON_stringify (JArr (currentList key store ++ [j])))
                        (now + THIRTY_DAYS)));
      [reflexivity | apply lookup_insert_eq | cbn; lia].
Qed.

(** X12: the list operations do not look at the expiry of an entry, [get]
    does: an append to a list whose entry has expired continues the old
    list and makes it live again, while a [get] on the expired key erases
    the list. *)
Theorem expired_list_lives_until_read (now : Z) (key v : string) (j : json)
  (e : Entry) (arr : list json) (store : CacheStore) :
  store !! key = Some e -> expires e < now ->
  JSON_parse (value e) = Some (JArr arr) ->
  JSON_parse v = Some j ->
  lRange key 0 (-1) store = map JSON_stringify arr /\
  (exists store',
     rPush now key v store = Normal store' /\
     lRange key 0 (-1) store' = map JSON_stringify (arr ++ [j]) /\
     (get now key store').1 = Some (JSON_stringify (JArr (arr ++ [j])))) /\
  (get now key store).1 = None /\
  lRange key 0 (-1) (get now key store).2 = [] /\
  (exists store',
     rPush now key v (get now key store).2 = Normal store' /\
     lRange key 0 (-1) store' = [JSON_stringify j]).
Proof using lawful.
  intros Hk Hdead Hp Hv.
  assert (Hcur : currentList key store = arr)
    by (unfold currentList; now rewrite Hk, Hp).
  rewrite (get_expired now key e store Hk Hdead). cbn [fst snd].
  assert (Hgone : currentList key (delete key store) = [])
    by (unfold currentList; now rewrite lookup_delete_eq).
  split; [now rewrite lRange_whole, Hcur|]. split; [|split; [reflexivity|split]].
  - unfold rPush. rewrite Hv, Hcur. eexists. split; [reflexivity|]. split.
    + now rewrite lRange_whole, currentList_insert.
    + rewrite (get_live now key
                 (mkEntry (JSON_stringify (JArr (arr ++ [j]))) (now + THIRTY_DAYS)));
        [reflexivity | apply lookup_insert_eq | cbn; unfold THIRTY_DAYS; lia].
  - now rewrite lRange_whole, Hgone.
  - unfold rPush. rewrite Hv, Hgone. eexists. split; [reflexivity|].
    now rewrite lRange_whole, currentList_insert.
Qed.

End ListMore.
End StoreMore.

Section StoreRuns.
Import Cache CacheOps MiniJSON.
Local Open Scope Z_scope.
Local Existing Instance codec.

Lemma operations_touch_only_their_keys_witness :
  setEx 0 "a" 60 "1" {[ "b"%string := mkEntry "[1]" 5 ]} !! "b"%string
  = Some (mkEntry "[1]" 5) /\
  del ["b"%string] {[ "b"%string := mkEntry "[1]" 5 ]} !! "b"%string = None.
Proof.
  destruct (operations_touch_only_their_keys 0 "a" 60 0 (-1) "1" ["b"%string]
              {[ "b"%string := mkEntry "[1]" 5 ]}) as (Hother & Hdel & _).
  split.
  - destruct (Hother "b"%string) as (_ & Hset & _); [discriminate|].
    rewrite Hset. reflexivity.
  - destruct (Hdel "b"%string) as (Hgone & _); [apply list_elem_of_here|].
    exact Hgone.
Defined.

Lemma lTrim_keeps_what_lRange_returns_witness :
  let store : CacheStore := {[ "k"%string := mkEntry "[1,2,3,4]" 0 ]} in
  lRange "k" 0 (-1) (lTrim 9 "k" 1 2 store) = lRange "k" 1 2 store.
Proof.
  intros store. apply (lTrim_keeps_what_lRange_returns MiniJSON_lawful).
Defined.

Lemma lRange_is_inclusive_witness :
  lRange "k" (-3) 2 {[ "k"%string := mkEntry "[1,2,3,4]" 0 ]} = ["2"; "3"]%string.
Proof.
  rewrite (lRange_is_inclusive "k" (-3) 2 (mkEntry "[1,2,3,4]" 0)
             [JNum 1; JNum 2; JNum 3; JNum 4]
             {[ "k"%string := mkEntry "[1,2,3,4]" 0 ]});
    vm_compute; reflexivity.
Defined.

Lemma rPush_then_read_witness :
  exists store',
    rPush 0 "k" "4" {[ "k"%string := mkEntry "[1,2,3]" 0 ]} = Normal store' /\
    lRange "k" (-1) (-1) store' = ["4"]%string.
Proof.
  destruct (rPush_then_read MiniJSON_lawful 0 0 "k" "4" (JNum 4)
              {[ "k"%string := mkEntry "[1,2,3]" 0 ]})
    as (store' & Hrun & _ & Hlast & _).
  - vm_compute. reflexivity.
  - exists store'. split; [exact Hrun | exact Hlast].
Defined.

Lemma expired_list_lives_until_read_witness :
  let store : CacheStore := {[ "k"%string := mkEntry "[1,2,3]" 5 ]} in
  lRange "k" 0 (-1) store = ["1"; "2"; "3"]%string /\
  lRange "k" 0 (-1) (get 6 "k" store).2 = [].
Proof.
  intros store.
  destruct (expired_list_lives_until_read MiniJSON_lawful 6 "k" "4" (JNum 4)
              (mkEntry "[1,2,3]" 5) [JNum 1; JNum 2; JNum 3] store)
    as (Hall & _ & _ & Hgone & _);
    try (vm_compute; reflexivity).
  split; [exact Hall | exact Hgone].
Defined.

End StoreRuns.

Section ReadThroughFacts.
Import Cache Redis CacheOps.
Local Open Scope Z_scope.

(** X13: whatever the client does, [cacheGetOrSet] calls [fetchFn] at most
    twice; with no call the answer is a value read from the cache, otherwise
    it is what the last call gave; while the cache is not connected there is
    exactly one call; and when the read is a miss and the first call throws,
    [fetchFn] is called a second time. *)
Theorem cacheGetOrSet_fetches_at_most_twice {C : Type} `{RedisClient C} `{JSON}
  (now later : Z) (key : string) (ttl : Z) (fetchFn : nat -> Completion json)
  (m : Vars C) :
  let r := cacheGetOrSet now later key ttl fetchFn m in
  (r.1.2 <= 2)%nat /\
  (r.1.2 = 0%nat -> exists v, r.1.1 = Normal v) /\
  (r.1.2 <> 0%nat -> r.1.1 = fetchFn (r.1.2 - 1)%nat) /\
  (isRedisConnected m = false -> r = (fetchFn 0%nat, 1%nat, m)) /\
  (forall c c1 e,
     isRedisConnected m = true -> redisClient m = Some c ->
     client_get now key c = (Normal None, c1) ->
     fetchFn 0%nat = Throw e ->
     r = (fetchFn 1%nat, 2%nat, withClient c1 m)).
Proof.
  intros r. subst r. unfold cacheGetOrSet.
  destruct (isRedisConnected m) eqn:Hcon; cbn [negb].
  2:{ cbn. split; [lia|]. split; [discriminate|]. split; [reflexivity|].
      split; [reflexivity | discriminate]. }
  destruct (redisClient m) as [c|] eqn:Hc.
  2:{ cbn. split; [lia|]. split; [discriminate|]. split; [reflexivity|].
      split; discriminate. }
  destruct (client_get now key c) as [[cached|e0] c1] eqn:Hget.
  2:{ cbn. split; [lia|]. split; [discriminate|]. split; [reflexivity|].
      split; [discriminate|].
      intros c' c1' e _ [= <-]. rewrite Hget. discriminate. }
  assert (Hmiss :
    let r := match fetchFn 0%nat with
             | Throw _ => (fetchFn 1%nat, 2%nat, withClient c1 m)
             | Normal v =>
                 match client_setEx later key ttl (JSON_stringify v) c1 with
                 | (Normal _, c2) => (Normal v, 1%nat, withClient c2 m)
                 | (Throw _, c2) => (fetchFn 1%nat, 2%nat, withClient c2 m)
                 end
             end in
    (r.1.2 <= 2)%nat /\
    (r.1.2 = 0%nat -> exists v, r.1.1 = Normal v) /\
    (r.1.2 <> 0%nat -> r.1.1 = fetchFn (r.1.2 - 1)%nat) /\
    (forall e, fetchFn 0%nat = Throw e ->
       r = (fetchFn 1%nat, 2%nat, withClient c1 m))).
  { destruct (fetchFn 0%nat) as [v|e] eqn:Hf.
    - destruct (client_setEx later key ttl (JSON_stringify v) c1) as [[[]|e1] c2];
        cbn; (split; [lia|]); (split; [discriminate|]);
        (split; [intros _; auto|]); discriminate.
    - cbn. split; [lia|]. split; [discriminate|]. split; [reflexivity|].
      reflexivity. }
  cbv zeta in Hmiss. destruct Hmiss as (M1 & M2 & M3 & M4).
  destruct cached as [[|ch text]|].
  - split; [exact M1|]. split; [exact M2|]. split; [exact M3|].
    split; [discriminate|].
    intros c' c1' e _ [= <-]. rewrite Hget. discriminate.
  - destruct (JSON_parse (String ch text)) as [v|]; cbn;
      (split; [lia|]); (split; [try discriminate; eauto|]);
      (split; [try reflexivity; intros Hn; now destruct Hn|]);
      (split; [discriminate|]);
      intros c' c1' e _ [= <-]; rewrite Hget; discriminate.
  - split; [exact M1|]. split; [exact M2|]. split; [exact M3|].
    split; [discriminate|].
    intros c' c1' e _ [= <-]. rewrite Hget. intros [= <-]. apply M4.
Qed.

Section InMemory.
Context `{JSON}.
Hypothesis lawful : JSON_lawful.

Lemma cacheGetOrSet_inMemory (now later : Z) (key : string) (ttl : Z)
  (fetchFn : nat -> Completion json) (store : CacheStore) :
  cacheGetOrSet (H := inMemory) now later key ttl fetchFn (mkVars (Some store) true)
  = let store1 := (get now key store).2 in
    let miss :=
      match fetchFn 0%nat with
      | Throw _ => (fetchFn 1%nat, 2%nat, mkVars (Some store1) true)
      | Normal v =>
          (Normal v, 1%nat,
           mkVars (Some (setEx later key ttl (JSON_stringify v) store1)) true)
      end in
    match (get now key store).1 with
    | None => miss
    | Some EmptyString => miss
    | Some text =>
        match JSON_parse text with
        | Some v => (Normal v, 0%nat, mkVars (Some store1) true)
        | None => (fetchFn 0%nat, 1%nat, mkVars (Some store1) true)
        end
    end.
Proof.
  unfold cacheGetOrSet. cbn.
  destruct (get now key store) as [[[|ch text]|] store1]; cbn; reflexivity.
Qed.


(** X15: a live entry whose text is not JSON is never repaired: every
    call fetches, returns what [fetchFn] gave and leaves the entry in
    place. *)
Theorem cacheGetOrSet_keeps_corrupt_entry (now later : Z) (key : string)
  (ttl : Z) (fetchFn : nat -> Completion json) (e : Entry) (store : CacheStore) :
  store !! key = Some e -> now <= expires e ->
  value e <> EmptyString ->
  JSON_parse (value e) = None ->
  cacheGetOrSet (H := inMemory) now later key ttl fetchFn
    (mkVars (Some store) true)
  = (fetchFn 0%nat, 1%nat, mkVars (Some store) true).
Proof.
  intros Hk Hlive Hne Hp.
  rewrite cacheGetOrSet_inMemory. cbv zeta.
  rewrite (get_live now key e store Hk Hlive). cbn [fst snd].
  destruct (value e) as [|ch text] eqn:Hv; [congruence|].
  now rewrite Hp.
Qed.

Lemma parse_all_stringified (l : list json) :
  parse_all (map JSON_stringify l) = Some l.
Proof using lawful.
  induction l as [|j l IH]; [reflexivity|].
  cbn [map parse_all]. now rewrite lawful, IH.
Qed.

Lemma logAll_appendAll (clock : nat -> Z) (runs : list (string * Z)) :
  forall (i : nat) (store : CacheStore),
  exists store',
    appendAll clock i "notifications:cleanup:history"
      (map JSON_stringify (map (fun r => cleanupEntry r.1 r.2) runs)) store
    = Normal store' /\
    logAll clock i runs (mkVars (Some store) true) = mkVars (Some store') true.
Proof using lawful.
  induction runs as [|[ts n] runs IH]; intros i store.
  - exists store. split; reflexivity.
  - destruct (appendCapped_valid lawful (clock i) "notifications:cleanup:history"
                (JSON_stringify (cleanupEntry ts n)) (cleanupEntry ts n) store
                (lawful _)) as (s1 & Hs1 & _).
    destruct (IH (S i) s1) as (s2 & Hs2 & Hl2).
    exists s2. cbn [map appendAll logAll fst snd]. rewrite Hs1. split; [exact Hs2|].
    rewrite <- Hl2. f_equal.
    unfold logRetentionCleanup. cbn.
    unfold appendCapped in Hs1. fold (cleanupEntry ts n).
    destruct (rPush (clock i) _ _ store) as [s0|] eqn:Hpush; [|discriminate].
    injection Hs1 as <-. reflexivity.
Qed.

(** X16: [getRetentionHistory] returns the entries that
    [logRetentionCleanup] logged, oldest first, the last 100 of them: after
    any number of logged runs it is the last 100 of the history held before
    followed by one entry per run, and on a cache just initialised the last
    100 of the runs logged. *)
Theorem retention_history_round_trip (clock : nat -> Z)
  (runs : list (string * Z)) (store : CacheStore) (m : Vars CacheStore) :
  let entries := map (fun r => cleanupEntry r.1 r.2) runs in
  (runs <> [] ->
   getRetentionHistory (logAll clock 0 runs (mkVars (Some store) true))
   = lastN 100 (currentList "notifications:cleanup:history" store ++ entries)) /\
  getRetentionHistory (logAll clock 0 runs (initRedis m)) = lastN 100 entries.
Proof using lawful.
  intros entries.
  assert (Hread : forall s : CacheStore,
            getRetentionHistory (mkVars (Some s) true)
            = currentList "notifications:cleanup:history" s).
  { intros s. unfold getRetentionHistory. cbn.
    rewrite lRange_whole. now rewrite parse_all_stringified. }
  assert (Hgen : forall s : CacheStore, runs <> [] ->
            getRetentionHistory (logAll clock 0 runs (mkVars (Some s) true))
            = lastN 100 (currentList "notifications:cleanup:history" s ++ entries)).
  { intros s Hruns.
    destruct (logAll_appendAll clock runs 0%nat s) as (s' & Hrun & ->).
    rewrite Hread.
    destruct (appendAll_valid lawful clock "notifications:cleanup:history"
                (map JSON_stringify entries) entries 0%nat s
                (parse_of_stringified lawful entries)) as (s'' & Hrun' & _ & Hl).
    fold entries in Hrun. rewrite Hrun in Hrun'. injection Hrun' as <-.
    apply Hl. subst entries. destruct runs; [congruence | discriminate]. }
  split; [apply Hgen|].
  destruct runs as [|r runs'] eqn:Hruns.
  - reflexivity.
  - unfold initRedis. rewrite <- Hruns in *. rewrite Hgen by (rewrite Hruns; discriminate).
    reflexivity.
Qed.

End InMemory.
End ReadThroughFacts.

Section LedgerMore.
Import Cache Redis CacheOps JsNumber.
Local Open Scope Z_scope.
Local Arguments String.append !_ _ / : simpl nomatch.

Lemma string_app_inj (p a b : string) : (p ++ a = p ++ b)%string -> a = b.
Proof.
  induction p as [|c p IH]; cbn; [auto|]. intros [= Hp]. auto.
Qed.

Lemma inMemory_blacklisted `{JSON} (now : Z) (tokenId : string)
  (store : CacheStore) :
  isTokenBlacklisted (H := inMemory) now tokenId (mkVars (Some store) true)
  = (match (get now ("token:blacklist:" ++ tokenId) store).1 with
     | Some _ => true
     | None => false
     end,
     mkVars (Some (get now ("token:blacklist:" ++ tokenId) store).2) true).
Proof.
  unfold isTokenBlacklisted. cbn.
  destruct (get now _ store) as [[text|] store']; reflexivity.
Qed.

Lemma inMemory_blacklist `{JSON} (t0 : Z) (tokenId : string) (ttl : Z)
  (store : CacheStore) :
  blacklistToken (H := inMemory) t0 tokenId ttl (mkVars (Some store) true)
  = mkVars (Some (setEx t0 ("token:blacklist:" ++ tokenId) ttl "revoked" store))
           true.
Proof. reflexivity. Qed.

Lemma inMemory_invalidate `{JSON} (t0 : Z) (userId : string) (cutoff : Z)
  (store : CacheStore) :
  invalidateUserTokens (H := inMemory) t0 userId cutoff (mkVars (Some store) true)
  = mkVars (Some (setEx t0 ("user:signUpdate:" ++ userId) 86400
                        (Number_toString cutoff) store)) true.
Proof. reflexivity. Qed.

Lemma get_other_key (now : Z) (k k' : string) (e : Entry) (store : CacheStore) :
  k' <> k -> (get now k' (<[k := e]> store)).1 = (get now k' store).1.
Proof.
  intros Hne. unfold get. rewrite lookup_insert_ne by congruence.
  destruct (store !! k') as [e'|]; [|reflexivity].
  destruct (now >? expires e'); reflexivity.
Qed.

(** X17: a token is blacklisted from the call of [blacklistToken] until
    its [expiresInSeconds] have passed, and not after; a check does not
    use the revocation up; blacklisting the token again replaces the
    expiry, also by an earlier one. *)
Theorem blacklist_holds_until_expiry `{JSON} (t0 now : Z) (tokenId : string)
  (ttl : Z) (store : CacheStore) :
  let m := blacklistToken (H := inMemory) t0 tokenId ttl
             (mkVars (Some store) true) in
  (isTokenBlacklisted (H := inMemory) now tokenId m).1
  = (now <=? t0 + ttl * 1000) /\
  (forall now2, now <= now2 <= t0 + ttl * 1000 ->
     (isTokenBlacklisted (H := inMemory) now2 tokenId
        (isTokenBlacklisted (H := inMemory) now tokenId m).2).1 = true) /\
  (forall t1 ttl1,
     (isTokenBlacklisted (H := inMemory) now tokenId
        (blacklistToken (H := inMemory) t1 tokenId ttl1 m)).1
     = (now <=? t1 + ttl1 * 1000)).
Proof.
  intros m. subst m. rewrite inMemory_blacklist.
  assert (Hcheck : forall (t ttl' now' : Z) (s : CacheStore),
            get now' ("token:blacklist:" ++ tokenId)
              (setEx t ("token:blacklist:" ++ tokenId) ttl' "revoked" s)
            = if now' <=? t + ttl' * 1000
              then (Some "revoked"%string,
                    setEx t ("token:blacklist:" ++ tokenId) ttl' "revoked" s)
              else (None, delete ("token:blacklist:" ++ tokenId)%string
                            (setEx t ("token:blacklist:" ++ tokenId) ttl' "revoked" s))).
  { intros t ttl' now' s. unfold get, setEx. rewrite lookup_insert_eq. cbn.
    destruct (Z.gtb_spec now' (t + ttl' * 1000)), (Z.leb_spec now' (t + ttl' * 1000));
      try lia; reflexivity. }
  split; [|split].
  - rewrite inMemory_blacklisted, Hcheck. cbn [fst].
    destruct (now <=? t0 + ttl * 1000); reflexivity.
  - intros now2 Hnow2. rewrite inMemory_blacklisted, Hcheck. cbn [snd].
    destruct (Z.leb_spec now (t0 + ttl * 1000)); [|lia]. cbn [fst snd].
    rewrite inMemory_blacklisted, Hcheck. cbn [fst].
    destruct (Z.leb_spec now2 (t0 + ttl * 1000)); [reflexivity|lia].
  - intros t1 ttl1. rewrite inMemory_blacklist, inMemory_blacklisted, Hcheck.
    cbn [fst]. destruct (now <=? t1 + ttl1 * 1000); reflexivity.
Qed.

(** X18: the two ledgers do not interfere: blacklisting one token changes
    the answer for no other token and for no user's cut-off, and a user's
    cut-off changes the answer for no token and for no other user. *)
Theorem ledgers_are_independent `{JSON} (t0 now : Z) (tokenId userId : string)
  (ttl cutoff : Z) (store : CacheStore) :
  let m := mkVars (Some store) true in
  (forall other, other <> tokenId ->
     (isTokenBlacklisted (H := inMemory) now other
        (blacklistToken (H := inMemory) t0 tokenId ttl m)).1
     = (isTokenBlacklisted (H := inMemory) now other m).1) /\
  (forall user iat,
     (isTokenInvalidatedBySignUpdate (H := inMemory) now user iat
        (blacklistToken (H := inMemory) t0 tokenId ttl m)).1
     = (isTokenInvalidatedBySignUpdate (H := inMemory) now user iat m).1) /\
  (forall other,
     (isTokenBlacklisted (H := inMemory) now other
        (invalidateUserTokens (H := inMemory) t0 userId cutoff m)).1
     = (isTokenBlacklisted (H := inMemory) now other m).1) /\
  (forall user iat, user <> userId ->
     (isTokenInvalidatedBySignUpdate (H := inMemory) now user iat
        (invalidateUserTokens (H := inMemory) t0 userId cutoff m)).1
     = (isTokenInvalidatedBySignUpdate (H := inMemory) now user iat m).1).
Proof.
  intros m. subst m. rewrite inMemory_blacklist, inMemory_invalidate.
  unfold setEx. repeat split.
  - intros other Hne. rewrite !inMemory_blacklisted. cbn [fst].
    rewrite get_other_key; [reflexivity|].
    intros Heq. apply string_app_inj in Heq. congruence.
  - intros user iat. rewrite !inMemory_check.
    rewrite get_other_key; [reflexivity|]. cbn. discriminate.
  - intros other. rewrite !inMemory_blacklisted. cbn [fst].
    rewrite get_other_key; [reflexivity|]. cbn. discriminate.
  - intros user iat Hne. rewrite !inMemory_check.
    rewrite get_other_key; [reflexivity|].
    intros Heq. apply string_app_inj in Heq. congruence.
Qed.

(** X19: a user's cut-off lapses 24 hours after [invalidateUserTokens]:
    from then on every token of the user passes the check, whatever its
    age, and the check that finds the lapsed entry removes it. *)
Theorem cutoff_lapses_after_a_day `{JSON} (t0 now : Z) (userId : string)
  (cutoff tokenIat : Z) (store : CacheStore) :
  t0 + 86400 * 1000 < now ->
  let r := isTokenInvalidatedBySignUpdate (H := inMemory) now userId tokenIat
             (invalidateUserTokens (H := inMemory) t0 userId cutoff
                (mkVars (Some store) true)) in
  r.1 = false /\
  exists store',
    r.2 = mkVars (Some store') true /\
    store' !! ("user:signUpdate:" ++ userId)%string = None.
Proof.
  intros Hnow r. subst r. rewrite inMemory_invalidate.
  unfold isTokenInvalidatedBySignUpdate. cbn -[get setEx String.append].
  unfold setEx.
  rewrite (get_expired now _ (mkEntry (Number_toString cutoff) (t0 + 86400 * 1000)));
    [| apply lookup_insert_eq | cbn; lia].
  cbn -[String.append]. split; [reflexivity|].
  eexists. split; [reflexivity|]. apply lookup_delete_eq.
Qed.

(** X20: [initRedis] installs an empty cache, whatever was there: no token
    is blacklisted, no user has a cut-off, the history is empty and
    [cacheGetOrSet] fetches.  After [closeRedis] the cache is not connected
    and [blacklistToken] and [invalidateUserTokens] record nothing. *)
Theorem initRedis_starts_empty `{JSON} (now later : Z) (tokenId userId key : string)
  (tokenIat ttl cutoff : Z) (fetchFn : nat -> Completion json)
  (m : Vars CacheStore) :
  isRedisConnected (initRedis m) = true /\
  (isTokenBlacklisted (H := inMemory) now tokenId (initRedis m)).1 = false /\
  (isTokenInvalidatedBySignUpdate (H := inMemory) now userId tokenIat
     (initRedis m)).1 = false /\
  getRetentionHistory (initRedis m) = [] /\
  (cacheGetOrSet (H := inMemory) now later key ttl fetchFn (initRedis m)).1.2
  <> 0%nat /\
  isRedisConnected (closeRedis m) = false /\
  blacklistToken (H := inMemory) now tokenId ttl (closeRedis m) = closeRedis m /\
  invalidateUserTokens (H := inMemory) now userId cutoff (closeRedis m)
  = closeRedis m /\
  closeRedis (closeRedis m) = closeRedis m.
Proof.
  assert (Hoff : isRedisConnected (closeRedis m) = false).
  { unfold closeRedis, isRedisConnected.
    destruct (redisClient m) eqn:Hc; cbn; [reflexivity|].
    rewrite Hc. apply andb_false_r. }
  repeat split; try reflexivity.
  - unfold cacheGetOrSet, initRedis. cbn.
    destruct (fetchFn 0%nat); cbn; discriminate.
  - exact Hoff.
  - unfold blacklistToken. now rewrite Hoff.
  - unfold invalidateUserTokens. now rewrite Hoff.
  - unfold closeRedis. destruct (redisClient m) eqn:Hc; cbn; [reflexivity|].
    now rewrite Hc.
Qed.

End LedgerMore.

Section ReadThroughRuns.
Import Cache Redis CacheOps MiniJSON.
Local Open Scope Z_scope.
Local Existing Instance codec.

(** A [fetchFn] that throws on its first call and returns 7 on its
    second. *)
Lemma cacheGetOrSet_fetches_at_most_twice_witness :
  let fetchFn := fun i : nat =>
                   match i with
                   | O => Throw NetworkError
                   | S _ => Normal (JNum 7)
                   end in
  cacheGetOrSet (H := inMemory) 0 0 "k" 60 fetchFn (mkVars (Some ∅) true)
  = (Normal (JNum 7), 2%nat, mkVars (Some ∅) true).
Proof.
  intros fetchFn.
  destruct (cacheGetOrSet_fetches_at_most_twice (H := inMemory) 0 0 "k" 60
              fetchFn (mkVars (Some ∅) true)) as (_ & _ & _ & _ & Hretry).
  apply (Hretry ∅ ∅ NetworkError); reflexivity.
Defined.


Lemma cacheGetOrSet_keeps_corrupt_entry_witness :
  let store : CacheStore := {[ "k"%string := mkEntry "{oops" 100 ]} in
  cacheGetOrSet (H := inMemory) 7 8 "k" 60 (fun _ => Normal JNull)
    (mkVars (Some store) true)
  = (Normal JNull, 1%nat, mkVars (Some store) true).
Proof.
  intros store.
  apply (cacheGetOrSet_keeps_corrupt_entry 7 8 "k" 60 (fun _ => Normal JNull)
           (mkEntry "{oops" 100) store).
  - reflexivity.
  - cbn. lia.
  - discriminate.
  - vm_compute. reflexivity.
Defined.

Lemma retention_history_round_trip_witness :
  getRetentionHistory
    (logAll (fun i => 1000 + Z.of_nat i) 0
       [("2026-11-01T19:00:00.000Z"%string, 4); ("2026-11-02T19:00:00.000Z"%string, 0)]
       (initRedis (mkVars None false)))
  = lastN 100 [cleanupEntry "2026-11-01T19:00:00.000Z" 4;
               cleanupEntry "2026-11-02T19:00:00.000Z" 0].
Proof.
  apply (retention_history_round_trip MiniJSON_lawful
           (fun i => 1000 + Z.of_nat i)
           [("2026-11-01T19:00:00.000Z"%string, 4);
            ("2026-11-02T19:00:00.000Z"%string, 0)] ∅ (mkVars None false)).
Defined.

Lemma cutoff_lapses_after_a_day_witness :
  (isTokenInvalidatedBySignUpdate (H := inMemory) 86400001 "u1" 0
     (invalidateUserTokens (H := inMemory) 0 "u1" 1700000005000
        (mkVars (Some ∅) true))).1 = false.
Proof.
  apply (cutoff_lapses_after_a_day 0 86400001 "u1" 1700000005000 0 ∅). lia.
Defined.

End ReadThroughRuns.

(** ** More on the news tool *)
Section NewsMore.
Import Regex News NewsSamples NewsItems.
Local Open Scope string_scope.
Local Arguments String.append !_ _ / : simpl nomatch.
Context `{JSON}.

Lemma group_or_nonempty (m : option (string * Captures)) (n : nat)
  (fallback : string) :
  fallback <> EmptyString -> group_or m n fallback <> EmptyString.
Proof.
  intros Hf. unfold group_or. destruct m as [[s caps]|]; [|exact Hf].
  destruct (capture n caps) as [[|c r]|]; try exact Hf. discriminate.
Qed.

Lemma itemArticle_shape (w : World) (c : string) (a : NewsArticle) :
  itemArticle w c = Some a ->
  exists t l s p,
    a = rssArticle t l s p /\ t <> EmptyString /\ l <> EmptyString /\
    s <> EmptyString /\ (nowISO w <> EmptyString -> p <> EmptyString).
Proof.
  unfold itemArticle.
  set (t := group_or (search titleRegex c) 1 _).
  set (l := group_or (search linkRegex c) 1 _).
  set (p := group_or (search pubDateRegex c) 1 _).
  set (s := group_or (search sourceRegex c) 1 _).
  destruct (String.eqb_spec t EmptyString) as [|Ht]; [discriminate|].
  destruct (String.eqb_spec l EmptyString) as [|Hl]; [discriminate|].
  cbn. intros [= <-]. exists t, l, s, p. repeat split; try assumption.
  - subst s. now apply group_or_nonempty.
  - intros Hnow. subst p. now apply group_or_nonempty.
Qed.

(** X21: every article the feed parser returns has a title and a link
    that are not empty, a source that is not empty, no description, no
    content and no author; there are at most [maxArticles] of them, none
    when [maxArticles] is not positive; and the feed's [totalResults] is
    their number. *)
Theorem feed_articles_are_complete (w : World) (xmlText topic : string)
  (maxArticles : Z) :
  List.Forall
    (fun a => exists t l s p,
       a = rssArticle t l s p /\ t <> EmptyString /\ l <> EmptyString /\
       s <> EmptyString /\ (nowISO w <> EmptyString -> p <> EmptyString))
    (parseRss w xmlText maxArticles) /\
  (Z.of_nat (length (parseRss w xmlText maxArticles)) <= Z.max maxArticles 0)%Z /\
  ((maxArticles <= 0)%Z -> parseRss w xmlText maxArticles = []) /\
  (fetch w (rssUrl topic) = Normal xmlText ->
   tryRss w topic maxArticles
   = Normal {| articles := parseRss w xmlText maxArticles;
               totalResults :=
                 Val (JNum (Z.of_nat (length (parseRss w xmlText maxArticles))));
               query := topic |}).
Proof.
  unfold parseRss. rewrite rssLoop_items. cbn [app]. rewrite Z.sub_0_r.
  split; [|split; [|split]].
  - apply Forall_take, Forall_forall. intros a Hin.
    apply list_elem_of_omap in Hin as (c & _ & Hc).
    now apply (itemArticle_shape w c).
  - rewrite length_take. lia.
  - intros Hmax. replace (Z.to_nat maxArticles) with 0%nat by lia. reflexivity.
  - intros Hfetch. unfold tryRss, parseRss. rewrite Hfetch. cbn [bind].
    rewrite rssLoop_items. cbn [app]. rewrite Z.sub_0_r. reflexivity.
Qed.

Lemma all_chars_app (class : ascii -> bool) (a b : string) :
  all_chars class (a ++ b) = all_chars class a && all_chars class b.
Proof.
  induction a as [|c a IH]; [reflexivity|].
  cbn [String.append all_chars]. now rewrite IH, andb_assoc.
Qed.

Lemma encode_char_safe (c : ascii) :
  all_chars uri_safe
    (if unreserved c then String c EmptyString
     else if (nat_of_ascii c <? 128)%nat then percent (nat_of_ascii c)
          else percent (192 + nat_of_ascii c / 64)
               ++ percent (128 + nat_of_ascii c mod 64)) = true.
Proof.
  destruct c as [[|] [|] [|] [|] [|] [|] [|] [|]]; vm_compute; reflexivity.
Qed.

(** X22: [encodeURIComponent] writes only unreserved characters and [%],
    so the encoded topic holds no [&], [=], [#], [?], [/], [+] or space and
    cannot add a parameter to the query; it leaves a text of unreserved
    characters as it is, and writes one to six characters for each
    character it reads. *)
Theorem encodeURIComponent_is_query_safe (s : string) :
  all_chars uri_safe (encodeURIComponent s) = true /\
  all_chars (fun c => negb (existsb (Ascii.eqb c)
                              ["&"; "="; "#"; "?"; "/"; "+"; " "]%char))
            (encodeURIComponent s) = true /\
  (all_chars unreserved s = true -> encodeURIComponent s = s) /\
  (String.length s <= String.length (encodeURIComponent s)
   <= 6 * String.length s)%nat.
Proof.
  assert (Hsafe : all_chars uri_safe (encodeURIComponent s) = true).
  { induction s as [|c s IH]; [reflexivity|].
    cbn [encodeURIComponent]. rewrite all_chars_app, IH, andb_true_r.
    apply encode_char_safe. }
  split; [exact Hsafe|]. split; [|split].
  - revert Hsafe. apply all_chars_weaken. intros c.
    destruct c as [[|] [|] [|] [|] [|] [|] [|] [|]]; vm_compute; congruence.
  - clear Hsafe. induction s as [|c s IH]; [reflexivity|].
    cbn [all_chars encodeURIComponent]. intros [Hc Hs]%andb_true_iff.
    rewrite Hc, IH by exact Hs. reflexivity.
  - clear Hsafe. induction s as [|c s IH]; [cbn; lia|].
    cbn [encodeURIComponent]. rewrite string_app_length.
    cbn [String.length].
    assert (1 <= String.length
                   (if unreserved c then String c EmptyString
                    else if (nat_of_ascii c <? 128)%nat then percent (nat_of_ascii c)
                         else percent (192 + nat_of_ascii c / 64)
                              ++ percent (128 + nat_of_ascii c mod 64)) <= 6)%nat.
    { destruct (unreserved c); [cbn; lia|].
      destruct (nat_of_ascii c <? 128)%nat; [cbn; lia|].
      rewrite string_app_length. cbn. lia. }
    lia.
Qed.

Lemma star_greedy_all {R : Type} (class : ascii -> bool) (a : string)
  (c : ascii) (rest : string) (k : string -> option R) (x : R) :
  all_chars class a = true -> class c = false ->
  k (String c rest) = Some x ->
  star_greedy class (a ++ String c rest) k = Some x.
Proof.
  intros Ha Hc Hk. induction a as [|c0 a IH].
  - cbn [String.append star_greedy]. now rewrite Hc.
  - cbn [all_chars] in Ha. apply andb_true_iff in Ha as [Hc0 Ha].
    change (String c0 a ++ String c rest) with (String c0 (a ++ String c rest)).
    cbn [star_greedy]. rewrite Hc0, (IH Ha). reflexivity.
Qed.

Lemma source_here (attrs s rest : string) :
  all_chars not_gt attrs = true ->
  all_chars dot s = true ->
  starts_before "</source>" s ("</source>" ++ rest) = false ->
  match_here sourceRegex ("<source" ++ attrs ++ ">" ++ s ++ "</source>" ++ rest)
  = Some (rest, [(1%nat, s)]).
Proof.
  intros Ha Hs Hno. unfold match_here, sourceRegex. cbn [run].
  rewrite strip_prefix_app.
  change (">" ++ s ++ "</source>" ++ rest)
    with (String ">" (s ++ "</source>" ++ rest)).
  apply star_greedy_all; [exact Ha | reflexivity|].
  change (MiniJSON.strip_prefix ">" (String ">" (s ++ "</source>" ++ rest)))
    with (Some (s ++ "</source>" ++ rest)).
  cbv iota beta.
  apply (star_lazy_until dot "</source>" s rest
           (fun s' s'' => Some (s'', [(1%nat, consumed (s ++ "</source>" ++ rest) s')])));
    try assumption.
  now rewrite consumed_app.
Qed.

Lemma starts_before_no_lt (word t rest : string) :
  all_chars (fun c => negb (Ascii.eqb "<" c)) t = true ->
  starts_before (String "<" word) t rest = false.
Proof.
  induction t as [|c t IH]; cbn [all_chars starts_before]; [reflexivity|].
  intros [Hc Ht]%andb_true_iff.
  change (String c t ++ rest) with (String c (t ++ rest)).
  cbn [MiniJSON.strip_prefix].
  apply negb_true_iff in Hc. rewrite Hc. apply IH, Ht.
Qed.

(** X23: for an item block that carries a title, a link, a publication
    date and a source, each on one line and without markup, the parser
    returns these four texts, whatever attributes the source tag has; and a
    feed that is this one item gives this one article. *)
Theorem full_item_fields_are_extracted (w : World) (t l p attrs s : string)
  (maxArticles : Z) :
  plain t = true -> plain l = true -> plain p = true -> plain s = true ->
  all_chars (fun c => not_gt c && negb (Ascii.eqb "<" c)) attrs = true ->
  itemArticle w (fullItemBody t l p attrs s) = Some (rssArticle t l s p) /\
  ((0 < maxArticles)%Z ->
   parseRss w ("<item>" ++ fullItemBody t l p attrs s ++ "</item>") maxArticles
   = [rssArticle t l s p]).
Proof.
  intros Ht Hl Hp Hs Hattrs.
  assert (Ha : all_chars not_gt attrs = true).
  { revert Hattrs. apply all_chars_weaken. now intros c [? _]%andb_true_iff. }
  assert (Hlt : all_chars (fun c => negb (Ascii.eqb "<" c)) attrs = true).
  { revert Hattrs. apply all_chars_weaken. now intros c [_ ?]%andb_true_iff. }
  destruct (plain_parts t Ht) as (Hpt & Hdt & ct & rt & Et & Hct).
  destruct (plain_parts l Hl) as (Hpl & Hdl & cl & rl & El & _).
  destruct (plain_parts p Hp) as (Hpp & Hdp & cp & rp & Ep & _).
  destruct (plain_parts s Hs) as (Hps & Hds & cs & rs & Es & _).
  set (afterTitle := "<link>" ++ l ++ "</link><pubDate>" ++ p
                     ++ "</pubDate><source" ++ attrs ++ ">" ++ s ++ "</source>").
  set (afterLink := "<pubDate>" ++ p ++ "</pubDate><source" ++ attrs ++ ">"
                    ++ s ++ "</source>").
  set (afterDate := "<source" ++ attrs ++ ">" ++ s ++ "</source>").
  assert (Htitle : search titleRegex (fullItemBody t l p attrs s)
                   = Some (afterTitle, [(2%nat, t)])).
  { apply search_found. unfold match_here, titleRegex. cbn [run].
    replace (MiniJSON.strip_prefix "<title><![CDATA[" (fullItemBody t l p attrs s))
      with (@None string).
    2:{ unfold fullItemBody.
        rewrite (strip_prefix_common "<title>" "<![CDATA["). rewrite Et.
        cbn [String.append MiniJSON.strip_prefix]. now rewrite Hct. }
    change (fullItemBody t l p attrs s)
      with ("<title>" ++ t ++ "</title>" ++ afterTitle).
    apply (field_here 2 dot "<title>" "</title>" t afterTitle); [exact Hdt|].
    now apply starts_before_plain. }
  assert (Hlink : search linkRegex (fullItemBody t l p attrs s)
                  = Some (afterLink, [(1%nat, l)])).
  { replace (fullItemBody t l p attrs s)
      with (("<title>" ++ t ++ "</title>") ++ "<link>" ++ l ++ "</link>" ++ afterLink).
    2:{ unfold fullItemBody, afterLink. rewrite !string_app_assoc. reflexivity. }
    unfold linkRegex. rewrite search_skip.
    - apply search_found, field_here; [exact Hdl|]. now apply starts_before_plain.
    - rewrite !starts_before_app, (starts_before_plain _ t) by assumption.
      reflexivity. }
  assert (Hdate : search pubDateRegex (fullItemBody t l p attrs s)
                  = Some (afterDate, [(1%nat, p)])).
  { replace (fullItemBody t l p attrs s)
      with (("<title>" ++ t ++ "</title><link>" ++ l ++ "</link>")
            ++ "<pubDate>" ++ p ++ "</pubDate>" ++ afterDate).
    2:{ unfold fullItemBody, afterDate. rewrite !string_app_assoc. reflexivity. }
    unfold pubDateRegex. rewrite search_skip.
    - apply search_found, field_here; [exact Hdp|]. now apply starts_before_plain.
    - rewrite !starts_before_app.
      rewrite (starts_before_plain _ t), (starts_before_plain _ l) by assumption.
      reflexivity. }
  assert (Hsource : search sourceRegex (fullItemBody t l p attrs s)
                    = Some (EmptyString, [(1%nat, s)])).
  { replace (fullItemBody t l p attrs s)
      with (("<title>" ++ t ++ "</title><link>" ++ l ++ "</link><pubDate>" ++ p
             ++ "</pubDate>")
            ++ "<source" ++ attrs ++ ">" ++ s ++ "</source>" ++ EmptyString).
    2:{ unfold fullItemBody. rewrite !string_app_assoc. reflexivity. }
    unfold sourceRegex at 1. rewrite search_skip.
    - apply search_found. fold sourceRegex.
      apply source_here; [exact Ha | exact Hds|]. now apply starts_before_plain.
    - rewrite !starts_before_app.
      rewrite (starts_before_plain _ t), (starts_before_plain _ l),
        (starts_before_plain _ p) by assumption.
      reflexivity. }
  assert (Hitem : itemArticle w (fullItemBody t l p attrs s)
                  = Some (rssArticle t l s p)).
  { unfold itemArticle. rewrite Htitle, Hlink, Hdate, Hsource.
    rewrite Et, El, Ep, Es. reflexivity. }
  split; [exact Hitem|].
  intros Hmax. unfold parseRss.
  set (body := fullItemBody t l p attrs s) in *.
  assert (Hfound : search itemRegex ("<item>" ++ body ++ "</item>")
                   = Some (EmptyString, [(1%nat, body)])).
  { apply (item_found EmptyString body EmptyString); [reflexivity|].
    unfold body, fullItemBody. rewrite !starts_before_app.
    rewrite (starts_before_plain _ t), (starts_before_plain _ l),
      (starts_before_plain _ p), (starts_before_plain _ s) by assumption.
    rewrite (starts_before_no_lt _ attrs) by assumption.
    reflexivity. }
  rewrite string_app_length. cbn [String.length Nat.add rssLoop].
  rewrite Hfound. cbn [capture Nat.eqb]. rewrite Hitem.
  destruct (Z.ltb_spec 0 maxArticles) as [_|]; [|lia].
  destruct (String.length (body ++ "</item>")); reflexivity.
Qed.

Lemma tryNewsApi_query (w : World) (topic : string) (maxArticles : Z)
  (key : string) (result : FetchResult) :
  tryNewsApi w topic maxArticles key = Normal (Some result) ->
  query result = topic.
Proof.
  unfold tryNewsApi, bind.
  destruct (fetch w _) as [body|]; [|discriminate].
  destruct (response_json body) as [data|]; [|discriminate].
  destruct (get_property "status" data) as [status|]; [|discriminate].
  destruct (is_string "ok" status); [|discriminate].
  destruct (get_property "articles" data) as [arr|]; [|discriminate].
  destruct (map_articles _ arr) as [arts|]; [|discriminate].
  destruct (get_property "totalResults" data) as [total|]; [|discriminate].
  now intros [= <-].
Qed.

Lemma tryGNews_query (w : World) (topic : string) (maxArticles : Z)
  (key : string) (result : FetchResult) :
  tryGNews w topic maxArticles key = Normal (Some result) ->
  query result = topic.
Proof.
  unfold tryGNews, bind.
  destruct (fetch w _) as [body|]; [|discriminate].
  destruct (response_json body) as [data|]; [|discriminate].
  destruct (get_property "articles" data) as [arr|]; [|discriminate].
  destruct (truthy arr); [|discriminate].
  destruct (map_articles _ arr) as [arts|]; [|discriminate].
  destruct (get_property "totalArticles" data) as [total|]; [|discriminate].
  now intros [= <-].
Qed.

(** X24: whatever the providers answer, [execute] returns a result whose
    [query] is the topic after one, two or three requests, the last of
    which is the feed exactly when no configured provider returned a
    result; with no key configured and the feed answering, the result is
    what the feed parser makes of the answer. *)
Theorem execute_always_answers (w : World) (topic : string) (maxArticles : Z) :
  query (execute w topic maxArticles).2 = topic /\
  (1 <= length (execute w topic maxArticles).1 <= 3)%nat /\
  (In (rssUrl topic) (execute w topic maxArticles).1 <->
   (forall key result, configured (NEWSAPI_KEY w) = Some key ->
      tryNewsApi w topic maxArticles key <> Normal (Some result)) /\
   (forall key result, configured (GNEWS_KEY w) = Some key ->
      tryGNews w topic maxArticles key <> Normal (Some result))) /\
  (forall xmlText,
     configured (NEWSAPI_KEY w) = None -> configured (GNEWS_KEY w) = None ->
     fetch w (rssUrl topic) = Normal xmlText ->
     execute w topic maxArticles
     = ([rssUrl topic],
        {| articles := parseRss w xmlText maxArticles;
           totalResults :=
             Val (JNum (Z.of_nat (length (parseRss w xmlText maxArticles))));
           query := topic |})).
Proof.
  assert (Hrss : query (match tryRss w topic maxArticles with
                        | Normal result => result
                        | Throw _ => emptyResult topic
                        end) = topic).
  { unfold tryRss, bind. destruct (fetch w (rssUrl topic)); reflexivity. }
  assert (HnA : forall k, rssUrl topic <> newsapiUrl topic maxArticles k)
    by (intros k; unfold rssUrl, newsapiUrl; cbn; discriminate).
  assert (HnB : forall k, rssUrl topic <> gnewsUrl topic maxArticles k)
    by (intros k; unfold rssUrl, gnewsUrl; cbn; discriminate).
  split; [|split; [|split]].
  - unfold execute.
    destruct (configured (NEWSAPI_KEY w)) as [keyA|];
      [destruct (tryNewsApi w topic maxArticles keyA) as [[resA|]|] eqn:EA|];
      try (cbn [snd]; now apply (tryNewsApi_query w topic maxArticles keyA));
      (destruct (configured (GNEWS_KEY w)) as [keyB|];
       [destruct (tryGNews w topic maxArticles keyB) as [[resB|]|] eqn:EB|]);
      cbn [snd]; try exact Hrss;
      now apply (tryGNews_query w topic maxArticles keyB).
  - unfold execute.
    destruct (configured (NEWSAPI_KEY w)) as [keyA|];
      [destruct (tryNewsApi w topic maxArticles keyA) as [[resA|]|]|];
      try (cbn; lia);
      (destruct (configured (GNEWS_KEY w)) as [keyB|];
       [destruct (tryGNews w topic maxArticles keyB) as [[resB|]|]|]);
      cbn; lia.
  - unfold execute.
    destruct (configured (NEWSAPI_KEY w)) as [keyA|];
      [destruct (tryNewsApi w topic maxArticles keyA) as [[resA|]|] eqn:EA|];
      (destruct (configured (GNEWS_KEY w)) as [keyB|];
       [destruct (tryGNews w topic maxArticles keyB) as [[resB|]|] eqn:EB|]);
      cbn [fst app];
      (split;
       [ first
           [ intros Hin; exfalso; cbn in Hin;
             repeat (destruct Hin as [Hin|Hin];
                     [symmetry in Hin;
                      first [now apply HnA in Hin | now apply HnB in Hin]|]);
             exact Hin
           | intros _; split; intros k r Hk;
             first [discriminate Hk | injection Hk as <-; congruence] ]
       | first
           [ intros [HA _]; now destruct (HA _ _ eq_refl EA)
           | intros [_ HB]; now destruct (HB _ _ eq_refl EB)
           | intros _; cbn; auto 6 ] ]).
  - intros xmlText HA HB Hfetch. unfold execute, tryRss, bind.
    rewrite HA, HB, Hfetch. reflexivity.
Qed.

Lemma rssLoop_withoutNewsApi (w : World) (maxArticles : Z) (fuel : nat) :
  forall (rest : string) (count : Z) (acc : list NewsArticle),
    rssLoop fuel (withoutNewsApi w) rest count maxArticles acc
    = rssLoop fuel w rest count maxArticles acc.
Proof.
  induction fuel as [|fuel IH]; intros rest count acc; [reflexivity|].
  cbn [rssLoop]. destruct (search itemRegex rest) as [[rest' caps]|]; [|reflexivity].
  destruct (count <? maxArticles)%Z; [|reflexivity].
  change (itemArticle (withoutNewsApi w)) with (itemArticle w).
  destruct (itemArticle w _); apply IH.
Qed.

Lemma map_null_throws (w : World) (items : list json) :
  In JNull items -> map_completion (newsapiArticle w) items = Throw TypeError.
Proof.
  induction items as [|item items IH]; intros Hin; [destruct Hin|].
  cbn [map_completion].
  assert (Hcases : item = JNull \/ (item <> JNull /\ In JNull items)).
  { destruct Hin as [->|Hin]; [now left|].
    destruct item; try (right; split; [discriminate | exact Hin]). now left. }
  destruct Hcases as [->|[Hne Hrest]]; [reflexivity|].
  destruct (newsapiArticle_total w item Hne) as [a ->].
  cbn [bind]. now rewrite (IH Hrest).
Qed.

(** X25: a provider that does not return a result costs its one request
    and nothing else: [execute] then answers what it answers without the
    NewsAPI key, after the request to NewsAPI.  So it is when the request
    fails, when the body is not JSON, and when the answer has status ok but
    its [articles] is not an array or holds a [null]. *)
Theorem failed_provider_is_skipped (w : World) (topic : string)
  (maxArticles : Z) (key : string) :
  configured (NEWSAPI_KEY w) = Some key ->
  ((forall result, tryNewsApi w topic maxArticles key <> Normal (Some result)) ->
   execute w topic maxArticles
   = (newsapiUrl topic maxArticles key
        :: (execute (withoutNewsApi w) topic maxArticles).1,
      (execute (withoutNewsApi w) topic maxArticles).2)) /\
  ((exists e, fetch w (newsapiUrl topic maxArticles key) = Throw e) ->
   exists e, tryNewsApi w topic maxArticles key = Throw e) /\
  (forall body, fetch w (newsapiUrl topic maxArticles key) = Normal body ->
     JSON_parse body = None ->
     tryNewsApi w topic maxArticles key = Throw SyntaxError) /\
  (forall body data arr,
     fetch w (newsapiUrl topic maxArticles key) = Normal body ->
     JSON_parse body = Some data ->
     get_property "status" data = Normal (Val (JStr "ok")) ->
     get_property "articles" data = Normal arr ->
     (forall items, arr = Val (JArr items) -> In JNull items) ->
     tryNewsApi w topic maxArticles key = Throw TypeError).
Proof.
  intros Hkey. split; [|split; [|split]].
  - intros Hfail.
    assert (HG : forall k, tryGNews (withoutNewsApi w) topic maxArticles k
                           = tryGNews w topic maxArticles k) by reflexivity.
    assert (HR : tryRss (withoutNewsApi w) topic maxArticles
                 = tryRss w topic maxArticles).
    { unfold tryRss, bind, parseRss. cbn [fetch withoutNewsApi].
      destruct (fetch w (rssUrl topic)); [|reflexivity].
      now rewrite rssLoop_withoutNewsApi. }
    assert (HC : configured (GNEWS_KEY (withoutNewsApi w))
                 = configured (GNEWS_KEY w)) by reflexivity.
    assert (HN : configured (NEWSAPI_KEY (withoutNewsApi w)) = None)
      by reflexivity.
    unfold execute. rewrite HN, HC, HR, Hkey.
    destruct (tryNewsApi w topic maxArticles key) as [[resA|]|] eqn:EA;
      [now destruct (Hfail resA)| |];
      (destruct (configured (GNEWS_KEY w)) as [keyB|];
       [rewrite HG; destruct (tryGNews w topic maxArticles keyB) as [[resB|]|]|]);
      reflexivity.
  - intros [e He]. exists e. unfold tryNewsApi, bind. now rewrite He.
  - intros body Hfetch Hparse. unfold tryNewsApi, bind, response_json.
    now rewrite Hfetch, Hparse.
  - intros body data arr Hfetch Hparse Hstatus Harr Hbad.
    unfold tryNewsApi, bind, response_json.
    rewrite Hfetch, Hparse, Hstatus. cbn [is_string String.eqb].
    change (String.eqb "ok" "ok") with true. cbv iota. rewrite Harr.
    destruct arr as [|[ | | | |items| ]]; try reflexivity.
    specialize (Hbad items eq_refl). cbn [map_articles].
    rewrite (map_null_throws w items Hbad). reflexivity.
Qed.

End NewsMore.

Section NewsMoreRuns.
Import Regex News NewsSamples NewsItems.
Local Open Scope string_scope.
Local Existing Instance MiniJSON.codec.

Lemma full_item_fields_are_extracted_witness :
  parseRss feedWorld
    ("<item>" ++ fullItemBody "Rates held" "https://e.example/9"
                   "Mon, 02 Nov 2026 01:00:00 GMT" " url='https://a.example'"
                   "Agency A" ++ "</item>") 5
  = [rssArticle "Rates held" "https://e.example/9" "Agency A"
       "Mon, 02 Nov 2026 01:00:00 GMT"].
Proof.
  apply (full_item_fields_are_extracted feedWorld "Rates held"
           "https://e.example/9" "Mon, 02 Nov 2026 01:00:00 GMT"
           " url='https://a.example'" "Agency A" 5);
    try reflexivity.
Defined.

(** NewsAPI rejects the key: the rest of the run is the run without the
    NewsAPI key. *)
Lemma failed_provider_is_skipped_witness :
  (execute (twoKeys errorBody gnewsBody) "ai" 5).1
  = [newsapiUrl "ai" 5 "ka"; gnewsUrl "ai" 5 "kb"].
Proof.
  destruct (failed_provider_is_skipped (twoKeys errorBody gnewsBody) "ai" 5 "ka"
              eq_refl) as (Hskip & _).
  rewrite Hskip.
  - vm_compute. reflexivity.
  - intros result. vm_compute. discriminate.
Defined.

End NewsMoreRuns.

(** ** The Memgraph driver and the dispatch service *)
Section MemgraphFacts.
Import Memgraph.
Local Open Scope Z_scope.
Context {Driver : Type}.
Variable neo4j : Connection -> nat -> Attempt Driver.
Variable c : Connection.

Lemma afterFailures_keeps (from n : nat) :
  forall st, isInitialized (afterFailures neo4j c from n st) = isInitialized st /\
             closed (afterFailures neo4j c from n st) = closed st.
Proof.
  revert from. induction n as [|n IH]; intros from st; [split; reflexivity|].
  cbn [afterFailures]. destruct (IH (S from) (afterFailure (neo4j c from) st))
    as [-> ->].
  unfold afterFailure. destruct (neo4j c from); split; reflexivity.
Qed.

Lemma initLoop_failures (retries delay : Z) (n : nat) :
  forall (fuel : nat) (from : nat) (st : State Driver) (tr : Trace),
    (forall i, (from <= i < from + n)%nat -> fails (neo4j c i)) ->
    Z.of_nat from + Z.of_nat n < retries ->
    (n <= fuel)%nat ->
    initLoop fuel neo4j c retries delay (Z.of_nat from) st tr
    = initLoop (fuel - n) neo4j c retries delay (Z.of_nat (from + n))
        (afterFailures neo4j c from n st)
        {| attempts := attempts tr + n; slept := slept tr ++ repeat delay n |}.
Proof.
  induction n as [|n IH]; intros fuel from st tr Hfail Hlt Hfuel.
  - cbn [afterFailures repeat]. rewrite Nat.sub_0_r, !Nat.add_0_r, app_nil_r.
    destruct tr; reflexivity.
  - destruct fuel as [|fuel]; [lia|].
    cbn [initLoop afterFailures].
    destruct (Z.ltb_spec (Z.of_nat from) retries) as [_|]; [|lia].
    destruct (Z.ltb_spec (Z.of_nat from + 1) retries) as [_|]; [|lia].
    rewrite Nat2Z.id.
    pose proof (Hfail from ltac:(lia)) as Hf.
    replace (Z.of_nat from + 1) with (Z.of_nat (S from)) by lia.
    assert (Hnext : forall st1,
              initLoop fuel neo4j c retries delay (Z.of_nat (S from)) st1
                {| attempts := S (attempts tr); slept := slept tr ++ [delay] |}
              = initLoop (S fuel - S n) neo4j c retries delay
                  (Z.of_nat (from + S n)) (afterFailures neo4j c (S from) n st1)
                  {| attempts := attempts tr + S n;
                     slept := slept tr ++ repeat delay (S n) |}).
    { intros st1. rewrite (IH fuel (S from) st1) by (try lia; intros; apply Hfail; lia).
      cbn [attempts slept repeat Nat.sub].
      rewrite <- app_assoc. cbn [app].
      replace (S from + n)%nat with (from + S n)%nat by lia.
      replace (S (attempts tr) + n)%nat with (attempts tr + S n)%nat by lia.
      reflexivity. }
    unfold afterFailure.
    destruct (neo4j c from) as [|d|d]; [apply Hnext | apply Hnext | destruct Hf].
Qed.

(** X26: when the first [k] passes fail and the next one connects, with
    [k < retries], [initDriver] returns the driver of that pass after
    [k + 1] passes and [k] sleeps of [delay] each, and leaves it in
    [driver] with [isInitialized] set. *)
Theorem initDriver_returns_first_connection (retries delay : Z) (k : nat)
  (d : Driver) (st : State Driver) :
  (forall i, (i < k)%nat -> fails (neo4j c i)) ->
  neo4j c k = Connected d ->
  Z.of_nat k < retries ->
  initDriver neo4j c retries delay st
  = Some (Returned d,
          {| driver := Some d; isInitialized := true; closed := closed st |},
          {| attempts := S k; slept := repeat delay k |}).
Proof.
  intros Hfail Hk Hlt. unfold initDriver.
  change 0 with (Z.of_nat 0).
  rewrite (initLoop_failures retries delay k) by (try lia; intros; apply Hfail; lia).
  cbn [attempts slept app Nat.add].
  destruct (Z.to_nat retries - k)%nat as [|fuel] eqn:Hfuel; [lia|].
  cbn [initLoop].
  destruct (Z.ltb_spec (Z.of_nat k) retries) as [_|]; [|lia].
  rewrite Nat2Z.id, Hk.
  destruct (afterFailures_keeps 0 k st) as [_ ->]. reflexivity.
Qed.

Lemma afterFailures_last (n : nat) :
  forall (from : nat) (st : State Driver),
    afterFailures neo4j c from (S n) st
    = afterFailure (neo4j c (from + n)) (afterFailures neo4j c from n st).
Proof.
  induction n as [|n IH]; intros from st.
  - cbn [afterFailures]. now rewrite Nat.add_0_r.
  - change (afterFailures neo4j c from (S (S n)) st)
      with (afterFailures neo4j c (S from) (S n) (afterFailure (neo4j c from) st)).
    rewrite IH. cbn [afterFailures].
    now replace (S from + n)%nat with (from + S n)%nat by lia.
Qed.

(** X27: when every pass fails, [initDriver] gives up after exactly
    [retries] passes with [retries - 1] sleeps between them and throws
    "Failed to connect to Memgraph after [retries] attempts."; with
    [retries] not positive it makes no pass and throws "Unable to
    initialize Memgraph driver.".  [isInitialized] is left as it was, but
    [driver] holds the driver of the last pass that created one, though it
    never connected. *)
Theorem initDriver_gives_up_after_retries (retries delay : Z)
  (st : State Driver) :
  (forall i, fails (neo4j c i)) ->
  (0 < retries ->
   let st' := afterFailures neo4j c 0 (Z.to_nat retries) st in
   initDriver neo4j c retries delay st
   = Some (Thrown (FailedAfter retries), st',
           {| attempts := Z.to_nat retries;
              slept := repeat delay (Z.to_nat retries - 1) |}) /\
   isInitialized st' = isInitialized st /\
   (forall d, neo4j c (Z.to_nat retries - 1) = NoServer d ->
      getDriver st' = Some d)) /\
  (retries <= 0 ->
   initDriver neo4j c retries delay st
   = Some (Thrown UnableToInitialize, st, {| attempts := 0; slept := [] |})).
Proof.
  intros Hfail. split.
  - intros Hpos st'. subst st'. unfold initDriver.
    assert (Hr : exists n, retries = Z.of_nat (S n))
      by (exists (Z.to_nat retries - 1)%nat; lia).
    destruct Hr as [n ->]. rewrite Nat2Z.id.
    replace (S n - 1)%nat with n by lia.
    rewrite afterFailures_last. cbn [Nat.add].
    split; [|split].
    + change 0 with (Z.of_nat 0).
      rewrite (initLoop_failures (Z.of_nat (S n)) delay n) by (try lia; auto).
      cbn [attempts slept app Nat.add].
      replace (S n - n)%nat with 1%nat by lia.
      cbn [initLoop].
      destruct (Z.ltb_spec (Z.of_nat n) (Z.of_nat (S n))) as [_|]; [|lia].
      destruct (Z.ltb_spec (Z.of_nat n + 1) (Z.of_nat (S n))) as [|_]; [lia|].
      rewrite Nat2Z.id. pose proof (Hfail n) as Hf.
      destruct (neo4j c n) as [|d|d]; [| |destruct Hf]; reflexivity.
    + destruct (afterFailures_keeps 0 n st) as [Hi _].
      unfold afterFailure. destruct (neo4j c n); cbn; exact Hi.
    + intros d ->. reflexivity.
  - intros Hneg. unfold initDriver.
    replace (Z.to_nat retries) with 0%nat by lia. cbn [initLoop].
    destruct (Z.ltb_spec 0 retries); [lia | reflexivity].
Qed.

End MemgraphFacts.

Section EnsureFacts.
Import Memgraph.
Local Open Scope Z_scope.
Context {Driver : Type}.

(** X28: [ensureInitialized] connects at most once: while
    [isInitialized] is false it runs [initMemgraph], with the connection of
    the environment, five passes at most and 2000 ms between them; once a
    pass has connected, every later call returns that driver without a
    pass, whatever the server does then, and also after [closeDriver],
    which closes the driver but resets neither variable. *)
Theorem ensureInitialized_connects_once
  (neo4j later : Connection -> nat -> Attempt Driver) (env env' : Env)
  (k : nat) (d : Driver) (st : State Driver) :
  isInitialized st = false ->
  (forall i, (i < k)%nat -> fails (neo4j (envConnection env) i)) ->
  neo4j (envConnection env) k = Connected d ->
  (k < 5)%nat ->
  let st1 := {| driver := Some d; isInitialized := true; closed := closed st |} in
  ensureInitialized neo4j env st
  = Some (inr (Some d), st1, {| attempts := S k; slept := repeat 2000 k |}) /\
  ensureInitialized later env' st1
  = Some (inr (Some d), st1, {| attempts := 0; slept := [] |}) /\
  ensureInitialized later env' (closeDriver st1)
  = Some (inr (Some d), closeDriver st1, {| attempts := 0; slept := [] |}) /\
  In d (closed (closeDriver st1)).
Proof.
  intros Hinit Hfail Hk Hlt st1.
  split; [|split; [|split]].
  - unfold ensureInitialized, initMemgraph. rewrite Hinit. cbn [negb].
    unfold initDriver. change 0 with (Z.of_nat 0).
    rewrite (initLoop_failures neo4j (envConnection env) 5 2000 k)
      by (try lia; intros; apply Hfail; lia).
    cbn [attempts slept app Nat.add].
    destruct (Z.to_nat 5 - k)%nat as [|fuel] eqn:Hfuel; [lia|].
    cbn [initLoop].
    destruct (Z.ltb_spec (Z.of_nat k) 5) as [_|]; [|lia].
    rewrite Nat2Z.id, Hk.
    destruct (afterFailures_keeps neo4j (envConnection env) 0 k st) as [_ ->].
    reflexivity.
  - reflexivity.
  - reflexivity.
  - cbn. apply in_or_app. right. now left.
Qed.

End EnsureFacts.

Section DispatchFacts.
Import Dispatch.
Local Open Scope string_scope.
Variable generate : nat -> Agent -> string -> Caught + string.
Variable clock : nat -> Z.

Lemma dispatchLoop_imap (format : OutputFormat) (rest : list string) :
  forall (i : nat) (results : list DispatchResult),
    dispatchLoop generate clock format i rest results
    = (results
       ++ imap (fun j t => dispatchOne generate clock format (i + j) t) rest)%list.
Proof.
  induction rest as [|t rest IH]; intros i results; cbn [dispatchLoop imap].
  - now rewrite app_nil_r.
  - rewrite IH, <- app_assoc. cbn [app]. rewrite Nat.add_0_r.
    do 2 f_equal. apply imap_ext. intros j x _. cbn.
    f_equal. lia.
Qed.

Lemma dispatchOne_topic (format : OutputFormat) (i : nat) (t : string) :
  topic (dispatchOne generate clock format i t) = t.
Proof.
  unfold dispatchOne. destruct (request format t) as [agent prompt].
  destruct (generate i agent prompt); reflexivity.
Qed.

(** X29: [generateDailyDispatch] returns one result per topic, in the
    order of the topics, the result of the topic number [i] being that of
    pass [i] alone: a topic whose generation throws gets an empty content,
    [success] false and the message caught, and the other topics are
    generated all the same.  Every format other than [summary] is written
    by the article writer with the article prompt. *)
Theorem dispatch_one_result_per_topic (config : DispatchConfig) :
  let results := generateDailyDispatch generate clock config in
  results = imap (dispatchOne generate clock (outputFormat config)) (topics config) /\
  map topic results = topics config /\
  List.Forall
    (fun r => (success r = true /\ error r = None) \/
              (success r = false /\ content r = EmptyString /\ error r <> None))
    results /\
  (forall i t, request structured t = request article t /\
               dispatchOne generate clock structured i t
               = dispatchOne generate clock article i t).
Proof.
  intros results.
  assert (Hres : results
                 = imap (dispatchOne generate clock (outputFormat config))
                        (topics config)).
  { unfold results, generateDailyDispatch. rewrite dispatchLoop_imap.
    reflexivity. }
  split; [exact Hres|]. rewrite Hres. split; [|split].
  - assert (Hgen : forall (l : list string) (g : nat -> string -> DispatchResult),
              (forall i t, topic (g i t) = t) -> map topic (imap g l) = l).
    { induction l as [|t l IH]; intros g Hg; [reflexivity|].
      cbn [imap map]. rewrite Hg. f_equal. apply IH. intros i t'. apply Hg. }
    apply Hgen. intros i t. apply dispatchOne_topic.
  - apply Forall_forall. intros r Hin.
    apply elem_of_lookup_imap in Hin as (i & t & -> & _).
    unfold dispatchOne. destruct (request (outputFormat config) t) as [agent prompt].
    destruct (generate i agent prompt); cbn; [right|left]; auto.
  - intros i t. split; reflexivity.
Qed.

End DispatchFacts.

Section MemgraphRuns.
Import Memgraph MemgraphSamples.
Local Open Scope Z_scope.

Lemma initDriver_returns_first_connection_witness :
  initDriver upAtThird (envConnection noEnv) 5 2000 fresh
  = Some (Returned 2%nat,
          {| driver := Some 2%nat; isInitialized := true; closed := [] |},
          {| attempts := 3; slept := [2000; 2000] |}).
Proof.
  apply (initDriver_returns_first_connection upAtThird (envConnection noEnv)
           5 2000 2 2%nat fresh).
  - intros i Hi. destruct i as [|[|i]]; [exact I | exact I | lia].
  - reflexivity.
  - lia.
Defined.

Lemma initDriver_gives_up_after_retries_witness :
  initDriver down (envConnection noEnv) 3 100 fresh
  = Some (Thrown (FailedAfter 3),
          {| driver := Some 2%nat; isInitialized := false; closed := [] |},
          {| attempts := 3; slept := [100; 100] |}).
Proof.
  destruct (initDriver_gives_up_after_retries down (envConnection noEnv)
              3 100 fresh) as (Hgive & _).
  - intros i. exact I.
  - destruct Hgive as (Hrun & _); [lia|]. exact Hrun.
Defined.

Lemma ensureInitialized_connects_once_witness :
  ensureInitialized down noEnv
    (closeDriver {| driver := Some 2%nat; isInitialized := true; closed := [] |})
  = Some (inr (Some 2%nat),
          {| driver := Some 2%nat; isInitialized := true; closed := [2%nat] |},
          {| attempts := 0; slept := [] |}).
Proof.
  destruct (ensureInitialized_connects_once upAtThird down noEnv noEnv 2 2%nat
              fresh) as (_ & _ & Hclosed & _).
  - reflexivity.
  - intros i Hi. destruct i as [|[|i]]; [exact I | exact I | lia].
  - reflexivity.
  - lia.
  - exact Hclosed.
Defined.

End MemgraphRuns.

(** ** The query of the lesson repository *)
Section LessonQueryFacts.
Import LessonQuery.
Local Open Scope string_scope.

(** X30: the values of the filters never enter the text of the query, which
    depends only on which filters are set; each value is bound to the
    parameter of its name and to no other, a filter that is unset or empty
    binds nothing, [limit] and [offset] are always bound, with the defaults
    20 and 0; and the text names a filter's parameter exactly when that
    parameter is bound. *)
Theorem getLessons_query_is_parameterised (p p' : LessonSearchParams) :
  (isSome (present (category p)) = isSome (present (category p')) ->
   isSome (present (topic p)) = isSome (present (topic p')) ->
   isSome (present (startDate p)) = isSome (present (startDate p')) ->
   isSome (present (endDate p)) = isSome (present (endDate p')) ->
   (getLessonsQuery p).1 = (getLessonsQuery p').1) /\
  (getLessonsQuery p).2 !! "category" = PStr <$> present (category p) /\
  (getLessonsQuery p).2 !! "topic" = PStr <$> present (topic p) /\
  (getLessonsQuery p).2 !! "startDate" = PStr <$> present (startDate p) /\
  (getLessonsQuery p).2 !! "endDate" = PStr <$> present (endDate p) /\
  (getLessonsQuery p).2 !! "limit"
  = Some (PNum (match limit p with Some n => n | None => 20%Z end)) /\
  (getLessonsQuery p).2 !! "offset"
  = Some (PNum (match offset p with Some n => n | None => 0%Z end)) /\
  (forall name, In name ["category"; "topic"; "startDate"; "endDate"] ->
     occurs (String "$" name) (getLessonsQuery p).1
     = isSome ((getLessonsQuery p).2 !! name)).
Proof.
  destruct p as [c t s e l o], p' as [c' t' s' e' l' o'].
  cbn [category topic startDate endDate limit offset].
  split.
  - destruct c as [[|? ?]|], c' as [[|? ?]|]; cbn [present isSome];
      try discriminate; intros _;
      destruct t as [[|? ?]|], t' as [[|? ?]|]; cbn [present isSome];
      try discriminate; intros _;
      destruct s as [[|? ?]|], s' as [[|? ?]|]; cbn [present isSome];
      try discriminate; intros _;
      destruct e as [[|? ?]|], e' as [[|? ?]|]; cbn [present isSome];
      try discriminate; intros _; reflexivity.
  - destruct c as [[|? ?]|], t as [[|? ?]|], s as [[|? ?]|], e as [[|? ?]|];
      (repeat split; try (vm_compute; reflexivity));
      intros name [<-|[<-|[<-|[<-|[]]]]]; vm_compute; reflexivity.
Qed.

End LessonQueryFacts.

(** ** The article tool *)
Section ArticleFacts.
Import Regex JsNumber Dispatch Article.
Local Open Scope string_scope.
Local Arguments String.append !_ _ / : simpl nomatch.

Lemma star_greedy_run (class : ascii -> bool) (cap : option string) (s : string) :
  exists rest,
    star_greedy class s (fun s' => Some (s', cap)) = Some (rest, cap) /\
    match rest with String c _ => class c = false | EmptyString => True end /\
    (String.length rest <= String.length s)%nat.
Proof.
  induction s as [|c s IH].
  - exists EmptyString. cbn. auto.
  - cbn [star_greedy]. destruct (class c) eqn:Hc.
    + destruct IH as (rest & -> & Hrest & Hlen). exists rest.
      cbn [String.length]. repeat split; [exact Hrest | lia].
    + exists (String c s). repeat split; [exact Hc | lia].
Qed.

Lemma find_space (s : string) :
  match find spaceRegex s with
  | None => all_chars no_space s = true
  | Some (pre, rest, _) =>
      all_chars no_space pre = true /\ solid_start rest = true /\
      (String.length rest < String.length s)%nat /\
      (solid_start s = true -> pre <> EmptyString /\ solid_start pre = true)
  end.
Proof.
  induction s as [|c s IH]; [reflexivity|].
  cbn [find exec spaceRegex]. destruct (is_space c) eqn:Hc.
  - destruct (star_greedy_run is_space None s) as (rest & -> & Hrest & Hlen).
    cbn [all_chars String.length solid_start]. rewrite Hc. cbn [negb].
    repeat split; try lia; try discriminate.
    destruct rest; [reflexivity|]. cbn. now rewrite Hrest.
  - destruct (find spaceRegex s) as [[[pre rest] cap]|].
    + destruct IH as (Hpre & Hrest & Hlen & _).
      cbn [all_chars String.length solid_start]. unfold no_space at 1.
      rewrite Hc, Hpre. cbn. repeat split; try lia; try discriminate; auto.
    + cbn [all_chars]. unfold no_space at 1. now rewrite Hc, IH.
Qed.

Lemma single_spaced_solid (s : string) :
  all_chars no_space s = true -> single_spaced s = true.
Proof.
  induction s as [|c s IH]; [reflexivity|].
  cbn [all_chars single_spaced]. unfold no_space at 1.
  intros [Hc Hs]%andb_true_iff. rewrite Hc, (IH Hs). cbn.
  destruct s as [|c' s']; [reflexivity|].
  apply negb_true_iff in Hc. now rewrite Hc.
Qed.

Lemma single_spaced_join (pre out : string) :
  all_chars no_space pre = true ->
  single_spaced out = true -> solid_start out = true ->
  single_spaced (pre ++ " " ++ out) = true.
Proof.
  intros Hpre Hout Hstart. induction pre as [|c pre IH].
  - cbn [String.append single_spaced]. rewrite Hout.
    destruct out as [|c' out']; [reflexivity|].
    cbn in Hstart. apply negb_true_iff in Hstart. rewrite Hstart.
    reflexivity.
  - cbn [all_chars] in Hpre. apply andb_true_iff in Hpre as [Hc Hpre].
    change (String c pre ++ " " ++ out) with (String c (pre ++ " " ++ out)).
    cbn [single_spaced]. rewrite (IH Hpre).
    unfold no_space in Hc. rewrite Hc. apply negb_true_iff in Hc.
    destruct (pre ++ " " ++ out); [reflexivity|]. now rewrite Hc.
Qed.

Lemma replace_space_collapses (fuel : nat) :
  forall s, (String.length s <= fuel)%nat ->
    single_spaced (replace_all fuel spaceRegex " " s) = true /\
    (solid_start s = true ->
     solid_start (replace_all fuel spaceRegex " " s) = true).
Proof.
  induction fuel as [|fuel IH]; intros s Hlen.
  - destruct s; [split; reflexivity | cbn in Hlen; lia].
  - cbn [replace_all]. pose proof (find_space s) as Hfind.
    destruct (find spaceRegex s) as [[[pre rest] cap]|].
    + destruct Hfind as (Hpre & Hrest & Hshort & Hhead).
      destruct (IH rest ltac:(lia)) as [Hss Hst]. split.
      * apply single_spaced_join; auto.
      * intros Hs. destruct (Hhead Hs) as [Hne Hp].
        destruct pre as [|c pre]; [congruence|]. exact Hp.
    + split; [now apply single_spaced_solid | auto].
Qed.

Lemma single_spaced_tail (c : ascii) (s : string) :
  single_spaced (String c s) = true -> single_spaced s = true.
Proof. cbn [single_spaced]. now intros [_ ?]%andb_true_iff. Qed.

Lemma trim_start_keeps (s : string) :
  single_spaced s = true ->
  single_spaced (trim_start s) = true /\ solid_start (trim_start s) = true.
Proof.
  induction s as [|c s IH]; intros Hs; [split; reflexivity|].
  cbn [trim_start]. destruct (is_space c) eqn:Hc.
  - apply IH. now apply single_spaced_tail in Hs.
  - split; [exact Hs|]. cbn. now rewrite Hc.
Qed.

Lemma trim_end_head (s : string) (b : ascii) (r : string) :
  trim_end s = String b r -> exists s', s = String b s'.
Proof.
  destruct s as [|c s]; [discriminate|]. cbn [trim_end].
  destruct (trim_end s); [destruct (is_space c); [discriminate|]|];
    intros [= <- _]; eauto.
Qed.

Lemma trim_end_single (s : string) :
  single_spaced s = true -> single_spaced (trim_end s) = true.
Proof.
  induction s as [|a s IH]; intros Hs; [reflexivity|].
  pose proof (single_spaced_tail _ _ Hs) as Hs'. specialize (IH Hs').
  cbn [single_spaced] in Hs.
  apply andb_true_iff in Hs as [Hs _]. apply andb_true_iff in Hs as [Ha Hnext].
  cbn [trim_end]. destruct (trim_end s) as [|b r] eqn:Hb.
  - destruct (is_space a) eqn:Hsp; [reflexivity|]. cbn. now rewrite Hsp.
  - destruct (trim_end_head s b r Hb) as [s' ->].
    cbn [single_spaced]. cbn [single_spaced] in IH.
    now rewrite Ha, Hnext, IH.
Qed.

Lemma trim_end_solid (s : string) :
  solid_start s = true -> solid_start (trim_end s) = true.
Proof.
  destruct s as [|c s]; [reflexivity|]. cbn [solid_start trim_end].
  intros Hc. destruct (trim_end s).
  - apply negb_true_iff in Hc. rewrite Hc. cbn. now rewrite Hc.
  - exact Hc.
Qed.

Lemma take_chars_keeps (n : nat) :
  forall s, single_spaced s = true -> solid_start s = true ->
    single_spaced (take_chars n s) = true /\
    solid_start (take_chars n s) = true /\
    (String.length (take_chars n s) <= n)%nat.
Proof.
  induction n as [|n IH]; intros s Hs Hhead.
  - destruct s; cbn; auto.
  - destruct s as [|c s]; [cbn; repeat split; lia|].
    cbn [take_chars String.length]. split; [|split; [exact Hhead|]].
    + pose proof (single_spaced_tail _ _ Hs) as Hs'.
      cbn [single_spaced] in Hs.
      apply andb_true_iff in Hs as [Hs _]. apply andb_true_iff in Hs as [Hc Hnext].
      assert (Hlen : single_spaced (take_chars n s) = true).
      { clear -Hs'. revert s Hs'. induction n as [|n IHn]; intros s Hs.
        - destruct s; reflexivity.
        - destruct s as [|a s]; [reflexivity|].
          pose proof (single_spaced_tail _ _ Hs) as Hs'.
          cbn [single_spaced] in Hs.
          apply andb_true_iff in Hs as [Hs _].
          apply andb_true_iff in Hs as [Ha Hnext].
          cbn [take_chars single_spaced]. rewrite Ha, (IHn s Hs'). cbn [andb].
          destruct n, s; try reflexivity. cbn [take_chars]. now rewrite Hnext. }
      cbn [single_spaced]. rewrite Hc, Hlen. cbn [andb].
      destruct n, s; try reflexivity. cbn [take_chars]. now rewrite Hnext.
    + assert (Hlen : forall m t, (String.length (take_chars m t) <= m)%nat).
      { clear. induction m as [|m IHm]; intros t; destruct t; cbn; try lia.
        specialize (IHm t). lia. }
      specialize (Hlen n s). lia.
Qed.

Lemma star_lazy_split {R : Type} (class : ascii -> bool) (s : string)
  (k : string -> option R) (x : R) :
  star_lazy class s k = Some x ->
  exists t s', s = t ++ s' /\ all_chars class t = true /\ k s' = Some x.
Proof.
  induction s as [|c s IH]; cbn [star_lazy].
  - destruct (k EmptyString) eqn:Hk; [|discriminate].
    intros [= <-]. exists EmptyString, EmptyString. auto.
  - destruct (k (String c s)) eqn:Hk.
    + intros [= <-]. exists EmptyString, (String c s). auto.
    + destruct (class c) eqn:Hc; [|discriminate].
      intros (t & s' & -> & Ht & Hs')%IH.
      exists (String c t), s'. cbn [all_chars]. rewrite Hc, Ht. auto.
Qed.

(** The capture of a match of [titleRegex] holds no line break. *)
Lemma title_capture_one_line (s s' : string) (cap : option string) :
  exec titleRegex s None (fun s' cap => Some (s', cap)) = Some (s', cap) ->
  match cap with Some t => all_chars dot t = true | None => True end.
Proof.
  unfold titleRegex. cbn [exec].
  destruct (strip_prefix_i "<title" s) as [s1|]; [|discriminate].
  intros (s2 & _ & Hk)%star_greedy_shorter.
  destruct (strip_prefix_i ">" s2) as [s3|]; [|discriminate].
  apply star_lazy_split in Hk as (t & s4 & -> & Ht & Hk).
  destruct (strip_prefix_i "</title>" s4) as [s5|]; [|discriminate].
  injection Hk as _ <-. now rewrite consumed_app.
Qed.

Lemma find_title_one_line (s : string) :
  match group1 (find titleRegex s) with
  | Some t => all_chars dot t = true
  | None => True
  end.
Proof.
  induction s as [|c s IH]; cbn [find].
  - destruct (exec titleRegex EmptyString None _) as [[s' cap]|] eqn:He;
      [|exact I].
    exact (title_capture_one_line _ _ _ He).
  - destruct (exec titleRegex (String c s) None _) as [[s' cap]|] eqn:He.
    + exact (title_capture_one_line _ _ _ He).
    + destruct (find titleRegex s) as [[[pre s'] cap]|]; [exact IH | exact I].
Qed.

(** X8: whatever the page holds, the [content] the article tool returns
    has at most 5000 characters, no white space but single spaces and no
    two of them in a row, and it does not start with a space; the [title]
    holds no line break; the [url] is the one asked for, [success] is true
    and there is no [error].  When the request throws, [success] is false,
    [title] and [content] are empty and [error] is the message of the
    error caught, or "Failed to fetch article" when what was thrown is no
    [Error]. *)
Theorem article_content_is_clean (fetch : string -> Caught + string)
  (link : string) :
  url (execute fetch link) = link /\
  all_chars dot (title (execute fetch link)) = true /\
  (forall html, fetch link = inr html ->
     success (execute fetch link) = true /\
     error (execute fetch link) = None /\
     (String.length (content (execute fetch link)) <= 5000)%nat /\
     single_spaced (content (execute fetch link)) = true /\
     solid_start (content (execute fetch link)) = true) /\
  (forall caught, fetch link = inl caught ->
     success (execute fetch link) = false /\
     title (execute fetch link) = EmptyString /\
     content (execute fetch link) = EmptyString /\
     error (execute fetch link)
     = Some (match caught with
             | ErrorObject message => message
             | OtherValue => "Failed to fetch article"
             end)).
Proof.
  unfold execute. split; [destruct (fetch link); reflexivity|]. split; [|split].
  - destruct (fetch link) as [caught|html]; [reflexivity|]. cbn [title].
    pose proof (find_title_one_line html) as Ht.
    destruct (group1 (find titleRegex html)) as [[|c t]|]; auto.
  - intros html ->. cbn [success error content].
    split; [reflexivity|]. split; [reflexivity|].
    match goal with
    | |- context [replace spaceRegex " " ?x] => generalize x
    end.
    intros x. unfold replace, trim.
    destruct (replace_space_collapses (String.length x) x (Nat.le_refl _)) as [Hss _].
    destruct (trim_start_keeps _ Hss) as [Hs1 Hh1].
    pose proof (trim_end_single _ Hs1) as Hs2.
    pose proof (trim_end_solid _ Hh1) as Hh2.
    destruct (take_chars_keeps 5000 _ Hs2 Hh2) as (Hs3 & Hh3 & Hlen).
    auto.
  - intros caught ->. repeat split.
Qed.

End ArticleFacts.

Section ArticleRuns.
Import Regex Dispatch Article.
Local Open Scope string_scope.

(** A page with a script, a navigation bar and an article. *)
Example article_page_is_stripped :
  let page :=
    "<html><head><TITLE>Rates held</TITLE><script>var a = 1;</script></head>"
    ++ "<body><nav><a href='/'>Home</a></nav><article class='main'><h1>Rates"
    ++ " held</h1>" ++ String (ascii_of_nat 10) "  <p>The bank   held.</p></article>"
    ++ "<footer>About</footer></body></html>" in
  execute (fun _ => inr page) "https://e.example/9"
  = {| title := "Rates held"; content := "Rates held The bank held.";
       url := "https://e.example/9"; success := true; error := None |}.
Proof. vm_compute. reflexivity. Qed.

End ArticleRuns.
